(** * Least-response-time load balancer with a per-method token bucket

    A shallow embedding of the Go program: the packages [ratelimiter]
    (MethodRateLimiter), [backend], [balancer] (LoadBalancer, with its
    selection, registration and dispatch) and, of [main], the registration
    loop and the HTTP handler.  Go values are modelled as the code has them:

    - [float64] is the primitive IEEE-754 binary64 type [float]; every
      arithmetic operation and comparison of the source is the
      corresponding primitive operation, rounded on its own to nearest even
      (no fused multiply-add, as the compiler emits for amd64);
    - [int], [int64], [uint64] and [time.Duration] are integers [Z], with
      the wrap-around written out where the source can overflow;
    - [string] is [string]; a Go [map[string]T] is a [gmap string T];
    - a Go result pair [(v, err)] is a pair whose second component is an
      [option error] ([None] is [nil]);
    - a request body is a reader that a read consumes: [ioutil.ReadAll]
      returns, with the data and the error, the reader as it leaves it.

    The mutexes are not modelled: each method body runs atomically. *)

From Stdlib Require Import ZArith Floats Lia Bool String Ascii.
From stdpp Require Import base option list gmap strings pretty.

Open Scope Z_scope.

(** ** Go runtime: errors and numeric conversions *)

(** The [error] interface, by its message. *)
Inductive error : Type :=
| errors_New (msg : string).

(** [float64(z)] for an [int64] (or [int]) value [z]: the nearest binary64,
    ties to even. *)
Definition float64_of_int (z : Z) : float :=
  if z =? - 2 ^ 63 then (-9223372036854775808)%float
  else if z <? 0 then (- of_uint63 (Uint63.of_Z (- z)))%float
  else of_uint63 (Uint63.of_Z z).

(** [float64(z)] for a [uint64] value [z]. *)
Definition float64_of_uint64 (z : Z) : float :=
  SF2Prim (binary_normalize prec emax z 0 false).

(** [uint64(f)] for a finite non-negative [f] in range: truncation. *)
Definition uint64_of_float64 (f : float) : Z :=
  match Prim2SF f with
  | S754_finite false m e =>
      if 0 <=? e then Z.shiftl (Zpos m) e else Z.shiftr (Zpos m) (- e)
  | _ => 0
  end.

(** ** Package [time] of the Go standard library, as far as the program
    calls it *)
Module time.

(** A [Duration] is an [int64] count of nanoseconds. *)
Definition Duration : Type := Z.

Definition Nanosecond : Duration := 1.
Definition Microsecond : Duration := 1000 * Nanosecond.
Definition Millisecond : Duration := 1000 * Microsecond.
Definition Second : Duration := 1000 * Millisecond.
Definition Minute : Duration := 60 * Second.
Definition Hour : Duration := 60 * Minute.

Definition minDuration : Duration := - 2 ^ 63.
Definition maxDuration : Duration := 2 ^ 63 - 1.

(** Two's-complement [int64] wrap-around. *)
Definition int64 (z : Z) : Z := (z + 2 ^ 63) mod 2 ^ 64 - 2 ^ 63.

(** A [Time] returned by [time.Now()] carries a monotonic clock reading
    [ext] (nanoseconds, [int64]); [Sub] on two such values only looks at
    the readings. *)
Record Time : Type := { ext : Z }.

(** [subMono]: the difference of two monotonic readings, saturated. *)
Definition subMono (t u : Z) : Duration :=
  let d := int64 (t - u) in
  if (d <? 0) && (u <? t) then maxDuration
  else if (0 <? d) && (t <? u) then minDuration
  else d.

Definition Sub (t u : Time) : Duration := subMono (ext t) (ext u).

(** [Duration.Seconds]: [float64(d / Second) + float64(d % Second) / 1e9],
    with Go's truncated integer division. *)
Definition Seconds (d : Duration) : float :=
  let sec := Z.quot d Second in
  let nsec := Z.rem d Second in
  (float64_of_int sec + float64_of_int nsec / 1e9)%float.

(** *** [ParseDuration] *)

Definition isDigit (c : ascii) : bool :=
  let n := Z.of_nat (nat_of_ascii c) in (48 <=? n) && (n <=? 57).

Definition digitVal (c : ascii) : Z := Z.of_nat (nat_of_ascii c) - 48.

Definition isDot (c : ascii) : bool := Ascii.eqb c "."%char.

(** [leadingInt]: consumes the leading [[0-9]*]; [None] is the overflow
    error [errLeadingInt]. *)
Fixpoint leadingInt_from (x : Z) (s : string) : option (Z * string) :=
  match s with
  | EmptyString => Some (x, s)
  | String c s' =>
      if negb (isDigit c) then Some (x, s)
      else if 2 ^ 63 / 10 <? x then None
      else
        let x := (x * 10 + digitVal c) mod 2 ^ 64 in
        if 2 ^ 63 <? x then None else leadingInt_from x s'
  end.

Definition leadingInt (s : string) : option (Z * string) := leadingInt_from 0 s.

(** [leadingFraction]: consumes the leading [[0-9]*] of a fraction; on
    overflow it stops accumulating precision. *)
Fixpoint leadingFraction_from (x : Z) (scale : float) (overflow : bool)
  (s : string) : Z * float * string :=
  match s with
  | EmptyString => (x, scale, s)
  | String c s' =>
      if negb (isDigit c) then (x, scale, s)
      else if overflow then leadingFraction_from x scale overflow s'
      else if (2 ^ 63 - 1) / 10 <? x then leadingFraction_from x scale true s'
      else
        let y := (x * 10 + digitVal c) mod 2 ^ 64 in
        if 2 ^ 63 <? y then leadingFraction_from x scale true s'
        else leadingFraction_from y (scale * 10)%float false s'
  end.

Definition leadingFraction (s : string) : Z * float * string :=
  leadingFraction_from 0 1%float false s.

(** The unit: the longest prefix without ['.'] and digits. *)
Fixpoint unitSpan (s : string) : string * string :=
  match s with
  | EmptyString => (EmptyString, EmptyString)
  | String c s' =>
      if isDot c || isDigit c then (EmptyString, s)
      else let '(u, r) := unitSpan s' in (String c u, r)
  end.

(** U+00B5 and U+03BC followed by [s], in UTF-8. *)
Definition micro_s : string :=
  String (ascii_of_nat 194) (String (ascii_of_nat 181) "s").
Definition mu_s : string :=
  String (ascii_of_nat 206) (String (ascii_of_nat 188) "s").

Definition unitMap (u : string) : option Z :=
  if String.eqb u "ns" then Some Nanosecond
  else if String.eqb u "us" then Some Microsecond
  else if String.eqb u micro_s then Some Microsecond
  else if String.eqb u mu_s then Some Microsecond
  else if String.eqb u "ms" then Some Millisecond
  else if String.eqb u "s" then Some Second
  else if String.eqb u "m" then Some Minute
  else if String.eqb u "h" then Some Hour
  else None.

Definition startsNumber (s : string) : bool :=
  match s with
  | EmptyString => false
  | String c _ => isDot c || isDigit c
  end.

(** One round of the loop [for s != ""] of [ParseDuration]: a number, an
    optional fraction and a unit; the result is the value of the segment in
    nanoseconds and the rest of the string.  [None] stands for every
    [return 0, errors.New(...)]. *)
Definition parseSegment (s : string) : option (Z * string) :=
  if negb (startsNumber s) then None
  else
    match leadingInt s with
    | None => None
    | Some (v, s1) =>
        let pre := negb (String.length s =? String.length s1)%nat in
        let '(f, scale, s2, post) :=
          match s1 with
          | String c s1' =>
              if isDot c then
                let '(f, scale, s2) := leadingFraction s1' in
                (f, scale, s2, negb (String.length s1' =? String.length s2)%nat)
              else (0, 1%float, s1, false)
          | EmptyString => (0, 1%float, s1, false)
          end in
        if negb pre && negb post then None
        else
          let '(u, s3) := unitSpan s2 in
          if String.eqb u "" then None
          else
            match unitMap u with
            | None => None
            | Some unit =>
                if 2 ^ 63 / unit <? v then None
                else
                  let v := (v * unit) mod 2 ^ 64 in
                  if 0 <? f then
                    let v :=
                      (v + uint64_of_float64
                             (float64_of_uint64 f
                              * (float64_of_uint64 unit / scale))%float)
                      mod 2 ^ 64 in
                    if 2 ^ 63 <? v then None else Some (v, s3)
                  else Some (v, s3)
            end
    end.

(** The loop itself: [d] is the [uint64] sum so far.  Each round consumes at
    least the unit, so [String.length s] rounds always suffice
    ([parseSegments_fuel] below). *)
Fixpoint parseSegments (fuel : nat) (d : Z) (s : string) : option Z :=
  match s with
  | EmptyString => Some d
  | String _ _ =>
      match fuel with
      | O => None
      | S fuel =>
          match parseSegment s with
          | None => None
          | Some (v, s3) =>
              let d := (d + v) mod 2 ^ 64 in
              if 2 ^ 63 <? d then None else parseSegments fuel d s3
          end
      end
  end.

Definition invalid_duration : error := errors_New "time: invalid duration".

(** [ParseDuration]: a possibly signed sequence of decimal numbers, each
    with an optional fraction and a unit suffix.  Every failure returns the
    zero [Duration] together with an error (whose text the program never
    reads). *)
Definition ParseDuration (s : string) : Duration * option error :=
  let '(neg, s) :=
    match s with
    | String c s' =>
        if Ascii.eqb c "-"%char then (true, s')
        else if Ascii.eqb c "+"%char then (false, s')
        else (false, s)
    | EmptyString => (false, s)
    end in
  if String.eqb s "0" then (0, None)
  else if String.eqb s "" then (0, Some invalid_duration)
  else
    match parseSegments (String.length s) 0 s with
    | None => (0, Some invalid_duration)
    | Some d =>
        if neg then (int64 (- int64 d), None)
        else if 2 ^ 63 - 1 <? d then (0, Some invalid_duration)
        else (d, None)
    end.

(** [Duration.String]: the text of a duration, as [ServeHTTP] stores it. *)
Class Formatter : Type := Duration_String : Duration -> string.

End time.

(** ** Package [ratelimiter] *)
Module ratelimiter.

(** An [io.ReadCloser] request body: the bytes it delivers from now on, and
    how they end: with the end of the data, or with an error, after which
    the reader goes on as the reader [rest]. *)
Inductive ReadCloser : Type :=
| ends (data : string)
| fails (data : string) (err : error) (rest : ReadCloser).

Definition content (b : ReadCloser) : string :=
  match b with
  | ends data | fails data _ _ => data
  end.

(** The error that a read to the end runs into, and the reader as such a
    read leaves it: its bytes are consumed. *)
Definition read_error (b : ReadCloser) : option error :=
  match b with
  | ends _ => None
  | fails _ err _ => Some err
  end.

Definition after_read (b : ReadCloser) : ReadCloser :=
  match b with
  | ends _ => ends ""
  | fails _ _ rest => rest
  end.

(** [ioutil.ReadAll(b)]: the data read until the end or an error, the
    error, and the reader after the call. *)
Definition ioutil_ReadAll (b : ReadCloser) : string * option error * ReadCloser :=
  (content b, read_error b, after_read b).

(** [ioutil.NopCloser(bytes.NewReader(body))] *)
Definition NopCloser (body : string) : ReadCloser := ends body.

(** The part of [*http.Request] the limiter looks at.  [URL_Query_Id] is
    the value of [r.URL.Query().Get("Id")]: the empty string when the
    parameter is absent. *)
Record Request : Type := { URL_Query_Id : string; Body : ReadCloser }.

Record requestBody : Type := { Method : string }.

(** [json.Unmarshal(body, &reqBody)] of [encoding/json]: the decoded value
    and the error. *)
Class Decoder : Type :=
  json_Unmarshal : string -> requestBody * option error.

Record MethodRateLimiter : Type := {
  rate : float;
  burst : Z;
  tokens : gmap string float;
  last : gmap string time.Time;
  methods : gmap string bool
}.

Definition NewMethodRateLimiter (rate : float) (burst : Z) : MethodRateLimiter :=
  let methods : gmap string bool :=
    <["eth_getChainId" := true]>
    (<["eth_getBlockNumber" := true]>
    (<["eth_getBlockByNumber" := true]>
    (<["eth_getBlockReceipts" := true]>
    (<["eth_getTransactionReceipt" := true]> ∅)))) in
  {| rate := rate; burst := burst; tokens := ∅; last := ∅; methods := methods |}.

(** [mrl.methods[m]]: a missing key reads as [false]. *)
Definition methods_index (mrl : MethodRateLimiter) (m : string) : bool :=
  default false (methods mrl !! m).

Definition rateLimitKey (nodeId method : string) : string :=
  (nodeId ++ "-" ++ method)%string.

Definition set_bucket (mrl : MethodRateLimiter) (key : string) (t : float)
  (now : time.Time) : MethodRateLimiter :=
  {| rate := rate mrl; burst := burst mrl;
     tokens := <[key := t]> (tokens mrl);
     last := <[key := now]> (last mrl);
     methods := methods mrl |}.

Definition set_Body (r : Request) (b : ReadCloser) : Request :=
  {| URL_Query_Id := URL_Query_Id r; Body := b |}.

Section Allow.
Context `{Decoder}.

(** [Allow]: [now] is the value [time.Now()] returns inside the call.  The
    result is the limiter and the request after the call (the code reads
    [r.Body], which consumes it, and assigns [r.Body] only after a read
    without error), and the returned pair [(bool, error)]. *)
Definition Allow (mrl : MethodRateLimiter) (r : Request) (now : time.Time)
  : MethodRateLimiter * Request * (bool * option error) :=
  let nodeId := URL_Query_Id r in
  if String.eqb nodeId "" then (mrl, r, (true, None))
  else
    let '(body, err, rest) := ioutil_ReadAll (Body r) in
    (* the read has consumed [r.Body] *)
    let r := set_Body r rest in
    match err with
    | Some e => (mrl, r, (false, Some e))
    | None =>
        let r := set_Body r (NopCloser body) in
        let '(reqBody, err) := json_Unmarshal body in
        match err with
        | Some e => (mrl, r, (false, Some e))
        | None =>
            if negb (methods_index mrl (Method reqBody)) then (mrl, r, (true, None))
            else
              let rateLimitKey := rateLimitKey nodeId (Method reqBody) in
              match tokens mrl !! rateLimitKey, last mrl !! rateLimitKey with
              | Some tokens, Some last =>
                  let elapsed := time.Seconds (time.Sub now last) in
                  let tokens := (tokens + elapsed * rate mrl)%float in
                  let tokens :=
                    if (float64_of_int (burst mrl) <? tokens)%float
                    then float64_of_int (burst mrl) else tokens in
                  if (tokens <? 1)%float then (mrl, r, (false, None))
                  else
                    let tokens := (tokens - 1)%float in
                    (set_bucket mrl rateLimitKey tokens now, r, (true, None))
              | _, _ =>
                  (set_bucket mrl rateLimitKey
                     (float64_of_int (burst mrl) - 1)%float now,
                   r, (true, None))
              end
        end
    end.

(** A sequence of calls, each with its request and its clock reading. *)
Fixpoint Allow_all (mrl : MethodRateLimiter) (calls : list (Request * time.Time))
  : MethodRateLimiter * list (bool * option error) :=
  match calls with
  | [] => (mrl, [])
  | (r, now) :: calls =>
      let '(mrl, _, res) := Allow mrl r now in
      let '(mrl, rest) := Allow_all mrl calls in
      (mrl, res :: rest)
  end.

End Allow.
End ratelimiter.

(** ** Packages [net/url] and [backend] *)
Module url.

(** A parsed [*url.URL], by the string its [String] method returns. *)
Record URL : Type := { URL_String : string }.

(** [url.Parse]: the parsed URL and the error. *)
Class Parser : Type := Parse : string -> URL * option error.

End url.

Module backend.

Record Backend : Type := { URL : url.URL }.

Definition NewBackend (u : url.URL) : Backend := {| URL := u |}.

End backend.

(** ** The Redis hash ["backends"] behind [lb.rdb] *)
Module redis.

(** A command either fails with an error and leaves the hash as it is
    ([fail = Some e]), or is carried out. *)
Definition HSet (h : gmap string string) (fail : option error)
  (field value : string) : gmap string string * option error :=
  match fail with
  | Some e => (h, Some e)
  | None => (<[field := value]> h, None)
  end.

End redis.

(** ** Package [balancer] *)
Module balancer.
Import backend.

Record LoadBalancer : Type := { backends : list Backend }.

Section AddBackend.
Context `{url.Parser}.

(** [AddBackend]: [h] is the hash before the call and [fail] the outcome of
    the [HSet] command. *)
Definition AddBackend (lb : LoadBalancer) (h : gmap string string)
  (fail : option error) (urlStr : string)
  : LoadBalancer * gmap string string * option error :=
  let '(u, err) := url.Parse urlStr in
  match err with
  | Some e => (lb, h, Some e)
  | None =>
      let newBackend := NewBackend u in
      let lb := {| backends := backends lb ++ [newBackend] |} in
      let '(h, err) := redis.HSet h fail urlStr "0" in
      match err with
      | Some e => (lb, h, Some e)
      | None => (lb, h, None)
      end
  end.

End AddBackend.

(** [float64(^uint64(0) >> 1)] *)
Definition maxResponseTime : float :=
  float64_of_uint64 (Z.shiftr (Z.ones 64) 1).

(** One round of the loop over [responseTimes]; the state is
    [(minResponseTime, selectedBackendURL)]. *)
Definition scan (st : float * string) (entry : string * string) : float * string :=
  let '(minResponseTime, selectedBackendURL) := st in
  let '(urlStr, responseTimeStr) := entry in
  let '(responseTime, _) := time.ParseDuration responseTimeStr in
  if (time.Seconds responseTime <? minResponseTime)%float
  then (time.Seconds responseTime, urlStr)
  else (minResponseTime, selectedBackendURL).

(** The loop over [lb.backends]. *)
Fixpoint lookup_backend (bs : list Backend) (selectedBackendURL : string)
  : option Backend :=
  match bs with
  | [] => None
  | b :: bs =>
      if String.eqb (url.URL_String (URL b)) selectedBackendURL then Some b
      else lookup_backend bs selectedBackendURL
  end.

(** [NextBackend]: [hgetall] is the result of
    [lb.rdb.HGetAll(ctx, "backends").Result()], the map given by its entries
    in the order in which the [range] loop visits them. *)
Definition NextBackend (lb : LoadBalancer)
  (hgetall : list (string * string) * option error)
  : option Backend * option error :=
  if (length (backends lb) =? 0)%nat
  then (None, Some (errors_New "no backends available"))
  else
    let '(responseTimes, err) := hgetall in
    match err with
    | Some e => (None, Some e)
    | None =>
        let '(minResponseTime, selectedBackendURL) :=
          fold_left scan responseTimes (maxResponseTime, ""%string) in
        if String.eqb selectedBackendURL "" then
          (None, Some (errors_New "no backend selected"))
        else
          match lookup_backend (backends lb) selectedBackendURL with
          | Some b => (Some b, None)
          | None => (None, Some (errors_New "backend not found"))
          end
    end.

(** [NewLoadBalancer]: [ping] is the outcome of the [Ping] command, sent
    with a timeout of five seconds.  The new balancer has no backend. *)
Definition NewLoadBalancer (ping : option error)
  : option LoadBalancer * option error :=
  match ping with
  | Some err => (None, Some err)
  | None => (Some {| backends := [] |}, None)
  end.

Definition StatusOK : Z := 200.
Definition StatusServiceUnavailable : Z := 503.

(** [responseWriterWrapper]: the wrapped [http.ResponseWriter] is given by
    the [WriteHeader] calls it has received, in order. *)
Record responseWriterWrapper : Type := {
  ResponseWriter : list Z;
  statusCode : Z
}.

Definition WriteHeader (rww : responseWriterWrapper) (statusCode : Z)
  : responseWriterWrapper :=
  {| ResponseWriter := ResponseWriter rww ++ [statusCode];
     statusCode := statusCode |}.

(** The calls of [lb.logger.Printf], by the method that makes them and the
    values it prints beside the request. *)
Inductive logged : Type :=
| logRequest
| logError (err : error)
| logCompletedRequest (statusCode : Z) (duration : time.Duration)
    (backendURL : url.URL).

Section ServeHTTP.
Context `{time.Formatter}.
(** [httputil.NewSingleHostReverseProxy(backend.URL).ServeHTTP]: the
    [WriteHeader] calls the proxy makes on its writer for a request. *)
Variable proxy : url.URL -> ratelimiter.Request -> list Z.

(** [ServeHTTP]: [w] is the writer of the response, [h] the hash before the
    call, [hgetall] the answer to the store read, [duration] the value of
    [time.Since(start)] after the proxied call and [fail] the outcome of the
    [HSet] command.  The result is the hash and the writer after the call,
    and the log.  The code has no case for a nil backend without an error,
    on which it would dereference nil; [NextBackend] never returns that pair
    ([NextBackend_some_or_error] below), and the last case stands for it. *)
Definition ServeHTTP (lb : LoadBalancer) (h : gmap string string)
  (hgetall : list (string * string) * option error) (w : list Z)
  (r : ratelimiter.Request) (duration : time.Duration) (fail : option error)
  : gmap string string * list Z * list logged :=
  match NextBackend lb hgetall with
  | (_, Some err) =>
      (h, w ++ [StatusServiceUnavailable], [logRequest; logError err])
  | (Some backend, None) =>
      let wrappedWriter := {| ResponseWriter := w; statusCode := StatusOK |} in
      let wrappedWriter := fold_left WriteHeader (proxy (URL backend) r) wrappedWriter in
      let '(h, _) :=
        redis.HSet h fail (url.URL_String (URL backend))
          (time.Duration_String duration) in
      (h, ResponseWriter wrappedWriter,
       [logRequest;
        logCompletedRequest (statusCode wrappedWriter) duration (URL backend)])
  | (None, None) => (h, w, [logRequest])
  end.

End ServeHTTP.

End balancer.

(** ** The handler registered by [main] *)
Module main.
Import ratelimiter.

Record Response : Type := { StatusCode : Z; message : string }.

Definition StatusInternalServerError : Z := 500.
Definition StatusTooManyRequests : Z := 429.

(** [http.Error(w, msg, code)] *)
Definition http_Error (msg : string) (code : Z) : Response :=
  {| StatusCode := code; message := msg |}.

Definition methodRateLimiter : MethodRateLimiter := NewMethodRateLimiter 10 60.

Section handler.
Context `{Decoder}.
(** [lb.ServeHTTP(w, r)], the dispatch of an admitted request. *)
Variable ServeHTTP : Request -> Response.

Definition handler (mrl : MethodRateLimiter) (r : Request) (now : time.Time)
  : MethodRateLimiter * Response :=
  let '(mrl, r, (allowed, err)) := Allow mrl r now in
  match err with
  | Some _ =>
      (mrl, http_Error "Error checking rate limit" StatusInternalServerError)
  | None =>
      if negb allowed then
        (mrl, http_Error "Rate limit exceeded or request body too large"
                StatusTooManyRequests)
      else (mrl, ServeHTTP r)
  end.

End handler.

(** The list [backends] of [main]. *)
Definition backend_urls : list string :=
  ["http://ms-backend:5001"; "http://ms-backend1:5000";
   "http://ms-backend2:5002"; "http://ms-backend3:5003"]%string.

Section AddBackends.
Context `{url.Parser}.

(** The loop of [main] over the backends: each is given with the outcome of
    its [HSet] command; an error is logged and the loop goes on. *)
Fixpoint AddBackends (lb : balancer.LoadBalancer) (h : gmap string string)
  (backends : list (string * option error))
  : balancer.LoadBalancer * gmap string string :=
  match backends with
  | [] => (lb, h)
  | (backend, fail) :: backends =>
      let '(lb, h, _) := balancer.AddBackend lb h fail backend in
      AddBackends lb h backends
  end.

End AddBackends.
End main.

(** ** Notions used to state the properties *)

(** The value of a snapshot entry is a well-formed duration. *)
Definition parses (entry : string * string) : bool :=
  match snd (time.ParseDuration (snd entry)) with
  | None => true
  | Some _ => false
  end.

(** The snapshot entry with an ill-formed value replaced by the zero
    duration [0], the value a backend is registered with. *)
Definition as_zero (entry : string * string) : string * string :=
  if parses entry then entry else (fst entry, "0"%string).

(** The value of the local variable [tokens] when [Allow] tests
    [tokens < 1]: the stored count, refilled for [elapsed] seconds and
    capped at [burst]. *)
Definition refill (rate : float) (burst : Z) (stored elapsed : float) : float :=
  let tokens := (stored + elapsed * rate)%float in
  if (float64_of_int burst <? tokens)%float then float64_of_int burst else tokens.

Definition refilled (mrl : ratelimiter.MethodRateLimiter) (stored : float)
  (last now : time.Time) : float :=
  refill (ratelimiter.rate mrl) (ratelimiter.burst mrl) stored
    (time.Seconds (time.Sub now last)).

(** [r] is a request of client [nodeId] for the method [m], which the
    limiter [mrl] limits: the identity is present, the body can be read and
    decodes to [m], and [m] is in the allow-list. *)
Definition limited_call `{ratelimiter.Decoder} (mrl : ratelimiter.MethodRateLimiter)
  (nodeId m : string) (r : ratelimiter.Request) : Prop :=
  ratelimiter.URL_Query_Id r = nodeId
  /\ nodeId <> ""%string
  /\ ratelimiter.read_error (ratelimiter.Body r) = None
  /\ snd (ratelimiter.json_Unmarshal (ratelimiter.content (ratelimiter.Body r))) = None
  /\ ratelimiter.Method
       (fst (ratelimiter.json_Unmarshal (ratelimiter.content (ratelimiter.Body r)))) = m
  /\ ratelimiter.methods_index mrl m = true.

(** The answers to [n] calls for one bucket holding [t] tokens, each
    [elapsed] seconds after the refill time stored by the call before it
    (a denied call stores none: with [elapsed] zero, all calls are made at
    the same instant). *)
Fixpoint same_elapsed (rate : float) (burst : Z) (elapsed : float) (t : float)
  (n : nat) : list (bool * option error) :=
  match n with
  | O => []
  | S n =>
      let t1 := refill rate burst t elapsed in
      if (t1 <? 1)%float then (false, None) :: same_elapsed rate burst elapsed t n
      else (true, None) :: same_elapsed rate burst elapsed (t1 - 1)%float n
  end.

(** *** Buckets, latencies and registrations *)

(** The bucket key [Allow] builds for the request [r]. *)
Definition request_key `{ratelimiter.Decoder} (r : ratelimiter.Request) : string :=
  ratelimiter.rateLimitKey (ratelimiter.URL_Query_Id r)
    (ratelimiter.Method
       (fst (ratelimiter.json_Unmarshal (ratelimiter.content (ratelimiter.Body r))))).

(** [r] reaches the bucket arithmetic of the limiter [mrl]: it has a client
    identity and a readable body that decodes to a limited method. *)
Definition limited `{ratelimiter.Decoder} (mrl : ratelimiter.MethodRateLimiter)
  (r : ratelimiter.Request) : Prop :=
  limited_call mrl (ratelimiter.URL_Query_Id r)
    (ratelimiter.Method
       (fst (ratelimiter.json_Unmarshal (ratelimiter.content (ratelimiter.Body r)))))
    r.

(** [r] has a client identity and a readable body that decodes to a method
    outside the allow-list of [mrl]. *)
Definition unlimited_call `{ratelimiter.Decoder} (mrl : ratelimiter.MethodRateLimiter)
  (r : ratelimiter.Request) : Prop :=
  ratelimiter.URL_Query_Id r <> ""%string
  /\ ratelimiter.read_error (ratelimiter.Body r) = None
  /\ snd (ratelimiter.json_Unmarshal (ratelimiter.content (ratelimiter.Body r))) = None
  /\ ratelimiter.methods_index mrl
       (ratelimiter.Method
          (fst (ratelimiter.json_Unmarshal (ratelimiter.content (ratelimiter.Body r)))))
     = false.

(** The latency the scan of [NextBackend] reads off a snapshot entry. *)
Definition latency (entry : string * string) : float :=
  time.Seconds (fst (time.ParseDuration (snd entry))).

(** [entry] is the first entry of least latency in the snapshot
    [before ++ entry :: after]: the entries visited before it are slower,
    those visited after it are not faster. *)
Definition first_least (before : list (string * string)) (entry : string * string)
  (after : list (string * string)) : bool :=
  forallb (fun e => (latency entry <? latency e)%float) before
  && forallb (fun e => negb (latency e <? latency entry)%float) after.

(** The entry of the loop of [main] for a backend whose [url.Parse] succeeds:
    the backend [AddBackend] appends. *)
Definition registered `{url.Parser} (entry : string * option error)
  : option backend.Backend :=
  match snd (url.Parse (fst entry)) with
  | None => Some (backend.NewBackend (fst (url.Parse (fst entry))))
  | Some _ => None
  end.

(** [urlStr] is an endpoint that [url.Parse] accepts and [URL.String]
    prints back as it is. *)
Definition canonical `{url.Parser} (urlStr : string) : Prop :=
  url.Parse urlStr = ({| url.URL_String := urlStr |}, None).

(** [s] has no hyphen, the separator of [rateLimitKey]. *)
Fixpoint no_hyphen (s : string) : bool :=
  match s with
  | EmptyString => true
  | String c s => negb (Ascii.eqb c "-"%char) && no_hyphen s
  end.

(** The call is made with a request whose bucket key is [key]. *)
Definition for_key `{ratelimiter.Decoder} (key : string)
  (call : ratelimiter.Request * time.Time) : bool :=
  String.eqb (request_key (fst call)) key.

(** The limiters [mrl] and [mrl'] have the same configuration and the same
    bucket for [key]. *)
Definition same_bucket (key : string) (mrl mrl' : ratelimiter.MethodRateLimiter)
  : Prop :=
  ratelimiter.rate mrl = ratelimiter.rate mrl'
  /\ ratelimiter.burst mrl = ratelimiter.burst mrl'
  /\ ratelimiter.methods mrl = ratelimiter.methods mrl'
  /\ ratelimiter.tokens mrl !! key = ratelimiter.tokens mrl' !! key
  /\ ratelimiter.last mrl !! key = ratelimiter.last mrl' !! key.

(** *** Binary64 numbers, in the form [Prim2SF] gives them *)

(** The binary64 number one. *)
Definition SF_one : spec_float := S754_finite false 4503599627370496 (-52).

(** [r] is finite and its magnitude is at most that of the canonical float of
    mantissa [mx] and exponent [ex]. *)
Definition magnitude_at_most (r : spec_float) (mx : positive) (ex : Z) : Prop :=
  match r with
  | S754_zero _ => True
  | S754_finite _ m e => e < ex \/ (e = ex /\ Zpos m <= Zpos mx)
  | _ => False
  end.

(** [r] is not negative and at most the canonical float of mantissa [mx] and
    exponent [ex]. *)
Definition at_most (r : spec_float) (mx : positive) (ex : Z) : Prop :=
  match r with
  | S754_zero _ => True
  | S754_finite false m e => e < ex \/ (e = ex /\ Zpos m <= Zpos mx)
  | _ => False
  end.

(** [r] is at least the canonical float of mantissa [mx] and exponent [ex]. *)
Definition at_least (r : spec_float) (mx : positive) (ex : Z) : Prop :=
  match r with
  | S754_infinity false => True
  | S754_finite false m e => ex < e \/ (e = ex /\ Zpos mx <= Zpos m)
  | _ => False
  end.

(** [r] is zero or finite with an exponent of at most [E]. *)
Definition exponent_at_most (r : spec_float) (E : Z) : Prop :=
  match r with
  | S754_zero _ => True
  | S754_finite _ _ e => e <= E
  | _ => False
  end.

(** [r] is zero or finite. *)
Definition finite_SF (r : spec_float) : Prop :=
  match r with
  | S754_zero _ | S754_finite _ _ _ => True
  | _ => False
  end.

(** [r] is zero or a positive finite number. *)
Definition nonneg_finite (r : spec_float) : Prop :=
  match r with
  | S754_zero _ | S754_finite false _ _ => True
  | _ => False
  end.

(** [x] is zero or finite; [x] is not a NaN. *)
Definition finite (x : float) : Prop := finite_SF (Prim2SF x).
Definition number (x : float) : Prop := Prim2SF x <> S754_nan.

(** The number [t] is above the integer [z]: the comparison of the two as
    numbers, without the conversion of [z] to binary64 (which rounds an
    integer of more than 53 bits).  A NaN is above nothing. *)
Definition above_int (t : float) (z : Z) : bool :=
  match Prim2SF t with
  | S754_zero _ => z <? 0
  | S754_infinity s => negb s
  | S754_nan => false
  | S754_finite s m e =>
      if 0 <=? e then z <? cond_Zopp s (Zpos m) * 2 ^ e
      else z * 2 ^ (- e) <? cond_Zopp s (Zpos m)
  end.

(** The stored count [t] does not exceed [burst] and is not negative. *)
Definition within_bounds (burst : Z) (t : float) : Prop :=
  (float64_of_int burst <? t)%float = false /\ (t <? 0)%float = false.

(** The stored count [t] is a number between zero and [burst]. *)
Definition in_range (burst : Z) (t : float) : Prop :=
  (0 <=? t)%float = true /\ (t <=? float64_of_int burst)%float = true.

(** What holds of every stored count: the bounds, and for a finite rate the
    bounds as inequalities that hold. *)
Definition stored_ok (rate : float) (burst : Z) (t : float) : Prop :=
  within_bounds burst t /\ (is_finite rate = true -> in_range burst t).

(** ** Concrete collaborators and inputs used in the examples below *)
Module Example.
Import ratelimiter.

Definition dquote : ascii := ascii_of_nat 34.

(** The opening of a request body: a brace, the quoted key [method], a
    colon and the opening quote of the value. *)
Definition body_open : string :=
  ("{" ++ String dquote "method" ++ String dquote ":" ++ String dquote EmptyString)%string.

(** The JSON object with the single field [method], of value [m]. *)
Definition body_of (m : string) : string :=
  (body_open ++ m ++ String dquote "}")%string.

Fixpoint strip_prefix (p s : string) : option string :=
  match p, s with
  | EmptyString, _ => Some s
  | String c p', String d s' => if Ascii.eqb c d then strip_prefix p' s' else None
  | String _ _, EmptyString => None
  end.

Fixpoint until_quote (s : string) : option (string * string) :=
  match s with
  | EmptyString => None
  | String c s' =>
      if Ascii.eqb c dquote then Some (EmptyString, s')
      else if Ascii.eqb c "\"%char then None
      else
        match until_quote s' with
        | Some (m, rest) => Some (String c m, rest)
        | None => None
        end
  end.

Definition syntax_error : requestBody * option error :=
  ({| Method := EmptyString |}, Some (errors_New "invalid character")).

(** A decoder for the bodies [body_of m] with neither escapes nor control
    characters in [m], on which it returns what [encoding/json] returns; it
    rejects every other body. *)
Definition flat_Unmarshal (body : string) : requestBody * option error :=
  match strip_prefix body_open body with
  | Some rest =>
      match until_quote rest with
      | Some (m, tail) =>
          if String.eqb tail "}" then ({| Method := m |}, None) else syntax_error
      | None => syntax_error
      end
  | None => syntax_error
  end.

#[export] Instance flat_Decoder : Decoder := flat_Unmarshal.

(** A parser for URLs already in the form [URL.String] prints. *)
#[export] Instance plain_Parser : url.Parser := fun urlStr =>
  ({| url.URL_String := urlStr |}, None).

Definition request (nodeId body : string) : Request :=
  {| URL_Query_Id := nodeId; Body := NopCloser body |}.

(** A request of client [node-7] for the limited method [eth_getChainId]. *)
Definition limited_request : Request :=
  request "node-7" (body_of "eth_getChainId").

(** A request without the [Id] query parameter. *)
Definition anonymous_request : Request :=
  request EmptyString (body_of "eth_getChainId").

(** A request whose body is not JSON. *)
Definition garbled_request : Request := request "node-7" "method=eth_getChainId".

Definition noon : time.Time := {| time.ext := 43200000000000 |}.

Definition backend_of (urlStr : string) : backend.Backend :=
  backend.NewBackend {| url.URL_String := urlStr |}.

(** [Duration.String] on durations below one microsecond: [0s] for zero,
    else the count followed by [ns]. *)
#[export] Instance ns_Formatter : time.Formatter := fun d =>
  if d =? 0 then "0s"%string else (pretty d ++ "ns")%string.

(** A proxy whose backends answer every request with status 200, except the
    endpoint [http://down], which answers 502. *)
Definition proxy (u : url.URL) (r : ratelimiter.Request) : list Z :=
  if String.eqb (url.URL_String u) "http://down" then [502] else [200].

Definition to_lower (c : ascii) : ascii :=
  let n := nat_of_ascii c in
  if (65 <=? n)%nat && (n <=? 90)%nat then ascii_of_nat (n + 32) else c.

Fixpoint lower_scheme (s : string) : string :=
  match s with
  | EmptyString => EmptyString
  | String c s' =>
      if Ascii.eqb c ":"%char then s else String (to_lower c) (lower_scheme s')
  end.

(** A parser that prints the scheme of a URL in lower case, as [URL.String]
    does. *)
Definition scheme_Parser : url.Parser := fun urlStr =>
  ({| url.URL_String := lower_scheme urlStr |}, None).

End Example.

(** * Properties *)

(** ** The selector [NextBackend] *)
Section NextBackend_facts.
Import backend balancer.

Lemma lookup_backend_elem (bs : list Backend) (sel : string) (b : Backend) :
  lookup_backend bs sel = Some b ->
  b ∈ bs /\ url.URL_String (URL b) = sel.
Proof.
  induction bs as [|b0 bs IH]; simpl; [discriminate|].
  destruct (String.eqb (url.URL_String (URL b0)) sel) eqn:E.
  - intros [= <-]. apply String.eqb_eq in E. split; [left | exact E].
  - intros Hb. destruct (IH Hb) as [Hin Hsel]. split; [by right | exact Hsel].
Qed.

(** C4: with an empty registry [NextBackend] returns no backend and the
    error "no backends available", whatever the latency store answers. *)
Theorem NextBackend_empty_registry (lb : LoadBalancer)
  (hgetall : list (string * string) * option error) :
  backends lb = [] ->
  NextBackend lb hgetall = (None, Some (errors_New "no backends available")).
Proof. intros Hempty. unfold NextBackend. rewrite Hempty. reflexivity. Qed.

(** C6: a backend returned by [NextBackend] is an element of the registry's
    backend sequence. *)
Theorem NextBackend_in_registry (lb : LoadBalancer)
  (hgetall : list (string * string) * option error) (b : Backend)
  (err : option error) :
  NextBackend lb hgetall = (Some b, err) -> b ∈ backends lb.
Proof.
  unfold NextBackend.
  destruct (length (backends lb) =? 0)%nat; [discriminate|].
  destruct hgetall as [responseTimes [e|]]; [discriminate|].
  destruct (fold_left scan responseTimes (maxResponseTime, ""%string)) as [m sel].
  destruct (String.eqb sel ""); [discriminate|].
  destruct (lookup_backend (backends lb) sel) as [b'|] eqn:Hl; [|discriminate].
  intros [= <- _]. by apply lookup_backend_elem in Hl as [? _].
Qed.

End NextBackend_facts.

(** ** The limiter outside the bucket arithmetic *)
Section Allow_facts.
Import ratelimiter main.
Context `{Decoder}.

Lemma Allow_anonymous (mrl : MethodRateLimiter) (r : Request) (now : time.Time) :
  URL_Query_Id r = ""%string -> Allow mrl r now = (mrl, r, (true, None)).
Proof. intros Hid. unfold Allow. rewrite Hid. reflexivity. Qed.

(** C7: requests without a client identity are all admitted, without error,
    whatever their bodies and however many of them are issued; the limiter
    is left as it was. *)
Theorem Allow_all_anonymous (mrl : MethodRateLimiter)
  (calls : list (Request * time.Time)) :
  Forall (fun call => URL_Query_Id (fst call) = ""%string) calls ->
  Allow_all mrl calls = (mrl, map (fun _ => (true, None)) calls).
Proof.
  induction 1 as [|[r now] calls Hid _ IH]; simpl; [reflexivity|].
  rewrite (Allow_anonymous mrl r now Hid), IH. reflexivity.
Qed.

(** C8: a call that returns [false] leaves the limiter unchanged: the
    stored token counts and refill times are those before the call. *)
Theorem Allow_denied_unchanged (mrl mrl' : MethodRateLimiter) (r r' : Request)
  (now : time.Time) (err : option error) :
  Allow mrl r now = (mrl', r', (false, err)) ->
  mrl' = mrl /\ tokens mrl' = tokens mrl /\ last mrl' = last mrl.
Proof.
  intros HA. assert (mrl' = mrl) as ->; [|done].
  revert HA. unfold Allow.
  repeat match goal with
  | |- context [if ?b then _ else _] => destruct b
  | |- context [match ?x with _ => _ end] => destruct x
  end; intros [= ]; congruence.
Qed.

(** C9: with a client identity present, a body that cannot be read or
    decoded makes [Allow] return an error, and the handler answers it with
    status 500, not with the 429 of a denial. *)
Theorem Allow_malformed_body (ServeHTTP : Request -> Response)
  (mrl : MethodRateLimiter) (r : Request) (now : time.Time) :
  URL_Query_Id r <> ""%string ->
  is_Some (read_error (Body r))
  \/ is_Some (snd (json_Unmarshal (content (Body r)))) ->
  (exists e, snd (Allow mrl r now) = (false, Some e))
  /\ StatusCode (snd (handler ServeHTTP mrl r now)) = StatusInternalServerError
  /\ StatusCode (snd (handler ServeHTTP mrl r now)) <> StatusTooManyRequests.
Proof.
  intros Hid Hbad.
  assert (exists e, snd (Allow mrl r now) = (false, Some e)) as [e He].
  { unfold Allow. apply String.eqb_neq in Hid. rewrite Hid.
    unfold ioutil_ReadAll.
    destruct (read_error (Body r)) as [e|] eqn:Hread; [by exists e|].
    destruct Hbad as [[? [=]]|[e He]].
    destruct (json_Unmarshal (content (Body r))) as [reqBody [e'|]];
      simpl in He; [by exists e' | discriminate]. }
  split; [by exists e|].
  unfold handler. destruct (Allow mrl r now) as [[mrl' r'] [allowed err]].
  simpl in He. injection He as -> ->. simpl. split; [reflexivity | discriminate].
Qed.

End Allow_facts.

(** ** Registration *)
Section AddBackend_facts.
Import backend balancer.
Context `{url.Parser}.

(** C10: the backend is appended to the registry before the store write; if
    that write fails, [AddBackend] returns its error, the registry keeps the
    new backend, and the store is as before the call, so it holds no record
    for the backend unless it already had one. *)
Theorem AddBackend_store_error (lb lb' : LoadBalancer) (h h' : gmap string string)
  (fail : option error) (urlStr : string) (e : error) :
  snd (url.Parse urlStr) = None ->
  AddBackend lb h fail urlStr = (lb', h', Some e) ->
  fail = Some e
  /\ backends lb' = backends lb ++ [NewBackend (fst (url.Parse urlStr))]
  /\ NewBackend (fst (url.Parse urlStr)) ∈ backends lb'
  /\ h' = h
  /\ (h !! urlStr = None -> h' !! urlStr = None).
Proof.
  unfold AddBackend. destruct (url.Parse urlStr) as [u err]. simpl.
  intros ->. destruct fail as [e'|]; simpl; intros [= <- <- <-].
  repeat split; try done. simpl. apply elem_of_app. right. by left.
Qed.

End AddBackend_facts.

(** ** The scan of the latency snapshot *)
Section scan_facts.
Import backend balancer.

Lemma leadingInt_from_length (s : string) (x v : Z) (rest : string) :
  time.leadingInt_from x s = Some (v, rest) ->
  (String.length rest <= String.length s)%nat.
Proof.
  revert x. induction s as [|c s IH]; intros x; cbn [time.leadingInt_from].
  - intros [= _ <-]. done.
  - destruct (negb (time.isDigit c)); [intros [= _ <-]; done|].
    destruct (2 ^ 63 / 10 <? x); [discriminate|].
    destruct (2 ^ 63 <? (x * 10 + time.digitVal c) mod 2 ^ 64); [discriminate|].
    intros Hr. apply IH in Hr. cbn [String.length]. lia.
Qed.

Lemma leadingFraction_from_length (s : string) (x : Z) (scale : float)
  (overflow : bool) :
  (String.length (snd (time.leadingFraction_from x scale overflow s))
   <= String.length s)%nat.
Proof.
  revert x scale overflow.
  induction s as [|c s IH]; intros x scale overflow;
    cbn [time.leadingFraction_from]; [done|].
  repeat match goal with
  | |- context [if ?b then _ else _] => destruct b
  end; cbn [snd String.length];
    first [ done | etrans; [apply IH | apply Nat.le_succ_diag_r] ].
Qed.

Lemma unitSpan_length (s : string) :
  String.length s
  = (String.length (fst (time.unitSpan s)) + String.length (snd (time.unitSpan s)))%nat.
Proof.
  induction s as [|c s IH]; cbn [time.unitSpan]; [done|].
  destruct (time.isDot c || time.isDigit c); [done|].
  destruct (time.unitSpan s) as [u r]. cbn [fst snd String.length] in *. lia.
Qed.

(** A round of the loop consumes at least one character. *)
Lemma parseSegment_shorter (s : string) (v : Z) (rest : string) :
  time.parseSegment s = Some (v, rest) ->
  (String.length rest < String.length s)%nat.
Proof.
  unfold time.parseSegment.
  destruct (negb (time.startsNumber s)); [discriminate|].
  destruct (time.leadingInt s) as [[v0 s1]|] eqn:Hint; [|discriminate].
  apply leadingInt_from_length in Hint.
  assert (exists f scale s2 post,
            match s1 with
            | String c s1' =>
                if time.isDot c then
                  let '(f, scale, s2) := time.leadingFraction s1' in
                  (f, scale, s2, negb (String.length s1' =? String.length s2)%nat)
                else (0, 1%float, s1, false)
            | EmptyString => (0, 1%float, s1, false)
            end = (f, scale, s2, post)
            /\ (String.length s2 <= String.length s1)%nat)
    as (f & scale & s2 & post & -> & Hfrac).
  { destruct s1 as [|c s1']; [by eexists _, _, _, _|].
    destruct (time.isDot c); [|by eexists _, _, _, _].
    pose proof (leadingFraction_from_length s1' 0 1%float false) as Hl.
    unfold time.leadingFraction.
    destruct (time.leadingFraction_from 0 1 false s1') as [[f scale] s2].
    eexists _, _, _, _. split; [reflexivity|]. cbn [snd String.length] in *. lia. }
  destruct (negb _ && negb post); [discriminate|].
  pose proof (unitSpan_length s2) as Hu.
  destruct (time.unitSpan s2) as [u s3]. cbn [fst snd] in Hu.
  destruct u as [|c u]; [discriminate|]. cbn [String.eqb String.length] in *.
  destruct (time.unitMap (String c u)); [|discriminate].
  repeat match goal with
  | |- context [if ?b then _ else _] => destruct b
  end; intros [= _ <-]; lia.
Qed.

(** The fuel of [ParseDuration] is never exhausted: more of it changes
    nothing. *)
Lemma parseSegments_fuel (fuel : nat) (s : string) (d : Z) :
  (String.length s <= fuel)%nat ->
  time.parseSegments fuel d s = time.parseSegments (String.length s) d s.
Proof.
  assert (forall f1 f2 s d, (String.length s <= f1)%nat ->
                            (String.length s <= f2)%nat ->
            time.parseSegments f1 d s = time.parseSegments f2 d s) as Hgen.
  { clear. induction f1 as [|f1 IH]; intros f2 s d H1 H2.
    - destruct s; [by destruct f2 | cbn [String.length] in H1; lia].
    - destruct s as [|c s]; [by destruct f2|].
      destruct f2 as [|f2]; [cbn [String.length] in H2; lia|].
      cbn [time.parseSegments].
      destruct (time.parseSegment (String c s)) as [[v s3]|] eqn:Hseg; [|done].
      apply parseSegment_shorter in Hseg.
      destruct (2 ^ 63 <? (d + v) mod 2 ^ 64); [done|].
      apply IH; lia. }
  intros Hf. by apply Hgen.
Qed.

Lemma ParseDuration_error_zero (s : string) (e : error) :
  snd (time.ParseDuration s) = Some e -> fst (time.ParseDuration s) = 0.
Proof.
  unfold time.ParseDuration.
  repeat match goal with
  | |- context [if ?b then _ else _] => destruct b
  | |- context [match ?x with _ => _ end] => destruct x
  end; simpl; intros [= ]; reflexivity.
Qed.

Lemma scan_eq (m : float) (sel u s : string) (d : time.Duration) (e : option error) :
  time.ParseDuration s = (d, e) ->
  scan (m, sel) (u, s)
  = if (time.Seconds d <? m)%float then (time.Seconds d, u) else (m, sel).
Proof. intros Hp. unfold scan. rewrite Hp. reflexivity. Qed.

End scan_facts.

Section snapshot_facts.
Import backend balancer.

Lemma scan_as_zero (st : float * string) (entry : string * string) :
  scan st (as_zero entry) = scan st entry.
Proof.
  unfold as_zero, parses. destruct entry as [u s]. simpl.
  destruct (snd (time.ParseDuration s)) as [e|] eqn:He; [|reflexivity].
  destruct st as [m sel]. unfold scan.
  pose proof (ParseDuration_error_zero s e He) as Hz.
  destruct (time.ParseDuration s) as [d e']. simpl in Hz. subst d.
  reflexivity.
Qed.

Lemma fold_scan_as_zero (l : list (string * string)) (st : float * string) :
  fold_left scan (map as_zero l) st = fold_left scan l st.
Proof.
  revert st. induction l as [|entry l IH]; intros st; simpl; [reflexivity|].
  rewrite scan_as_zero. apply IH.
Qed.

(** C1 (as the code has it): an entry whose value fails to parse does not
    abort the scan, but neither is it skipped: it takes part with the zero
    duration that [ParseDuration] returns next to the discarded error, so
    the selection is the one made on the snapshot in which every such value
    reads [0]. *)
Theorem NextBackend_unparsed_as_zero (lb : LoadBalancer)
  (responseTimes : list (string * string)) (err : option error) :
  NextBackend lb (responseTimes, err) = NextBackend lb (map as_zero responseTimes, err).
Proof. unfold NextBackend. rewrite fold_scan_as_zero. reflexivity. Qed.

(** C1 fails as stated: the registry holds [http://a] and [http://b], the
    snapshot gives [http://a] 5ms and [http://b] an ill-formed value; the
    ill-formed entry is selected, whereas without it [http://a] would be. *)
Lemma NextBackend_selects_unparsed :
  let lb := {| backends := [Example.backend_of "http://a"; Example.backend_of "http://b"] |} in
  let snapshot := [("http://a", "5ms"); ("http://b", "fast")]%string in
  parses ("http://b", "fast")%string = false
  /\ NextBackend lb (snapshot, None) = (Some (Example.backend_of "http://b"), None)
  /\ NextBackend lb (filter (fun entry => parses entry = true) snapshot, None)
     = (Some (Example.backend_of "http://a"), None).
Proof. vm_compute. auto. Qed.

End snapshot_facts.

Section three_backends.
Import backend balancer.

Lemma Permutation_three {A : Type} (a b c : A) (l : list A) :
  l ≡ₚ [a; b; c] ->
  l = [a; b; c] \/ l = [a; c; b] \/ l = [b; a; c]
  \/ l = [b; c; a] \/ l = [c; a; b] \/ l = [c; b; a].
Proof.
  intros Hp. symmetry in Hp. apply permutations_Permutation in Hp.
  cbn in Hp.
  repeat (apply elem_of_cons in Hp as [->|Hp]); auto 10.
  by apply elem_of_nil in Hp.
Qed.

Lemma lookup_backend_hit (bs : list Backend) (b : Backend) :
  b ∈ bs -> lookup_backend bs (url.URL_String (URL b)) = Some b.
Proof.
  induction 1 as [b bs|b b0 bs _ IH]; simpl.
  - rewrite String.eqb_refl. reflexivity.
  - destruct (String.eqb (url.URL_String (URL b0)) (url.URL_String (URL b))) eqn:E;
      [|exact IH].
    apply String.eqb_eq in E. destruct b0 as [[u0]], b as [[u]]. simpl in E.
    by subst.
Qed.

(** C5: the registry holds three backends, in any order, and the snapshot
    their three entries, which parse to 10ms, 5ms and 20ms; whatever the
    order of the registry and the order in which the snapshot is visited,
    [NextBackend] returns the 5ms backend (whose endpoint string, that of an
    absolute URL, is not empty). *)
Theorem NextBackend_three_backends (b1 b2 b3 : Backend) (s1 s2 s3 : string)
  (lb : LoadBalancer) (responseTimes : list (string * string)) :
  time.ParseDuration s1 = (10 * time.Millisecond, None) ->
  time.ParseDuration s2 = (5 * time.Millisecond, None) ->
  time.ParseDuration s3 = (20 * time.Millisecond, None) ->
  url.URL_String (URL b2) <> ""%string ->
  backends lb ≡ₚ [b1; b2; b3] ->
  responseTimes ≡ₚ [(url.URL_String (URL b1), s1);
                    (url.URL_String (URL b2), s2);
                    (url.URL_String (URL b3), s3)] ->
  NextBackend lb (responseTimes, None) = (Some b2, None).
Proof.
  intros H1 H2 H3 Hne Hreg Hperm.
  assert (fold_left scan responseTimes (maxResponseTime, ""%string)
          = (time.Seconds (5 * time.Millisecond), url.URL_String (URL b2))) as Hsel.
  { apply Permutation_three in Hperm.
    destruct Hperm as [->|[->|[->|[->|[->| ->]]]]]; cbn [fold_left];
      repeat (first [ rewrite (scan_eq _ _ _ _ _ _ H1)
                    | rewrite (scan_eq _ _ _ _ _ _ H2)
                    | rewrite (scan_eq _ _ _ _ _ _ H3) ];
              match goal with
              | |- context [(?a <? ?b)%float] =>
                  let v := eval vm_compute in (a <? b)%float in
                  change (a <? b)%float with v; cbv iota
              end);
      reflexivity. }
  assert (b2 ∈ backends lb) as Hb2.
  { rewrite Hreg. right. left. }
  unfold NextBackend. rewrite (Permutation_length Hreg).
  cbn [length Nat.eqb]. rewrite Hsel.
  apply String.eqb_neq in Hne. rewrite Hne.
  by rewrite (lookup_backend_hit _ _ Hb2).
Qed.

End three_backends.

(** ** Rounding in binary64 *)
Section binary64.

Lemma digits2_pos_bounds (m : positive) :
  2 ^ (Zpos (digits2_pos m) - 1) <= Zpos m < 2 ^ Zpos (digits2_pos m).
Proof.
  induction m as [m IH|m IH|]; cbn [digits2_pos].
  - rewrite Pos2Z.inj_succ.
    replace (Z.succ (Zpos (digits2_pos m)) - 1) with (Z.succ (Zpos (digits2_pos m) - 1)) by lia.
    rewrite !Z.pow_succ_r by lia. lia.
  - rewrite Pos2Z.inj_succ.
    replace (Z.succ (Zpos (digits2_pos m)) - 1) with (Z.succ (Zpos (digits2_pos m) - 1)) by lia.
    rewrite !Z.pow_succ_r by lia. lia.
  - simpl. lia.
Qed.

Lemma Zdigits2_nonneg (m : Z) : 0 <= m -> 0 <= Zdigits2 m.
Proof. destruct m; simpl; lia. Qed.

(** A number below a scaled mantissa has no more digits than it. *)
Lemma Zdigits2_le (m : Z) (mx : positive) (k : Z) :
  0 <= m -> 0 <= k -> m <= Zpos mx * 2 ^ k ->
  Zdigits2 m <= Zpos (digits2_pos mx) + k.
Proof.
  intros Hm Hk Hle. destruct m as [|p|p]; cbn [Zdigits2]; [lia| |lia].
  pose proof (digits2_pos_bounds p) as [Hp _].
  pose proof (digits2_pos_bounds mx) as [_ Hx].
  assert (2 ^ (Zpos (digits2_pos p) - 1) < 2 ^ (Zpos (digits2_pos mx) + k)) as Hlt.
  { rewrite Z.pow_add_r by lia.
    assert (0 < 2 ^ k) as Hk2 by (apply Z.pow_pos_nonneg; lia).
    assert (Zpos mx * 2 ^ k < 2 ^ Zpos (digits2_pos mx) * 2 ^ k) as Hm2
      by (apply Z.mul_lt_mono_pos_r; lia).
    lia. }
  apply Z.pow_lt_mono_r_iff in Hlt; lia.
Qed.

Lemma fexp_mono (a b : Z) : a <= b -> fexp prec emax a <= fexp prec emax b.
Proof. unfold fexp. lia. Qed.

Lemma shr_1_m (mrs : shr_record) :
  0 <= shr_m mrs -> shr_m (shr_1 mrs) = shr_m mrs / 2.
Proof.
  destruct mrs as [m r s]. cbn [shr_m]. intros Hm.
  destruct m as [|[p|p|]|p]; cbn [shr_1 shr_m]; try lia.
  - reflexivity.
  - apply Z.div_unique with (r := 1); lia.
  - apply Z.div_unique with (r := 0); lia.
  - reflexivity.
Qed.

Lemma pow2_xO (p : positive) : 2 ^ Zpos p~0 = 2 ^ Zpos p * 2 ^ Zpos p.
Proof. rewrite Pos2Z.inj_xO, <- Z.pow_add_r by lia. f_equal. lia. Qed.

Lemma pow2_xI (p : positive) : 2 ^ Zpos p~1 = 2 * (2 ^ Zpos p * 2 ^ Zpos p).
Proof.
  rewrite Pos2Z.inj_xI, <- Z.pow_add_r by lia.
  replace (2 * Zpos p + 1) with (Z.succ (Zpos p + Zpos p)) by lia.
  rewrite Z.pow_succ_r by lia. reflexivity.
Qed.

Lemma iter_shr_1_m (p : positive) (mrs : shr_record) :
  0 <= shr_m mrs -> shr_m (SpecFloat.iter_pos shr_1 p mrs) = shr_m mrs / 2 ^ Zpos p.
Proof.
  revert mrs. induction p as [p IH|p IH|]; intros mrs Hm; cbn [SpecFloat.iter_pos].
  - assert (0 < 2 ^ Zpos p) by (apply Z.pow_pos_nonneg; lia).
    assert (0 <= shr_m (shr_1 mrs)) as H1.
    { rewrite shr_1_m by exact Hm. apply Z.div_pos; lia. }
    assert (0 <= shr_m (SpecFloat.iter_pos shr_1 p (shr_1 mrs))) as H2.
    { rewrite IH by exact H1. apply Z.div_pos; lia. }
    rewrite IH by exact H2. rewrite IH by exact H1. rewrite shr_1_m by exact Hm.
    rewrite !Z.div_div by lia. rewrite pow2_xI. reflexivity.
  - assert (0 < 2 ^ Zpos p) by (apply Z.pow_pos_nonneg; lia).
    assert (0 <= shr_m (SpecFloat.iter_pos shr_1 p mrs)) as H2.
    { rewrite IH by exact Hm. apply Z.div_pos; lia. }
    rewrite IH by exact H2. rewrite IH by exact Hm.
    rewrite !Z.div_div by lia. rewrite pow2_xO. reflexivity.
  - rewrite shr_1_m by exact Hm. reflexivity.
Qed.

Lemma shr_spec (mrs : shr_record) (e n : Z) :
  0 <= shr_m mrs ->
  shr_m (fst (shr mrs e n)) = shr_m mrs / 2 ^ Z.max 0 n
  /\ snd (shr mrs e n) = e + Z.max 0 n.
Proof.
  intros Hm. destruct n as [|p|p]; simpl.
  - rewrite Z.div_1_r. split; lia.
  - rewrite iter_shr_1_m by exact Hm. split; reflexivity.
  - rewrite Z.div_1_r. split; lia.
Qed.

Lemma shr_record_of_loc_m (m : Z) (l : location) : shr_m (shr_record_of_loc m l) = m.
Proof. destruct l as [|[]]; reflexivity. Qed.

Lemma shr_fexp_spec (m e : Z) (l : location) :
  0 <= m ->
  let n := Z.max 0 (fexp prec emax (Zdigits2 m + e) - e) in
  shr_m (fst (shr_fexp prec emax m e l)) = m / 2 ^ n
  /\ snd (shr_fexp prec emax m e l) = e + n.
Proof.
  intros Hm. unfold shr_fexp.
  pose proof (shr_spec (shr_record_of_loc m l) e (fexp prec emax (Zdigits2 m + e) - e)) as Hs.
  rewrite shr_record_of_loc_m in Hs. apply Hs. exact Hm.
Qed.

Lemma round_nearest_even_bounds (m : Z) (l : location) :
  m <= round_nearest_even m l <= m + 1.
Proof. destruct l as [|[]]; simpl; try lia. destruct (Z.even m); lia. Qed.


Lemma pow2_pos (k : Z) : 0 <= k -> 0 < 2 ^ k.
Proof. intros. apply Z.pow_pos_nonneg; lia. Qed.

Lemma pow2_split (a b : Z) : 0 <= a -> 0 <= b -> 2 ^ (a + b) = 2 ^ a * 2 ^ b.
Proof. intros. apply Z.pow_add_r; lia. Qed.

Lemma bounded_spec (m : positive) (e : Z) :
  bounded prec emax m e = true ->
  fexp prec emax (Zpos (digits2_pos m) + e) = e /\ e <= emax - prec.
Proof.
  unfold bounded, canonical_mantissa. intros Hb.
  apply andb_prop in Hb as [Hc He].
  apply Z.eqb_eq in Hc. apply Z.leb_le in He. split; assumption.
Qed.

(** Rounding a value below a representable number does not pass it. *)
Lemma binary_round_aux_magnitude (sx : bool) (mx ex : Z) (lx : location)
  (mxx : positive) (exx : Z) :
  0 <= mx -> bounded prec emax mxx exx = true ->
  ex <= exx -> mx < Zpos mxx * 2 ^ (exx - ex) ->
  magnitude_at_most (binary_round_aux prec emax sx mx ex lx) mxx exx.
Proof.
  intros Hmx Hb Hex Hlt. apply bounded_spec in Hb as [Hcan Hmax].
  unfold binary_round_aux.
  pose proof (shr_fexp_spec mx ex lx Hmx) as [Hm1 He1].
  destruct (shr_fexp prec emax mx ex lx) as [mrs1 e1]. cbn [fst snd] in Hm1, He1.
  set (n1 := Z.max 0 (fexp prec emax (Zdigits2 mx + ex) - ex)) in *.
  assert (e1 <= exx) as He1x.
  { pose proof (Zdigits2_le mx mxx (exx - ex)) as Hd.
    pose proof (fexp_mono (Zdigits2 mx + ex) (Zpos (digits2_pos mxx) + exx)). lia. }
  assert (0 <= n1) as Hn1 by lia.
  assert (shr_m mrs1 < Zpos mxx * 2 ^ (exx - e1)) as Hm1x.
  { rewrite Hm1. apply Z.div_lt_upper_bound; [by apply pow2_pos|].
    replace (exx - ex) with (n1 + (exx - e1)) in Hlt by lia.
    rewrite pow2_split in Hlt by lia. lia. }
  assert (0 <= shr_m mrs1) as Hm1p.
  { rewrite Hm1. apply Z.div_pos; [lia | by apply pow2_pos]. }
  pose proof (round_nearest_even_bounds (shr_m mrs1) (loc_of_shr_record mrs1)) as Hr.
  set (m1 := round_nearest_even (shr_m mrs1) (loc_of_shr_record mrs1)) in *.
  assert (0 <= m1) as Hm1' by lia.
  pose proof (shr_fexp_spec m1 e1 loc_Exact Hm1') as [Hm2 He2].
  destruct (shr_fexp prec emax m1 e1 loc_Exact) as [mrs2 e2]. cbn [fst snd] in Hm2, He2.
  set (n2 := Z.max 0 (fexp prec emax (Zdigits2 m1 + e1) - e1)) in *.
  assert (e2 <= exx) as He2x.
  { pose proof (Zdigits2_le m1 mxx (exx - e1)) as Hd.
    pose proof (fexp_mono (Zdigits2 m1 + e1) (Zpos (digits2_pos mxx) + exx)). lia. }
  assert (0 <= shr_m mrs2) as Hm2p.
  { rewrite Hm2. apply Z.div_pos; [lia | apply pow2_pos; lia]. }
  destruct (shr_m mrs2) as [|m2|m2] eqn:Em2; [exact I| |lia].
  replace (e2 <=? emax - prec) with true by (symmetry; apply Z.leb_le; lia).
  cbn [magnitude_at_most]. destruct (Z.eq_dec e2 exx) as [Heq|Hne]; [right|left; lia].
  split; [exact Heq|]. rewrite Hm2.
  apply Z.div_le_upper_bound; [apply pow2_pos; lia|].
  replace (exx - e1) with n2 in Hm1x by lia. lia.
Qed.

(** Rounding keeps the sign. *)
Lemma binary_round_aux_sign (sx : bool) (mx ex : Z) (lx : location) :
  match binary_round_aux prec emax sx mx ex lx with
  | S754_finite s _ _ => s = sx
  | _ => True
  end.
Proof.
  unfold binary_round_aux.
  destruct (shr_fexp prec emax mx ex lx) as [mrs1 e1].
  destruct (shr_fexp prec emax _ e1 loc_Exact) as [mrs2 e2].
  destruct (shr_m mrs2); [exact I| |exact I].
  by destruct (e2 <=? emax - prec).
Qed.

Lemma binary_round_aux_upper (mx ex : Z) (lx : location) (mxx : positive) (exx : Z) :
  0 <= mx -> bounded prec emax mxx exx = true ->
  ex <= exx -> mx < Zpos mxx * 2 ^ (exx - ex) ->
  at_most (binary_round_aux prec emax false mx ex lx) mxx exx.
Proof.
  intros Hmx Hb Hex Hlt.
  pose proof (binary_round_aux_magnitude false mx ex lx mxx exx Hmx Hb Hex Hlt) as Hm.
  pose proof (binary_round_aux_sign false mx ex lx) as Hs.
  destruct (binary_round_aux prec emax false mx ex lx) as [s|s| |s m e];
    try contradiction; [exact I|]. subst s. exact Hm.
Qed.

(** A shift to the canonical exponent does not lose a positive mantissa. *)
Lemma shift_positive (m e : Z) :
  0 < m -> emin <= e ->
  0 < m / 2 ^ Z.max 0 (fexp prec emax (Zdigits2 m + e) - e).
Proof.
  intros Hm He. destruct m as [|p|p]; try lia. cbn [Zdigits2].
  pose proof (digits2_pos_bounds p) as [Hp _].
  set (d := Zpos (digits2_pos p)) in *.
  destruct (Z_le_gt_dec (fexp prec emax (d + e) - e) 0) as [Hn|Hn].
  - rewrite Z.max_l by lia. rewrite Z.div_1_r. lia.
  - rewrite Z.max_r by lia.
    assert (fexp prec emax (d + e) - e = d - prec) as -> by (unfold fexp in *; lia).
    assert (0 < d - prec) by (unfold fexp in *; lia).
    assert (2 ^ 52 <= Zpos p / 2 ^ (d - prec)).
    { apply Z.div_le_lower_bound; [apply pow2_pos; lia|].
      unfold prec in *. rewrite <- pow2_split by lia.
      replace (d - 53 + 52) with (d - 1) by lia. exact Hp. }
    lia.
Qed.

(** Rounding a value above a representable number does not fall below it. *)
Lemma binary_round_aux_lower (mx ex : Z) (lx : location) (mxx : positive) (exx : Z) :
  emin <= exx -> exx <= ex -> Zpos mxx <= mx * 2 ^ (ex - exx) ->
  at_least (binary_round_aux prec emax false mx ex lx) mxx exx.
Proof.
  intros Hemin Hex Hle.
  assert (0 < mx) as Hmx.
  { assert (0 < 2 ^ (ex - exx)) by (apply pow2_pos; lia). nia. }
  unfold binary_round_aux.
  pose proof (shr_fexp_spec mx ex lx ltac:(lia)) as [Hm1 He1].
  pose proof (shift_positive mx ex Hmx ltac:(lia)) as Hp1.
  destruct (shr_fexp prec emax mx ex lx) as [mrs1 e1]. cbn [fst snd] in Hm1, He1.
  set (n1 := Z.max 0 (fexp prec emax (Zdigits2 mx + ex) - ex)) in *.
  rewrite <- Hm1 in Hp1.
  pose proof (round_nearest_even_bounds (shr_m mrs1) (loc_of_shr_record mrs1)) as Hr.
  set (m1 := round_nearest_even (shr_m mrs1) (loc_of_shr_record mrs1)) in *.
  pose proof (shr_fexp_spec m1 e1 loc_Exact ltac:(lia)) as [Hm2 He2].
  pose proof (shift_positive m1 e1 ltac:(lia) ltac:(lia)) as Hp2.
  destruct (shr_fexp prec emax m1 e1 loc_Exact) as [mrs2 e2]. cbn [fst snd] in Hm2, He2.
  set (n2 := Z.max 0 (fexp prec emax (Zdigits2 m1 + e1) - e1)) in *.
  rewrite <- Hm2 in Hp2.
  destruct (shr_m mrs2) as [|m2|m2] eqn:Em2; try lia.
  destruct (e2 <=? emax - prec); [|exact I].
  cbn [at_least]. destruct (Z.eq_dec e2 exx) as [Heq|Hne]; [right|left; lia].
  split; [exact Heq|].
  assert (n1 = 0 /\ n2 = 0 /\ ex = exx) as (Hn1 & Hn2 & ->) by lia.
  rewrite Hn2, Z.div_1_r in Hm2. rewrite Hn1, Z.div_1_r in Hm1.
  rewrite Z.sub_diag in Hle. lia.
Qed.

Lemma iter_xO (d m : positive) : Zpos (Pos.iter xO m d) = Zpos m * 2 ^ Zpos d.
Proof.
  induction d as [|d IH] using Pos.peano_ind.
  - simpl. lia.
  - rewrite Pos.iter_succ, Pos2Z.inj_xO, IH, Pos2Z.inj_succ, Z.pow_succ_r by lia. lia.
Qed.

Lemma shl_align_spec (mx : positive) (ex ex' : Z) :
  snd (shl_align mx ex ex') = Z.min ex ex'
  /\ Zpos (fst (shl_align mx ex ex')) = Zpos mx * 2 ^ (ex - Z.min ex ex').
Proof.
  unfold shl_align. destruct (ex' - ex) as [|d|d] eqn:Ed; cbn [fst snd].
  - rewrite Z.min_l by lia. rewrite Z.sub_diag. split; lia.
  - rewrite Z.min_l by lia. rewrite Z.sub_diag. split; lia.
  - rewrite Z.min_r by lia. split; [reflexivity|].
    rewrite iter_xO. f_equal. f_equal. lia.
Qed.


Lemma compare_cont_Eq (a b : positive) :
  Pos.compare_cont Eq a b = Z.compare (Zpos a) (Zpos b).
Proof. reflexivity. Qed.

Lemma SFltb_irrefl (x : spec_float) : SFltb x x = false.
Proof.
  destruct x as [s|s| |s m e]; try (destruct s; reflexivity); try reflexivity.
  unfold SFltb, SFcompare. rewrite Z.compare_refl, Pos.compare_cont_refl.
  destruct s; reflexivity.
Qed.

Lemma SFltb_nan_r (x : spec_float) : SFltb x S754_nan = false.
Proof. destruct x; reflexivity. Qed.

Lemma not_below_one (mx : positive) (ex : Z) :
  SFltb (S754_finite false mx ex) SF_one = false ->
  -52 < ex \/ (ex = -52 /\ 2 ^ 52 <= Zpos mx).
Proof.
  unfold SFltb, SF_one, SFcompare.
  destruct (Z.compare_spec ex (-52)) as [->|Hlt|Hgt]; [|discriminate|lia].
  rewrite compare_cont_Eq. change (2 ^ 52) with 4503599627370496.
  destruct (Z.compare_spec (Zpos mx) 4503599627370496) as [Heq|Hlt|Hgt];
    [|discriminate|]; intros _; right; (split; [reflexivity|]); lia.
Qed.

Lemma at_least_one (r : spec_float) :
  at_least r 4503599627370496 (-52) -> SFltb r SF_one = false.
Proof.
  destruct r as [s|[]| |[] m e]; try contradiction; try reflexivity.
  cbn [at_least]. unfold SFltb, SF_one, SFcompare. intros [Hlt|[-> Hle]].
  - destruct (Z.compare_spec e (-52)); try reflexivity; lia.
  - rewrite Z.compare_refl.
    rewrite compare_cont_Eq.
    destruct (Z.compare_spec (Zpos m) 4503599627370496); try reflexivity; lia.
Qed.

(** Below something that is at most [x] is below [x]. *)
Lemma at_most_trans (l r : spec_float) (mx : positive) (ex : Z) :
  at_most r mx ex -> SFltb l r = true -> SFltb l (S754_finite false mx ex) = true.
Proof.
  destruct r as [s| | |[] m e]; try contradiction; cbn [at_most]; intros Hr.
  - destruct l as [sl|[]| |[] ml el]; try discriminate; reflexivity.
  - destruct l as [sl|[]| |[] ml el]; try discriminate; try reflexivity.
    unfold SFltb, SFcompare.
    rewrite !compare_cont_Eq.
    destruct (Z.compare_spec el e) as [->|Hlt|Hgt]; try discriminate.
    + destruct (Z.compare_spec (Zpos ml) (Zpos m)) as [Heq|Hlt|Hgt]; try discriminate.
      intros _.
      destruct (Z.compare_spec e ex) as [->|Hlt'|Hgt']; try reflexivity; [|lia].
      destruct (Z.compare_spec (Zpos ml) (Zpos mx)); try reflexivity; lia.
    + intros _. destruct (Z.compare_spec el ex); try reflexivity; lia.
Qed.

Lemma at_most_nonneg (r : spec_float) (mx : positive) (ex : Z) :
  at_most r mx ex -> SFltb r (S754_zero false) = false.
Proof. destruct r as [s| | |[] m e]; try contradiction; reflexivity. Qed.

(** One less than a number not below one: the difference, rounded, is at
    most that number (and not negative). *)
Lemma SFsub_one_at_most (mx : positive) (ex : Z) :
  bounded prec emax mx ex = true ->
  SFltb (S754_finite false mx ex) SF_one = false ->
  at_most (SF64sub (S754_finite false mx ex) SF_one) mx ex.
Proof.
  intros Hb Hge. apply not_below_one in Hge.
  pose proof (bounded_spec mx ex Hb) as [Hcan _].
  assert (-52 <= ex) as Hex by lia.
  assert (2 ^ 52 <= Zpos mx * 2 ^ (ex + 52)) as Hbig.
  { destruct Hge as [Hgt|[-> Hm]]; [|change (2 ^ (-52 + 52)) with 1; lia].
    pose proof (digits2_pos_bounds mx) as [Hd _].
    assert (Zpos (digits2_pos mx) = 53) as Hd53.
    { unfold fexp, SpecFloat.emin, prec, emax in Hcan. lia. }
    rewrite Hd53 in Hd. change (53 - 1) with 52 in Hd.
    assert (1 <= 2 ^ (ex + 52)) by (pose proof (pow2_pos (ex + 52)); lia). nia. }
  unfold SF64sub, SFsub, SF_one. cbn [cond_Zopp].
  rewrite Z.min_r by lia.
  pose proof (shl_align_spec mx ex (-52)) as [_ Hx].
  pose proof (shl_align_spec 4503599627370496 (-52) (-52)) as [_ Ho].
  rewrite Z.min_r in Hx by lia. change (2 ^ (-52 - Z.min (-52) (-52))) with 1 in Ho.
  rewrite Hx, Ho. replace (ex - -52) with (ex + 52) by lia.
  change (Zpos 4503599627370496 * 1) with (2 ^ 52).
  set (a := Zpos mx * 2 ^ (ex + 52)) in *.
  destruct (a - 2 ^ 52) as [|q|q] eqn:Eq; [exact I| |lia].
  cbn [binary_normalize]. unfold binary_round.
  pose proof (shl_align_spec q (-52) (fexp prec emax (Zpos (digits2_pos q) + -52)))
    as [He Hm].
  destruct (shl_align q (-52) (fexp prec emax (Zpos (digits2_pos q) + -52)))
    as [mz ez]. cbn [fst snd] in He, Hm.
  apply binary_round_aux_upper; [lia | exact Hb | lia |].
  rewrite Hm, <- He.
  replace (ex - ez) with ((ex + 52) + (-52 - ez)) by lia.
  rewrite pow2_split by lia. fold a. rewrite Z.mul_assoc.
  apply Z.mul_lt_mono_pos_r; [apply pow2_pos; lia | lia].
Qed.

(** The conversion of an integer that is at least one is at least one. *)
Lemma binary_normalize_at_least_one (z : Z) :
  1 <= z -> SFltb (binary_normalize prec emax z 0 false) SF_one = false.
Proof.
  intros Hz. destruct z as [|p|p]; try lia. cbn [binary_normalize].
  apply at_least_one. unfold binary_round.
  pose proof (shl_align_spec p 0 (fexp prec emax (Zpos (digits2_pos p) + 0)))
    as [He Hm].
  destruct (shl_align p 0 (fexp prec emax (Zpos (digits2_pos p) + 0))) as [mz ez].
  cbn [fst snd] in He, Hm.
  assert (-52 <= ez) as Hez.
  { pose proof (Pos2Z.is_pos (digits2_pos p)).
    unfold fexp, SpecFloat.emin, prec, emax in He. lia. }
  apply binary_round_aux_lower.
  - unfold SpecFloat.emin, prec, emax. lia.
  - exact Hez.
  - rewrite Hm, <- He. rewrite <- Z.mul_assoc, <- pow2_split by lia.
    replace (0 - ez + (ez - -52)) with 52 by lia.
    change (2 ^ 52) with 4503599627370496. lia.
Qed.

(** *** Finite results *)

Lemma exponent_at_most_finite (r : spec_float) (E : Z) :
  exponent_at_most r E -> finite_SF r.
Proof. by destruct r. Qed.

Lemma exponent_at_most_le (r : spec_float) (E E' : Z) :
  E <= E' -> exponent_at_most r E -> exponent_at_most r E'.
Proof. destruct r; cbn; try done. lia. Qed.

Lemma bounded_power (E : Z) :
  emin <= E <= emax - prec -> bounded prec emax 4503599627370496 E = true.
Proof.
  intros HE. unfold bounded, canonical_mantissa.
  change (digits2_pos 4503599627370496) with 53%positive.
  apply andb_true_intro. split; [apply Z.eqb_eq | apply Z.leb_le; lia].
  unfold fexp, prec in *. lia.
Qed.

Lemma mantissa_bound (m : positive) (e : Z) :
  bounded prec emax m e = true -> Zpos m < 2 ^ 53.
Proof.
  intros Hb. apply bounded_spec in Hb as [Hcan _].
  pose proof (digits2_pos_bounds m) as [_ Hm].
  assert (Zpos (digits2_pos m) <= 53) as Hd by (unfold fexp, prec in Hcan; lia).
  eapply Z.lt_le_trans; [exact Hm|]. apply Z.pow_le_mono_r; lia.
Qed.

Lemma binary_round_aux_exponent (sx : bool) (mx ex : Z) (lx : location) (E : Z) :
  emin <= E <= emax - prec -> 0 <= mx -> ex <= E ->
  mx < 2 ^ 52 * 2 ^ (E - ex) ->
  exponent_at_most (binary_round_aux prec emax sx mx ex lx) E.
Proof.
  intros HE Hmx Hex Hlt.
  pose proof (binary_round_aux_magnitude sx mx ex lx 4503599627370496 E Hmx
                (bounded_power E HE) Hex Hlt) as Hm.
  destruct (binary_round_aux prec emax sx mx ex lx); try done.
  cbn in *. lia.
Qed.

Lemma binary_round_exponent (sx : bool) (p : positive) (e E : Z) :
  emin <= E <= emax - prec -> e <= E -> Zpos p < 2 ^ 52 * 2 ^ (E - e) ->
  exponent_at_most (binary_round prec emax sx p e) E.
Proof.
  intros HE He Hlt. unfold binary_round.
  pose proof (shl_align_spec p e (fexp prec emax (Zpos (digits2_pos p) + e)))
    as [Hez Hmz].
  destruct (shl_align p e (fexp prec emax (Zpos (digits2_pos p) + e))) as [mz ez].
  cbn [fst snd] in Hez, Hmz.
  apply binary_round_aux_exponent; [exact HE | lia | lia |].
  rewrite Hmz, <- Hez.
  replace (E - ez) with ((E - e) + (e - ez)) by lia.
  rewrite pow2_split by lia. rewrite Z.mul_assoc.
  apply Z.mul_lt_mono_pos_r; [apply pow2_pos; lia | exact Hlt].
Qed.

Lemma binary_normalize_exponent (m e E : Z) (szero : bool) :
  emin <= E <= emax - prec -> e <= E -> Z.abs m < 2 ^ 52 * 2 ^ (E - e) ->
  exponent_at_most (binary_normalize prec emax m e szero) E.
Proof.
  intros HE He Hlt. destruct m as [|p|p]; cbn [binary_normalize]; [exact I| |];
    apply binary_round_exponent; try done; lia.
Qed.

Lemma SFopp_exponent (r : spec_float) (E : Z) :
  exponent_at_most r E -> exponent_at_most (SFopp r) E.
Proof. by destruct r. Qed.

(** Every conversion from an integer is finite. *)
Lemma of_uint63_exponent (n : PrimInt63.int) :
  exponent_at_most (Prim2SF (of_uint63 n)) 11.
Proof.
  rewrite of_uint63_spec. pose proof (Uint63.to_Z_bounded n) as Hn.
  change Uint63.wB with (2 ^ 63) in Hn.
  apply binary_normalize_exponent.
  - unfold SpecFloat.emin, emax, prec. lia.
  - lia.
  - change (2 ^ 52 * 2 ^ (11 - 0)) with (2 ^ 63). lia.
Qed.

Lemma float64_of_int_exponent (z : Z) :
  exponent_at_most (Prim2SF (float64_of_int z)) 11.
Proof.
  unfold float64_of_int. destruct (z =? - 2 ^ 63).
  - vm_compute. discriminate.
  - destruct (z <? 0).
    + rewrite opp_spec. apply SFopp_exponent, of_uint63_exponent.
    + apply of_uint63_exponent.
Qed.


Lemma SF64div_exponent (x : spec_float) (sy : bool) (my : positive) (ey E : Z) :
  valid_binary x = true -> exponent_at_most x E ->
  2 ^ 52 <= Zpos my -> emin <= E - ey <= emax - prec ->
  exponent_at_most (SF64div x (S754_finite sy my ey)) (E - ey).
Proof.
  intros Hv Hx Hmy HE. destruct x as [s|s| |sx mx ex]; try done.
  cbn [exponent_at_most valid_binary] in Hx, Hv.
  pose proof (mantissa_bound mx ex Hv) as Hmx.
  unfold SF64div, SFdiv, SFdiv_core_binary.
  set (e' := Z.min (fexp prec emax (Zdigits2 (Zpos mx) + ex - (Zdigits2 (Zpos my) + ey)))
               (ex - ey)).
  set (s := ex - ey - e').
  assert (0 <= s) as Hs by lia.
  set (m' := match s with
             | Z0 => Zpos mx
             | Zpos _ => Z.shiftl (Zpos mx) s
             | Zneg _ => 0
             end).
  assert (m' = Zpos mx * 2 ^ s) as Hm'.
  { subst m'. destruct s as [|p|p] eqn:Es; [lia| |lia].
    apply Z.shiftl_mul_pow2. lia. }
  destruct (Z.div_eucl m' (Zpos my)) as [q r] eqn:Ediv.
  assert (q = m' / Zpos my) as Hq by (unfold Z.div; by rewrite Ediv).
  assert (0 < 2 ^ s) as Hps by (apply pow2_pos; lia).
  apply binary_round_aux_exponent; [exact HE | | lia |].
  - rewrite Hq. apply Z.div_pos; lia.
  - pose proof (Z.mul_div_le m' (Zpos my) ltac:(lia)) as Hle. rewrite <- Hq in Hle.
    assert (0 <= q) as Hq0 by (rewrite Hq; apply Z.div_pos; lia).
    assert (q * 2 ^ 52 < 2 ^ 53 * 2 ^ s) as Hlt by nia.
    assert (q < 2 ^ (s + 1)) as Hq1.
    { rewrite pow2_split by lia. change (2 ^ 53) with (2 * 2 ^ 52) in Hlt.
      change (2 ^ 1) with 2. lia. }
    eapply Z.lt_le_trans; [exact Hq1|].
    rewrite <- pow2_split by lia. apply Z.pow_le_mono_r; lia.
Qed.

Lemma SF64add_exponent (x y : spec_float) (E : Z) :
  valid_binary x = true -> valid_binary y = true ->
  exponent_at_most x E -> exponent_at_most y E ->
  emin <= E + 2 <= emax - prec ->
  exponent_at_most (SF64add x y) (E + 2).
Proof.
  intros Hvx Hvy Hx Hy HE.
  destruct x as [sx|sx| |sx mx ex]; try done;
    destruct y as [sy|sy| |sy my ey]; try done;
    cbn [exponent_at_most valid_binary] in *.
  - unfold SF64add, SFadd. by destruct sx, sy.
  - unfold SF64add, SFadd. cbn [exponent_at_most]. lia.
  - unfold SF64add, SFadd. cbn [exponent_at_most]. lia.
  - pose proof (mantissa_bound mx ex Hvx) as Hmx.
    pose proof (mantissa_bound my ey Hvy) as Hmy.
    unfold SF64add, SFadd.
    pose proof (shl_align_spec mx ex (Z.min ex ey)) as [_ Ha].
    pose proof (shl_align_spec my ey (Z.min ex ey)) as [_ Hb].
    rewrite (Z.min_r ex (Z.min ex ey)) in Ha by lia.
    rewrite (Z.min_r ey (Z.min ex ey)) in Hb by lia.
    set (ez := Z.min ex ey) in *.
    set (a := Zpos (fst (shl_align mx ex ez))) in *.
    set (b := Zpos (fst (shl_align my ey ez))) in *.
    assert (0 < 2 ^ (E - ez)) as HpE by (apply pow2_pos; lia).
    assert (a < 2 ^ 53 * 2 ^ (E - ez)) as Hab.
    { rewrite Ha. replace (E - ez) with ((E - ex) + (ex - ez)) by lia.
      rewrite pow2_split by lia.
      assert (0 < 2 ^ (ex - ez)) by (apply pow2_pos; lia).
      assert (1 <= 2 ^ (E - ex)) by (pose proof (pow2_pos (E - ex)); lia). nia. }
    assert (b < 2 ^ 53 * 2 ^ (E - ez)) as Hbb.
    { rewrite Hb. replace (E - ez) with ((E - ey) + (ey - ez)) by lia.
      rewrite pow2_split by lia.
      assert (0 < 2 ^ (ey - ez)) by (apply pow2_pos; lia).
      assert (1 <= 2 ^ (E - ey)) by (pose proof (pow2_pos (E - ey)); lia). nia. }
    apply binary_normalize_exponent; [exact HE | lia |].
    replace (E + 2 - ez) with (2 + (E - ez)) by lia.
    rewrite pow2_split by lia. change (2 ^ 2) with 4.
    change (2 ^ 53) with (2 * 2 ^ 52) in Hab, Hbb.
    assert (0 < a) by (subst a; lia). assert (0 < b) by (subst b; lia).
    destruct sx, sy; cbn [cond_Zopp]; lia.
Qed.

Lemma binary_round_aux_number (sx : bool) (mx ex : Z) (lx : location) :
  0 <= mx -> binary_round_aux prec emax sx mx ex lx <> S754_nan.
Proof.
  intros Hmx. unfold binary_round_aux.
  pose proof (shr_fexp_spec mx ex lx Hmx) as [Hm1 _].
  destruct (shr_fexp prec emax mx ex lx) as [mrs1 e1]. cbn [fst snd] in Hm1.
  assert (0 <= shr_m mrs1) as Hm1p.
  { rewrite Hm1. apply Z.div_pos; [lia | apply pow2_pos; lia]. }
  pose proof (round_nearest_even_bounds (shr_m mrs1) (loc_of_shr_record mrs1)) as Hr.
  set (m1 := round_nearest_even (shr_m mrs1) (loc_of_shr_record mrs1)) in *.
  pose proof (shr_fexp_spec m1 e1 loc_Exact ltac:(lia)) as [Hm2 _].
  destruct (shr_fexp prec emax m1 e1 loc_Exact) as [mrs2 e2]. cbn [fst snd] in Hm2.
  assert (0 <= shr_m mrs2) as Hm2p.
  { rewrite Hm2. apply Z.div_pos; [lia | apply pow2_pos; lia]. }
  destruct (shr_m mrs2); [done| |lia]. by destruct (e2 <=? emax - prec).
Qed.

Lemma binary_normalize_number (m e : Z) (szero : bool) :
  binary_normalize prec emax m e szero <> S754_nan.
Proof.
  destruct m as [|p|p]; cbn [binary_normalize]; [done| |]; unfold binary_round;
    destruct (shl_align p e _) as [mz ez]; by apply binary_round_aux_number.
Qed.

Lemma SF64mul_number (x y : spec_float) :
  finite_SF x -> finite_SF y -> SF64mul x y <> S754_nan.
Proof.
  destruct x as [sx|sx| |sx mx ex]; try done;
    destruct y as [sy|sy| |sy my ey]; try done; intros _ _.
  unfold SF64mul, SFmul. by apply binary_round_aux_number.
Qed.

Lemma SF64add_number (x y : spec_float) :
  finite_SF x -> y <> S754_nan -> SF64add x y <> S754_nan.
Proof.
  destruct x as [sx|sx| |sx mx ex]; try done;
    destruct y as [sy|sy| |sy my ey]; try done; intros _ _;
    unfold SF64add, SFadd; try done.
  - by destruct sx, sy.
  - apply binary_normalize_number.
Qed.


(** On numbers, not below means above or equal. *)
Lemma SFleb_of_not_ltb (x y : spec_float) :
  x <> S754_nan -> y <> S754_nan -> SFltb x y = false -> SFleb y x = true.
Proof.
  unfold SFltb, SFleb.
  destruct x as [sx|sx| |sx mx ex]; try done;
    destruct y as [sy|sy| |sy my ey]; try done; intros _ _;
    try (by destruct sx); try (by destruct sy); try (by destruct sx, sy).
  unfold SFcompare. rewrite !compare_cont_Eq.
  rewrite (Z.compare_antisym ex ey), (Z.compare_antisym (Zpos mx) (Zpos my)).
  destruct sx, sy; try done;
    destruct (ex ?= ey); try done; by destruct (Zpos mx ?= Zpos my).
Qed.

Lemma at_most_leb (r : spec_float) (mx : positive) (ex : Z) :
  at_most r mx ex -> SFleb r (S754_finite false mx ex) = true.
Proof.
  destruct r as [s| | |[] m e]; try done. cbn [at_most].
  unfold SFleb, SFcompare. rewrite compare_cont_Eq. intros [Hlt|[-> Hle]].
  - by destruct (Z.compare_spec e ex); try lia.
  - rewrite Z.compare_refl.
    by destruct (Z.compare_spec (Zpos m) (Zpos mx)); try lia.
Qed.

Lemma at_most_leb_trans (r l : spec_float) (mx : positive) (ex : Z) :
  at_most r mx ex -> SFleb (S754_finite false mx ex) l = true -> SFleb r l = true.
Proof.
  destruct r as [s| | |[] m e]; try done; cbn [at_most]; intros Hr.
  - by destruct l as [sl|[]| |[] ml el].
  - destruct l as [sl|[]| |[] ml el]; try done.
    unfold SFleb, SFcompare. rewrite !compare_cont_Eq.
    destruct (Z.compare_spec ex el) as [->|Hlt|Hgt]; try done.
    + destruct (Z.compare_spec (Zpos mx) (Zpos ml)) as [Heq|Hlt|Hgt]; try done;
        intros _; destruct (Z.compare_spec e el) as [->|Hlt'|Hgt']; try done; try lia;
        by destruct (Z.compare_spec (Zpos m) (Zpos ml)); try lia.
    + intros _. destruct (Z.compare_spec e el) as [->|Hlt'|Hgt']; try done; lia.
Qed.

Lemma at_most_zero_leb (r : spec_float) (mx : positive) (ex : Z) :
  at_most r mx ex -> SFleb (S754_zero false) r = true.
Proof. by destruct r as [s| | |[] m e]. Qed.

End binary64.

(** ** The token bucket *)
Section bucket_facts.
Import ratelimiter.
Context `{Decoder}.

Lemma limited_call_set_bucket (mrl : MethodRateLimiter) (nodeId m key : string)
  (t : float) (now : time.Time) (r : Request) :
  limited_call mrl nodeId m r -> limited_call (set_bucket mrl key t now) nodeId m r.
Proof. unfold limited_call, methods_index. simpl. tauto. Qed.

(** [Allow] on the limited path, in terms of the bucket of the key. *)
Lemma Allow_limited (mrl : MethodRateLimiter) (nodeId m : string) (r : Request)
  (now : time.Time) :
  limited_call mrl nodeId m r ->
  Allow mrl r now =
  let key := rateLimitKey nodeId m in
  let r' := set_Body r (NopCloser (content (Body r))) in
  match tokens mrl !! key, last mrl !! key with
  | Some t, Some l =>
      if (refilled mrl t l now <? 1)%float then (mrl, r', (false, None))
      else (set_bucket mrl key (refilled mrl t l now - 1)%float now, r', (true, None))
  | _, _ => (set_bucket mrl key (float64_of_int (burst mrl) - 1)%float now, r', (true, None))
  end.
Proof.
  intros (Hid & Hne & Hread & Hdec & Hm & Hlim).
  unfold Allow. rewrite Hid. apply String.eqb_neq in Hne. rewrite Hne.
  unfold ioutil_ReadAll. rewrite Hread.
  destruct (json_Unmarshal (content (Body r))) as [reqBody err].
  simpl in Hdec, Hm. subst err m. rewrite Hlim. cbn [negb].
  reflexivity.
Qed.

Lemma Sub_same (now : time.Time) : time.Sub now now = 0.
Proof.
  unfold time.Sub, time.subMono. rewrite Z.sub_diag. reflexivity.
Qed.

Lemma Allow_all_same_instant (nodeId m : string) (now : time.Time)
  (rs : list Request) (mrl : MethodRateLimiter) (t : float) :
  tokens mrl !! rateLimitKey nodeId m = Some t ->
  last mrl !! rateLimitKey nodeId m = Some now ->
  Forall (limited_call mrl nodeId m) rs ->
  snd (Allow_all mrl (map (fun r => (r, now)) rs))
  = same_elapsed (rate mrl) (burst mrl) (time.Seconds 0) t (length rs).
Proof.
  revert mrl t. induction rs as [|r rs IH]; intros mrl t Ht Hl Hrs; [reflexivity|].
  apply Forall_cons in Hrs as [Hr Hrs]. cbn [map Allow_all length same_elapsed].
  rewrite (Allow_limited mrl nodeId m r now Hr). cbn zeta. rewrite Ht, Hl.
  unfold refilled. rewrite Sub_same.
  set (t1 := refill (rate mrl) (burst mrl) t (time.Seconds 0)).
  destruct (t1 <? 1)%float.
  - specialize (IH mrl t Ht Hl Hrs).
    destruct (Allow_all mrl (map (fun r0 => (r0, now)) rs)) as [mrl' rest].
    simpl in *. by rewrite IH.
  - set (t' := (t1 - 1)%float).
    specialize (IH (set_bucket mrl (rateLimitKey nodeId m) t' now) t').
    destruct (Allow_all _ (map (fun r0 => (r0, now)) rs)) as [mrl' rest].
    simpl in *. rewrite IH; [reflexivity | apply lookup_insert_eq | apply lookup_insert_eq |].
    eapply Forall_impl; [exact Hrs|]. intros r0. apply limited_call_set_bucket.
Qed.

(** C2: with rate 10 and burst 60, 61 calls for a fresh key (a client
    identity and a limited method), all at the instant [now]: the first 60
    are admitted and the 61st is denied. *)
Theorem Allow_burst_then_deny (mrl : MethodRateLimiter) (nodeId m : string)
  (now : time.Time) (rs : list Request) :
  rate mrl = 10%float -> burst mrl = 60 ->
  tokens mrl !! rateLimitKey nodeId m = None
  \/ last mrl !! rateLimitKey nodeId m = None ->
  Forall (limited_call mrl nodeId m) rs ->
  length rs = 61%nat ->
  snd (Allow_all mrl (map (fun r => (r, now)) rs))
  = repeat (true, None) 60 ++ [(false, None)].
Proof.
  intros Hrate Hburst Hfresh Hrs Hlen.
  destruct rs as [|r rs]; [discriminate|].
  apply Forall_cons in Hrs as [Hr Hrs]. cbn [map Allow_all].
  rewrite (Allow_limited mrl nodeId m r now Hr). cbn zeta.
  set (mrl1 := set_bucket mrl (rateLimitKey nodeId m)
                 (float64_of_int (burst mrl) - 1)%float now).
  assert (snd (Allow_all mrl1 (map (fun r => (r, now)) rs))
          = repeat (true, None) 59 ++ [(false, None)]) as Hrest.
  { rewrite (Allow_all_same_instant nodeId m now rs mrl1
               (float64_of_int (burst mrl) - 1)%float).
    - injection Hlen as ->.
      change (rate mrl1) with (rate mrl). change (burst mrl1) with (burst mrl).
      rewrite Hrate, Hburst. vm_compute. reflexivity.
    - apply lookup_insert_eq.
    - apply lookup_insert_eq.
    - eapply Forall_impl; [exact Hrs|]. intros r0. apply limited_call_set_bucket. }
  assert (match tokens mrl !! rateLimitKey nodeId m,
                last mrl !! rateLimitKey nodeId m with
          | Some _, Some _ => False
          | _, _ => True
          end) as Hnew.
  { destruct Hfresh as [-> | ->]; [done|]. by destruct (tokens mrl !! _). }
  destruct (tokens mrl !! rateLimitKey nodeId m) as [t|];
    [destruct (last mrl !! rateLimitKey nodeId m) as [l|]; [done|]|];
    fold mrl1; destruct (Allow_all mrl1 (map (fun r => (r, now)) rs)) as [mrl' rest];
    simpl in Hrest; subst rest; reflexivity.
Qed.

End bucket_facts.

(** ** The bounds of the stored token counts *)
Section float64_facts.

Lemma Prim2SF_one : Prim2SF 1 = SF_one.
Proof. reflexivity. Qed.

Lemma Prim2SF_zero : Prim2SF 0 = S754_zero false.
Proof. reflexivity. Qed.

Lemma ltb_irrefl (x : float) : (x <? x)%float = false.
Proof. rewrite ltb_spec. apply SFltb_irrefl. Qed.

(** What [x - 1] is for an [x] that is not below one. *)
Lemma sub_one_cases (x : float) :
  (x <? 1)%float = false ->
  Prim2SF (x - 1) = Prim2SF x
  \/ exists mx ex, Prim2SF x = S754_finite false mx ex
                   /\ at_most (Prim2SF (x - 1)) mx ex.
Proof.
  rewrite ltb_spec, sub_spec, Prim2SF_one. pose proof (Prim2SF_valid x) as Hv.
  destruct (Prim2SF x) as [s|[]| |[] mx ex]; try discriminate; intros Hge.
  - left. reflexivity.
  - left. reflexivity.
  - right. exists mx, ex. split; [reflexivity|].
    by apply SFsub_one_at_most.
Qed.

(** Decrementing a count that is not below one keeps it within a bound... *)
Lemma sub_one_not_above (l x : float) :
  (x <? 1)%float = false -> (l <? x)%float = false -> (l <? x - 1)%float = false.
Proof.
  intros Hge Hl. destruct (sub_one_cases x Hge) as [Heq|(mx & ex & Hx & Hr)].
  - rewrite ltb_spec in *. by rewrite Heq.
  - rewrite ltb_spec in *. rewrite Hx in Hl.
    destruct (SFltb (Prim2SF l) (Prim2SF (x - 1))) eqn:Hlt; [|reflexivity].
    rewrite (at_most_trans _ _ _ _ Hr Hlt) in Hl. discriminate.
Qed.

(** ... and does not make it negative. *)
Lemma sub_one_not_negative (x : float) :
  (x <? 1)%float = false -> (x - 1 <? 0)%float = false.
Proof.
  intros Hge. destruct (sub_one_cases x Hge) as [Heq|(mx & ex & Hx & Hr)].
  - rewrite ltb_spec in *. rewrite Heq, Prim2SF_zero. rewrite Prim2SF_one in Hge.
    destruct (Prim2SF x) as [s|[]| |[] m e]; try discriminate; reflexivity.
  - rewrite ltb_spec, Prim2SF_zero. by eapply at_most_nonneg.
Qed.

(** The conversion of a burst of at least one is not below one. *)
Lemma float64_of_int_not_below_one (z : Z) :
  1 <= z < 2 ^ 63 -> (float64_of_int z <? 1)%float = false.
Proof.
  intros Hz. unfold float64_of_int.
  destruct (Z.eqb_spec z (- 2 ^ 63)) as [Heq|_]; [lia|].
  destruct (Z.ltb_spec z 0) as [Hneg|_]; [lia|].
  rewrite ltb_spec, of_uint63_spec, Prim2SF_one, Uint63.of_Z_spec.
  rewrite Z.mod_small by (change Uint63.wB with (2 ^ 63); lia).
  apply binary_normalize_at_least_one. lia.
Qed.

Lemma refill_not_above (rate : float) (burst : Z) (t elapsed : float) :
  (float64_of_int burst <? refill rate burst t elapsed)%float = false.
Proof.
  unfold refill.
  destruct (float64_of_int burst <? t + elapsed * rate)%float eqn:E;
    [apply ltb_irrefl | exact E].
Qed.

Lemma consumed_within_bounds (rate : float) (burst : Z) (t elapsed : float) :
  (refill rate burst t elapsed <? 1)%float = false ->
  within_bounds burst (refill rate burst t elapsed - 1)%float.
Proof.
  intros Hge. split.
  - apply sub_one_not_above; [exact Hge | apply refill_not_above].
  - by apply sub_one_not_negative.
Qed.

Lemma first_within_bounds (burst : Z) :
  1 <= burst < 2 ^ 63 -> within_bounds burst (float64_of_int burst - 1)%float.
Proof.
  intros Hb. pose proof (float64_of_int_not_below_one burst Hb) as Hge. split.
  - apply sub_one_not_above; [exact Hge | apply ltb_irrefl].
  - by apply sub_one_not_negative.
Qed.

(** *** Finite counts *)

Lemma finite_number (x : float) : finite x -> number x.
Proof. unfold finite, number. by destruct (Prim2SF x). Qed.

Lemma is_finite_finite (x : float) : is_finite x = true -> finite x.
Proof.
  unfold is_finite, is_nan, is_infinity, finite.
  rewrite !FloatAxioms.eqb_spec, abs_spec.
  destruct (Prim2SF x) as [s|[]| |s m e]; try done.
Qed.

Lemma float64_of_int_finite (z : Z) : finite (float64_of_int z).
Proof. eapply exponent_at_most_finite, float64_of_int_exponent. Qed.

(** The number of seconds of a duration is finite. *)
Lemma Seconds_finite (d : time.Duration) : finite (time.Seconds d).
Proof.
  unfold time.Seconds, finite.
  set (a := float64_of_int (Z.quot d time.Second)).
  set (b := float64_of_int (Z.rem d time.Second)).
  pose proof (Prim2SF_valid a) as Hva. pose proof (Prim2SF_valid (b / 1e9)) as Hvq.
  pose proof (Prim2SF_valid b) as Hvb.
  assert (exponent_at_most (Prim2SF (b / 1e9)) 34) as Hq.
  { rewrite div_spec.
    change (Prim2SF 1e9) with (S754_finite false 8388608000000000 (-23)).
    change 34 with (11 - -23).
    apply SF64div_exponent; [exact Hvb | apply float64_of_int_exponent | |].
    - change (2 ^ 52) with 4503599627370496. lia.
    - unfold SpecFloat.emin, emax, prec. lia. }
  rewrite add_spec. eapply exponent_at_most_finite.
  apply (SF64add_exponent _ _ 34); [exact Hva | exact Hvq | | exact Hq |].
  - eapply exponent_at_most_le; [|apply float64_of_int_exponent]. lia.
  - unfold SpecFloat.emin, emax, prec. lia.
Qed.

Lemma leb_of_not_ltb (x y : float) :
  number x -> number y -> (x <? y)%float = false -> (y <=? x)%float = true.
Proof. rewrite ltb_spec, leb_spec. apply SFleb_of_not_ltb. Qed.

Lemma leb_finite (x lo hi : float) :
  finite lo -> finite hi -> (lo <=? x)%float = true -> (x <=? hi)%float = true ->
  finite x.
Proof.
  unfold finite. rewrite !leb_spec.
  destruct (Prim2SF x) as [s|[]| |s m e]; try done;
    destruct (Prim2SF lo) as [?|[]| |[] ? ?]; try done;
    by destruct (Prim2SF hi) as [?|[]| |[] ? ?].
Qed.

(** The refilled count is a number when the rate and the stored count are
    finite. *)
Lemma refill_number (rate : float) (burst : Z) (t : float) (d : time.Duration) :
  finite rate -> finite t -> number (refill rate burst t (time.Seconds d)).
Proof.
  intros Hrate Ht. unfold refill.
  destruct (float64_of_int burst <? t + time.Seconds d * rate)%float.
  - apply finite_number, float64_of_int_finite.
  - unfold number. rewrite add_spec, mul_spec.
    apply SF64add_number; [exact Ht|].
    apply SF64mul_number; [apply Seconds_finite | exact Hrate].
Qed.

Lemma sub_one_finite (x : float) :
  finite x -> (x <? 1)%float = false ->
  exists mx ex, Prim2SF x = S754_finite false mx ex /\ at_most (Prim2SF (x - 1)) mx ex.
Proof.
  unfold finite. rewrite ltb_spec, sub_spec, Prim2SF_one.
  pose proof (Prim2SF_valid x) as Hv.
  destruct (Prim2SF x) as [s|s| |[] mx ex]; try done; intros _ Hge.
  exists mx, ex. split; [reflexivity|]. by apply SFsub_one_at_most.
Qed.

Lemma consumed_in_range (burst : Z) (x : float) :
  number x ->
  (float64_of_int burst <? x)%float = false -> (x <? 1)%float = false ->
  (1 <=? x)%float = true /\ in_range burst (x - 1)%float.
Proof.
  intros Hx Hle Hge.
  pose proof (finite_number _ (float64_of_int_finite burst)) as Hb.
  assert (number 1%float) as H1 by (unfold number; by rewrite Prim2SF_one).
  pose proof (leb_of_not_ltb x 1%float Hx H1 Hge) as Hge'.
  pose proof (leb_of_not_ltb _ x Hb Hx Hle) as Hle'.
  split; [exact Hge'|].
  assert (finite x) as Hfin.
  { apply (leb_finite x 1%float (float64_of_int burst)); try done.
    apply float64_of_int_finite. }
  destruct (sub_one_finite x Hfin Hge) as (mx & ex & Hxe & Hr).
  unfold in_range. rewrite !leb_spec, Prim2SF_zero. rewrite leb_spec, Hxe in Hle'.
  split; [by eapply at_most_zero_leb | by eapply at_most_leb_trans].
Qed.

Lemma first_ok (rate : float) (burst : Z) :
  1 <= burst < 2 ^ 63 -> stored_ok rate burst (float64_of_int burst - 1)%float.
Proof.
  intros Hb. split; [by apply first_within_bounds|]. intros _.
  apply consumed_in_range.
  - apply finite_number, float64_of_int_finite.
  - apply ltb_irrefl.
  - by apply float64_of_int_not_below_one.
Qed.

Lemma consumed_ok (rate : float) (burst : Z) (t : float) (d : time.Duration) :
  stored_ok rate burst t ->
  (refill rate burst t (time.Seconds d) <? 1)%float = false ->
  stored_ok rate burst (refill rate burst t (time.Seconds d) - 1)%float
  /\ (is_finite rate = true -> (1 <=? refill rate burst t (time.Seconds d))%float = true).
Proof.
  intros [_ Ht] Hge.
  assert (is_finite rate = true ->
          (1 <=? refill rate burst t (time.Seconds d))%float = true
          /\ in_range burst (refill rate burst t (time.Seconds d) - 1)%float) as Hfin.
  { intros Hrate. apply consumed_in_range; [|apply refill_not_above|exact Hge].
    apply refill_number; [by apply is_finite_finite|].
    destruct (Ht Hrate) as [H0 Hb].
    apply (leb_finite t 0%float (float64_of_int burst)); try done.
    apply float64_of_int_finite. }
  split; [split|].
  - by apply consumed_within_bounds.
  - intros Hrate. by apply Hfin.
  - intros Hrate. by apply Hfin.
Qed.

End float64_facts.

Section bucket_bounds.
Import ratelimiter.
Context `{Decoder}.

(** What a call can do to the limiter: nothing, open a bucket with
    [burst - 1] tokens, or take one token from the refilled count of an
    existing bucket, when that count is not below one. *)
Lemma Allow_cases (mrl : MethodRateLimiter) (r : Request) (now : time.Time) :
  let mrl' := fst (fst (Allow mrl r now)) in
  mrl' = mrl
  \/ (exists key, mrl' = set_bucket mrl key (float64_of_int (burst mrl) - 1)%float now)
  \/ (exists key t l,
        tokens mrl !! key = Some t
        /\ (refilled mrl t l now <? 1)%float = false
        /\ mrl' = set_bucket mrl key (refilled mrl t l now - 1)%float now).
Proof.
  unfold Allow.
  destruct (String.eqb (URL_Query_Id r) ""); [by left|].
  destruct (ioutil_ReadAll (Body r)) as [[body [e|]] rest]; [by left|].
  destruct (json_Unmarshal body) as [reqBody [e|]]; [by left|].
  destruct (negb (methods_index mrl (Method reqBody))); [by left|].
  cbn [set_Body URL_Query_Id].
  set (key := rateLimitKey (URL_Query_Id r) (Method reqBody)).
  destruct (tokens mrl !! key) as [t|] eqn:Ht; [|right; left; by exists key].
  destruct (last mrl !! key) as [l|]; [|right; left; by exists key].
  fold (refill (rate mrl) (burst mrl) t (time.Seconds (time.Sub now l))).
  fold (refilled mrl t l now).
  destruct (refilled mrl t l now <? 1)%float eqn:E; [by left|].
  right; right. by exists key, t, l.
Qed.

Lemma Allow_configuration (mrl : MethodRateLimiter) (r : Request) (now : time.Time) :
  rate (fst (fst (Allow mrl r now))) = rate mrl
  /\ burst (fst (fst (Allow mrl r now))) = burst mrl.
Proof.
  destruct (Allow_cases mrl r now) as [->|[[key ->]|(key & t & l & _ & _ & ->)]];
    by split.
Qed.

Lemma Allow_stored_ok (mrl : MethodRateLimiter) (r : Request) (now : time.Time) :
  1 <= burst mrl < 2 ^ 63 ->
  (forall key t, tokens mrl !! key = Some t -> stored_ok (rate mrl) (burst mrl) t) ->
  forall key t, tokens (fst (fst (Allow mrl r now))) !! key = Some t ->
                stored_ok (rate mrl) (burst mrl) t.
Proof.
  intros Hb Hinv key t.
  destruct (Allow_cases mrl r now) as [->|[[k ->]|(k & t0 & l & Ht0 & Hge & ->)]];
    [apply Hinv| |]; cbn [set_bucket tokens]; rewrite lookup_insert;
    case_decide; try apply Hinv; intros [= <-].
  - by apply first_ok.
  - exact (proj1 (consumed_ok _ _ t0 _ (Hinv k t0 Ht0) Hge)).
Qed.

Lemma Allow_all_stored_ok (calls : list (Request * time.Time))
  (mrl : MethodRateLimiter) :
  1 <= burst mrl < 2 ^ 63 ->
  (forall key t, tokens mrl !! key = Some t -> stored_ok (rate mrl) (burst mrl) t) ->
  rate (fst (Allow_all mrl calls)) = rate mrl
  /\ burst (fst (Allow_all mrl calls)) = burst mrl
  /\ forall key t, tokens (fst (Allow_all mrl calls)) !! key = Some t ->
                    stored_ok (rate mrl) (burst mrl) t.
Proof.
  revert mrl. induction calls as [|[r now] calls IH]; intros mrl Hb Hinv;
    [done|].
  cbn [Allow_all].
  pose proof (Allow_configuration mrl r now) as [Hrate Hburst].
  pose proof (Allow_stored_ok mrl r now Hb Hinv) as Hstep.
  destruct (Allow mrl r now) as [[mrl1 r1] res]. cbn [fst] in Hrate, Hburst, Hstep.
  specialize (IH mrl1). rewrite Hrate, Hburst in IH. specialize (IH Hb Hstep).
  destruct (Allow_all mrl1 calls) as [mrl2 rest]. exact IH.
Qed.

End bucket_bounds.

(** * Further properties *)

(** ** The limiter, call by call *)
Section limiter_paths.
Import ratelimiter main.
Context `{Decoder}.

Lemma Allow_unlimited (mrl : MethodRateLimiter) (r : Request) (now : time.Time) :
  unlimited_call mrl r ->
  Allow mrl r now = (mrl, set_Body r (NopCloser (content (Body r))), (true, None)).
Proof.
  intros (Hid & Hread & Hdec & Hm). unfold Allow.
  apply String.eqb_neq in Hid. rewrite Hid. unfold ioutil_ReadAll. rewrite Hread.
  destruct (json_Unmarshal (content (Body r))) as [reqBody err].
  cbn [fst snd] in Hdec, Hm. subst err. rewrite Hm. reflexivity.
Qed.

(** X1: requests for methods outside the allow-list are all admitted,
    whatever the client and however many they are, and leave the limiter as
    it was. *)
Theorem Allow_all_unlimited (mrl : MethodRateLimiter)
  (calls : list (Request * time.Time)) :
  Forall (fun call => unlimited_call mrl (fst call)) calls ->
  Allow_all mrl calls = (mrl, map (fun _ => (true, None)) calls).
Proof.
  induction 1 as [|[r now] calls Hr _ IH]; cbn [Allow_all map]; [reflexivity|].
  rewrite (Allow_unlimited mrl r now Hr), IH. reflexivity.
Qed.

(** The limiter after a call: unchanged, or with the bucket of the
    request's key rewritten. *)
Lemma Allow_writes_request_key (mrl : MethodRateLimiter) (r : Request)
  (now : time.Time) :
  fst (fst (Allow mrl r now)) = mrl
  \/ exists t, fst (fst (Allow mrl r now)) = set_bucket mrl (request_key r) t now.
Proof.
  unfold Allow, request_key.
  destruct (String.eqb (URL_Query_Id r) ""); [by left|].
  unfold ioutil_ReadAll. cbn [fst snd].
  destruct (read_error (Body r)) as [e|]; [by left|].
  destruct (json_Unmarshal (content (Body r))) as [reqBody [e|]]; [by left|].
  destruct (negb (methods_index mrl (Method reqBody))); [by left|].
  cbn [fst].
  destruct (tokens mrl !! _) as [t|]; [|right; by eexists].
  destruct (last mrl !! _) as [l|]; [|right; by eexists].
  match goal with |- context [if ?b then _ else _] => destruct b end;
    [by left | right; by eexists].
Qed.

(** X2: a call touches one bucket at most, that of the request's key: the
    configuration of the limiter and the token count and refill time of
    every other key are those before the call. *)
Theorem Allow_other_buckets (mrl : MethodRateLimiter) (r : Request)
  (now : time.Time) (key : string) :
  key <> request_key r ->
  let mrl' := fst (fst (Allow mrl r now)) in
  tokens mrl' !! key = tokens mrl !! key
  /\ last mrl' !! key = last mrl !! key
  /\ rate mrl' = rate mrl /\ burst mrl' = burst mrl /\ methods mrl' = methods mrl.
Proof.
  intros Hkey mrl'. subst mrl'.
  destruct (Allow_writes_request_key mrl r now) as [->|[t ->]]; [done|].
  cbn [set_bucket tokens last rate burst methods].
  rewrite !lookup_insert_ne by done. done.
Qed.

Lemma Allow_paired (mrl : MethodRateLimiter) (r : Request) (now : time.Time) :
  dom (tokens mrl) = dom (last mrl) ->
  dom (tokens (fst (fst (Allow mrl r now)))) = dom (last (fst (fst (Allow mrl r now)))).
Proof.
  intros Hdom.
  destruct (Allow_writes_request_key mrl r now) as [->|[t ->]]; [done|].
  cbn [set_bucket tokens last]. rewrite !dom_insert_L. by rewrite Hdom.
Qed.

(** X3: at every moment the limiter holds a token count for exactly the keys
    it holds a refill time for. *)
Theorem buckets_paired (rate : float) (burst : Z)
  (calls : list (Request * time.Time)) :
  let mrl := fst (Allow_all (NewMethodRateLimiter rate burst) calls) in
  dom (tokens mrl) = dom (last mrl)
  /\ forall key, is_Some (tokens mrl !! key) <-> is_Some (last mrl !! key).
Proof.
  intros mrl.
  assert (forall calls m, dom (tokens m) = dom (last m) ->
            dom (tokens (fst (Allow_all m calls)))
            = dom (last (fst (Allow_all m calls)))) as Hgen.
  { clear. intros calls. induction calls as [|[r now] calls IH]; intros m Hm; [done|].
    cbn [Allow_all]. pose proof (Allow_paired m r now Hm) as Hstep.
    destruct (Allow m r now) as [[m1 r1] res]. cbn [fst] in Hstep.
    specialize (IH m1 Hstep). by destruct (Allow_all m1 calls). }
  assert (dom (tokens mrl) = dom (last mrl)) as Hdom.
  { apply Hgen. cbn [NewMethodRateLimiter tokens last]. by rewrite !dom_empty_L. }
  split; [exact Hdom|]. intros key. by rewrite <- !elem_of_dom, Hdom.
Qed.

(** X4: a call is denied in one case only: the request reaches the bucket
    arithmetic, the bucket of its key exists, and the refilled count is below
    one. *)
Theorem Allow_denied_iff (mrl : MethodRateLimiter) (r : Request) (now : time.Time) :
  snd (Allow mrl r now) = (false, None)
  <-> limited mrl r
      /\ exists t l, tokens mrl !! request_key r = Some t
                     /\ last mrl !! request_key r = Some l
                     /\ (refilled mrl t l now <? 1)%float = true.
Proof.
  split.
  - unfold Allow, limited, limited_call, request_key, ioutil_ReadAll.
    destruct (String.eqb_spec (URL_Query_Id r) "") as [Hid|Hid]; [discriminate|].
    cbn [fst snd].
    destruct (read_error (Body r)) as [e|] eqn:Hread; [discriminate|].
    destruct (json_Unmarshal (content (Body r))) as [reqBody [e|]]; [discriminate|].
    destruct (methods_index mrl (Method reqBody)) eqn:Hm; [|discriminate].
    cbn [negb fst snd].
    destruct (tokens mrl !! _) as [t|]; [|discriminate].
    destruct (last mrl !! _) as [l|]; [|discriminate].
    fold (refill (rate mrl) (burst mrl) t (time.Seconds (time.Sub now l))).
    fold (refilled mrl t l now).
    destruct (refilled mrl t l now <? 1)%float eqn:E; [|discriminate].
    intros _. split; [done|]. by exists t, l.
  - intros [Hr (t & l & Ht & Hl & Hlt)].
    unfold limited in Hr. unfold request_key in Ht, Hl.
    rewrite (Allow_limited mrl _ _ r now Hr). cbn zeta. by rewrite Ht, Hl, Hlt.
Qed.

(** X5: the limiter never changes the identity of a request.  It leaves
    the body untouched when the request has no identity; after a read
    without error it puts a fresh reader over the bytes read in the place
    of the body it has consumed; after a read error the consumed body stays
    in place.  So an admitted request is dispatched with a body that reads
    to the bytes and the end that the body received would have given. *)
Theorem Allow_keeps_body (ServeHTTP : Request -> Response)
  (mrl : MethodRateLimiter) (r : Request) (now : time.Time) :
  let r' := snd (fst (Allow mrl r now)) in
  URL_Query_Id r' = URL_Query_Id r
  /\ (URL_Query_Id r = ""%string -> Body r' = Body r)
  /\ (URL_Query_Id r <> ""%string -> read_error (Body r) = None ->
      Body r' = NopCloser (content (Body r)))
  /\ (URL_Query_Id r <> ""%string -> is_Some (read_error (Body r)) ->
      Body r' = after_read (Body r))
  /\ (snd (Allow mrl r now) = (true, None) ->
      fst (ioutil_ReadAll (Body r')) = fst (ioutil_ReadAll (Body r))
      /\ snd (handler ServeHTTP mrl r now) = ServeHTTP r').
Proof.
  intros r'. subst r'. unfold handler.
  assert ((URL_Query_Id r = ""%string /\ Allow mrl r now = (mrl, r, (true, None)))
          \/ (URL_Query_Id r <> ""%string
              /\ exists e, read_error (Body r) = Some e
                           /\ Allow mrl r now
                              = (mrl, set_Body r (after_read (Body r)), (false, Some e)))
          \/ (URL_Query_Id r <> ""%string /\ read_error (Body r) = None
              /\ snd (fst (Allow mrl r now)) = set_Body r (NopCloser (content (Body r)))))
    as Hr.
  { unfold Allow, ioutil_ReadAll.
    destruct (String.eqb_spec (URL_Query_Id r) "") as [Hid|Hid]; [by left|].
    right. destruct (read_error (Body r)) as [e|] eqn:Hread.
    { left. split; [done|]. by exists e. }
    right. split; [done|]. split; [done|].
    repeat match goal with
    | |- context [if ?b then _ else _] => destruct b
    | |- context [match ?x with _ => _ end] => destruct x
    end; reflexivity. }
  destruct Hr as [[Hid ->]|[(Hid & e & Hread & ->)|(Hid & Hread & Hr)]];
    cbn [fst snd].
  - by repeat split.
  - repeat split; try done. intros _ Hnone. by rewrite Hread in Hnone.
  - destruct (Allow mrl r now) as [[mrl' r'] [allowed err]]. cbn [fst snd] in *.
    subst r'. split; [done|]. split; [done|]. split; [done|]. split.
    + intros _ [e He]. by rewrite Hread in He.
    + intros [= -> ->]. split; [|done].
      unfold ioutil_ReadAll. cbn [set_Body Body NopCloser content read_error fst].
      by rewrite Hread.
Qed.

End limiter_paths.

(** ** The sentinel of the scan *)
Section latency_facts.
Import backend balancer.

Lemma binary_round_exponent_below (sx : bool) (p : positive) (e E : Z) :
  emin <= E <= emax - prec -> E <= e -> Zpos p * 2 ^ (e - E) < 2 ^ 52 ->
  exponent_at_most (binary_round prec emax sx p e) E.
Proof.
  intros HE He Hlt. unfold binary_round.
  pose proof (shl_align_spec p e (fexp prec emax (Zpos (digits2_pos p) + e)))
    as [Hez Hmz].
  destruct (shl_align p e (fexp prec emax (Zpos (digits2_pos p) + e))) as [mz ez].
  cbn [fst snd] in Hez, Hmz.
  pose proof (digits2_pos_bounds p) as [Hd _].
  assert (Zpos (digits2_pos p) + e - 53 < E) as Hdig.
  { assert (2 ^ (Zpos (digits2_pos p) - 1 + (e - E)) < 2 ^ 52) as Hp.
    { rewrite pow2_split by lia. eapply Z.le_lt_trans; [|exact Hlt].
      apply Z.mul_le_mono_nonneg_r; [apply Z.lt_le_incl, pow2_pos; lia | exact Hd]. }
    apply Z.pow_lt_mono_r_iff in Hp; lia. }
  assert (ez <= E) as Hle.
  { rewrite Hez. unfold fexp, prec, SpecFloat.emin in *. lia. }
  apply binary_round_aux_exponent; [exact HE | lia | exact Hle |].
  rewrite Hmz, <- Hez.
  replace (e - ez) with ((e - E) + (E - ez)) by lia.
  rewrite pow2_split by lia. rewrite Z.mul_assoc.
  apply Z.mul_lt_mono_pos_r; [apply pow2_pos; lia | exact Hlt].
Qed.

Lemma binary_normalize_exponent_below (m E : Z) (szero : bool) :
  emin <= E <= 0 -> Z.abs m * 2 ^ (- E) < 2 ^ 52 ->
  exponent_at_most (binary_normalize prec emax m 0 szero) E.
Proof.
  intros HE Hlt. destruct m as [|p|p]; cbn [binary_normalize]; [exact I| |];
    apply binary_round_exponent_below; try done;
    unfold SpecFloat.emin, emax, prec in *; rewrite ?Z.sub_0_l; lia.
Qed.

Lemma float64_of_int_exponent_below (z E : Z) :
  emin <= E <= 0 -> Z.abs z * 2 ^ (- E) < 2 ^ 52 ->
  exponent_at_most (Prim2SF (float64_of_int z)) E.
Proof.
  intros HE Hlt.
  assert (Z.abs z < 2 ^ 52) as Hz.
  { pose proof (pow2_pos (- E) ltac:(lia)). nia. }
  assert (forall x, 0 <= x < 2 ^ 52 -> Z.abs x * 2 ^ (- E) < 2 ^ 52 ->
            exponent_at_most (Prim2SF (of_uint63 (Uint63.of_Z x))) E) as Hconv.
  { intros x Hx Hxl. rewrite of_uint63_spec, Uint63.of_Z_spec.
    change Uint63.wB with (2 ^ 63). rewrite Z.mod_small by lia.
    by apply binary_normalize_exponent_below. }
  unfold float64_of_int.
  destruct (Z.eqb_spec z (- 2 ^ 63)) as [->|_]; [lia|].
  destruct (Z.ltb_spec z 0).
  - rewrite opp_spec. apply SFopp_exponent, Hconv; [lia|].
    rewrite Z.abs_opp. exact Hlt.
  - apply Hconv; [lia | exact Hlt].
Qed.

Lemma Prim2SF_maxResponseTime :
  Prim2SF maxResponseTime = S754_finite false 4503599627370496 11.
Proof. vm_compute. reflexivity. Qed.

(** The sentinel the scan starts from, [2^63], is above every duration in
    seconds. *)
Lemma Seconds_below_sentinel (d : time.Duration) :
  - 2 ^ 63 <= d < 2 ^ 63 -> (time.Seconds d <? maxResponseTime)%float = true.
Proof.
  intros Hd. unfold time.Seconds.
  set (a := float64_of_int (Z.quot d time.Second)).
  set (b := float64_of_int (Z.rem d time.Second)).
  pose proof (Prim2SF_valid a) as Hva. pose proof (Prim2SF_valid (b / 1e9)) as Hvq.
  pose proof (Prim2SF_valid b) as Hvb.
  change time.Second with 1000000000 in *.
  assert (exponent_at_most (Prim2SF a) 8) as Ha.
  { apply (exponent_at_most_le _ 0); [lia|].
    apply float64_of_int_exponent_below; [unfold SpecFloat.emin, emax, prec; lia|].
    change (2 ^ (- 0)) with 1. rewrite Z.mul_1_r.
    pose proof (Z.quot_rem' d 1000000000) as Hqr.
    pose proof (Z.rem_bound_abs d 1000000000 ltac:(lia)) as Hr.
    change (2 ^ 52) with 4503599627370496.
    change (2 ^ 63) with 9223372036854775808 in Hd. lia. }
  assert (exponent_at_most (Prim2SF (b / 1e9)) 8) as Hq.
  { rewrite div_spec.
    change (Prim2SF 1e9) with (S754_finite false 8388608000000000 (-23)).
    change 8 with (-15 - -23).
    apply SF64div_exponent; [exact Hvb | | |].
    - apply float64_of_int_exponent_below; [unfold SpecFloat.emin, emax, prec; lia|].
      pose proof (Z.rem_bound_abs d 1000000000 ltac:(lia)) as Hr.
      change (2 ^ (- -15)) with 32768. change (2 ^ 52) with 4503599627370496. lia.
    - change (2 ^ 52) with 4503599627370496. lia.
    - unfold SpecFloat.emin, emax, prec. lia. }
  rewrite ltb_spec, add_spec, Prim2SF_maxResponseTime.
  pose proof (SF64add_exponent _ _ 8 Hva Hvq Ha Hq
                ltac:(unfold SpecFloat.emin, emax, prec; lia)) as Hs.
  destruct (SF64add (Prim2SF a) (Prim2SF (b / 1e9))) as [s|s| |s m e]; try done.
  cbn [exponent_at_most] in Hs. unfold SFltb, SFcompare.
  destruct s; [reflexivity|].
  destruct (Z.compare_spec e 11); first [reflexivity | lia].
Qed.

Lemma parseSegments_nonneg (fuel : nat) (d : Z) (s : string) (d' : Z) :
  0 <= d -> time.parseSegments fuel d s = Some d' -> 0 <= d'.
Proof.
  revert d s. induction fuel as [|fuel IH]; intros d s Hd; cbn [time.parseSegments].
  - destruct s; [intros [= <-]; exact Hd | discriminate].
  - destruct s as [|c s]; [intros [= <-]; exact Hd|].
    destruct (time.parseSegment (String c s)) as [[v s3]|]; [|discriminate].
    destruct (2 ^ 63 <? (d + v) mod 2 ^ 64); [discriminate|].
    apply IH. apply Z.mod_pos_bound. lia.
Qed.

Lemma ParseDuration_range (s : string) :
  - 2 ^ 63 <= fst (time.ParseDuration s) < 2 ^ 63.
Proof.
  unfold time.ParseDuration.
  destruct (match s with
            | EmptyString => (false, s)
            | String c s' =>
                if Ascii.eqb c "-" then (true, s')
                else if Ascii.eqb c "+" then (false, s') else (false, s)
            end) as [neg s0].
  destruct (String.eqb s0 "0"); [cbn; lia|].
  destruct (String.eqb s0 ""); [cbn; lia|].
  destruct (time.parseSegments (String.length s0) 0 s0) as [d|] eqn:Hd; [|cbn; lia].
  apply parseSegments_nonneg in Hd; [|lia].
  destruct neg.
  - cbn [fst]. generalize (- time.int64 d). intros x. unfold time.int64.
    pose proof (Z.mod_pos_bound (x + 2 ^ 63) (2 ^ 64) ltac:(lia)). lia.
  - destruct (Z.ltb_spec (2 ^ 63 - 1) d); cbn [fst]; lia.
Qed.

(** Every entry of the snapshot is below the sentinel, whatever its value. *)
Lemma latency_below_sentinel (entry : string * string) :
  (latency entry <? maxResponseTime)%float = true.
Proof. apply Seconds_below_sentinel, ParseDuration_range. Qed.

End latency_facts.

(** ** The order of binary64 numbers *)
Section order_facts.

Ltac compare_cases :=
  repeat match goal with
  | H : context [Pos.compare_cont Eq _ _] |- _ => rewrite compare_cont_Eq in H
  | |- context [Pos.compare_cont Eq _ _] => rewrite compare_cont_Eq
  end;
  repeat match goal with
  | H : context [(?a ?= ?b)] |- _ => destruct (Z.compare_spec a b)
  | |- context [(?a ?= ?b)] => destruct (Z.compare_spec a b)
  end;
  cbn in *; first [done | lia].

Lemma SFltb_trans (x y z : spec_float) :
  SFltb x y = true -> SFltb y z = true -> SFltb x z = true.
Proof.
  unfold SFltb, SFcompare.
  destruct x as [[]|[]| |[] mx ex], y as [[]|[]| |[] my ey], z as [[]|[]| |[] mz ez];
    try done; compare_cases.
Qed.

Lemma SFltb_negtrans (x y z : spec_float) :
  x <> S754_nan -> y <> S754_nan -> z <> S754_nan ->
  SFltb x y = false -> SFltb y z = false -> SFltb x z = false.
Proof.
  unfold SFltb, SFcompare.
  destruct x as [[]|[]| |[] mx ex], y as [[]|[]| |[] my ey], z as [[]|[]| |[] mz ez];
    try done; intros _ _ _; compare_cases.
Qed.

End order_facts.

(** ** The least response time *)
Section least_latency.
Import backend balancer.

Lemma ltb_trans (x y z : float) :
  (x <? y)%float = true -> (y <? z)%float = true -> (x <? z)%float = true.
Proof. rewrite !ltb_spec. apply SFltb_trans. Qed.

Lemma ltb_negtrans (x y z : float) :
  number x -> number y -> number z ->
  (x <? y)%float = false -> (y <? z)%float = false -> (x <? z)%float = false.
Proof. rewrite !ltb_spec. apply SFltb_negtrans. Qed.

Lemma latency_number (entry : string * string) : number (latency entry).
Proof. apply finite_number, Seconds_finite. Qed.

Lemma scan_latency (st : float * string) (entry : string * string) :
  scan st entry
  = if (latency entry <? fst st)%float then (latency entry, fst entry) else st.
Proof.
  destruct st as [m sel], entry as [u s]. unfold scan, latency. cbn [fst snd].
  by destruct (time.ParseDuration s).
Qed.

Lemma fold_scan_before (before : list (string * string)) (entry : string * string)
  (st : float * string) :
  (latency entry <? fst st)%float = true ->
  forallb (fun e => (latency entry <? latency e)%float) before = true ->
  (latency entry <? fst (fold_left scan before st))%float = true.
Proof.
  revert st. induction before as [|e before IH]; intros st Hst Hb; [exact Hst|].
  cbn [forallb] in Hb. apply andb_prop in Hb as [He Hb].
  cbn [fold_left]. apply IH; [|exact Hb].
  rewrite scan_latency. by destruct (latency e <? fst st)%float.
Qed.

Lemma fold_scan_after (after : list (string * string)) (entry : string * string)
  (sel : string) :
  forallb (fun e => negb (latency e <? latency entry)%float) after = true ->
  fold_left scan after (latency entry, sel) = (latency entry, sel).
Proof.
  induction after as [|e after IH]; intros Ha; [reflexivity|].
  cbn [forallb] in Ha. apply andb_prop in Ha as [He Ha].
  cbn [fold_left]. rewrite scan_latency. cbn [fst].
  apply negb_true_iff in He. rewrite He. by apply IH.
Qed.

(** The scan ends on the first entry of least latency. *)
Lemma fold_scan_first_least (before : list (string * string))
  (entry : string * string) (after : list (string * string)) :
  first_least before entry after = true ->
  fold_left scan (before ++ entry :: after) (maxResponseTime, ""%string)
  = (latency entry, fst entry).
Proof.
  intros Hfl. apply andb_prop in Hfl as [Hb Ha].
  rewrite fold_left_app. cbn [fold_left].
  pose proof (fold_scan_before before entry (maxResponseTime, ""%string)
                (latency_below_sentinel entry) Hb) as Hlt.
  rewrite scan_latency, Hlt. by apply fold_scan_after.
Qed.

(** Every non-empty snapshot has a first entry of least latency. *)
Lemma first_least_exists (l : list (string * string)) :
  l <> [] ->
  exists before entry after,
    l = before ++ entry :: after /\ first_least before entry after = true.
Proof.
  induction l as [|e l IH]; [done|]. intros _.
  destruct l as [|e' l'].
  { by exists [], e, []. }
  destruct IH as (before & x & after & Hl & Hfl); [done|].
  apply andb_prop in Hfl as [Hb Ha].
  destruct (latency x <? latency e)%float eqn:Hxe.
  - exists (e :: before), x, after. split; [by rewrite Hl|].
    unfold first_least. cbn [forallb]. by rewrite Hxe, Hb, Ha.
  - exists [], e, (e' :: l'). split; [done|].
    rewrite Hl. unfold first_least. cbn [forallb andb].
    rewrite forallb_app. cbn [forallb].
    apply andb_true_intro. split; [|apply andb_true_intro; split].
    + apply forallb_forall. intros y Hy. apply negb_true_iff.
      rewrite forallb_forall in Hb. specialize (Hb y Hy).
      destruct (latency y <? latency e)%float eqn:Hye; [|done].
      by rewrite (ltb_trans _ _ _ Hb Hye) in Hxe.
    + by rewrite Hxe.
    + apply forallb_forall. intros y Hy. apply negb_true_iff.
      rewrite forallb_forall in Ha. specialize (Ha y Hy).
      apply negb_true_iff in Ha.
      apply (ltb_negtrans _ (latency x)); auto using latency_number.
Qed.

(** The key the scan ends on is a key of the snapshot. *)
Lemma fold_scan_key (l : list (string * string)) :
  l <> [] ->
  exists s, (snd (fold_left scan l (maxResponseTime, ""%string)), s) ∈ l.
Proof.
  intros Hl. destruct (first_least_exists l Hl) as (before & [u s] & after & -> & Hfl).
  rewrite (fold_scan_first_least _ _ _ Hfl). exists s. cbn [fst snd].
  apply elem_of_app. right. by left.
Qed.

(** X6: the backend whose entry is the first of least latency in the
    snapshot, in the order the snapshot is visited, is the one returned. *)
Theorem NextBackend_first_least (lb : LoadBalancer)
  (before : list (string * string)) (entry : string * string)
  (after : list (string * string)) (b : Backend) :
  first_least before entry after = true ->
  b ∈ backends lb -> url.URL_String (URL b) = fst entry -> fst entry <> ""%string ->
  NextBackend lb (before ++ entry :: after, None) = (Some b, None).
Proof.
  intros Hfl Hb Hurl Hne. unfold NextBackend.
  destruct (backends lb) as [|b0 bs] eqn:Hbs; [by apply elem_of_nil in Hb|].
  cbn [length Nat.eqb]. rewrite (fold_scan_first_least _ _ _ Hfl).
  apply String.eqb_neq in Hne. rewrite Hne, <- Hurl.
  by rewrite (lookup_backend_hit _ _ Hb).
Qed.

(** X7: a backend that is returned has the least latency of the snapshot:
    its entry is slower than none, and faster than all those visited before
    it. *)
Theorem NextBackend_least (lb : LoadBalancer)
  (hgetall : list (string * string) * option error) (b : Backend)
  (err : option error) :
  NextBackend lb hgetall = (Some b, err) ->
  err = None /\ snd hgetall = None
  /\ exists before s after,
       fst hgetall = before ++ (url.URL_String (URL b), s) :: after
       /\ first_least before (url.URL_String (URL b), s) after = true.
Proof.
  unfold NextBackend.
  destruct (length (backends lb) =? 0)%nat; [discriminate|].
  destruct hgetall as [responseTimes [e|]]; [discriminate|]. cbn [fst snd].
  destruct responseTimes as [|e0 l]; [discriminate|].
  destruct (first_least_exists (e0 :: l)) as (before & [u s] & after & Hl & Hfl);
    [done|].
  rewrite Hl, (fold_scan_first_least _ _ _ Hfl). cbn [fst].
  destruct (String.eqb u ""); [discriminate|].
  destruct (lookup_backend (backends lb) u) as [b'|] eqn:Hlook; [|discriminate].
  intros [= <- <-]. apply lookup_backend_elem in Hlook as [_ <-].
  split; [done|]. split; [done|]. by exists before, s, after.
Qed.

(** X8: a backend whose entry is strictly the fastest of the snapshot is
    returned whatever the order in which the snapshot is visited. *)
Theorem NextBackend_strictly_least (lb : LoadBalancer)
  (entry : string * string) (others responseTimes : list (string * string))
  (b : Backend) :
  responseTimes ≡ₚ entry :: others ->
  forallb (fun e => (latency entry <? latency e)%float) others = true ->
  b ∈ backends lb -> url.URL_String (URL b) = fst entry -> fst entry <> ""%string ->
  NextBackend lb (responseTimes, None) = (Some b, None).
Proof.
  intros Hperm Hstrict Hb Hurl Hne.
  assert (entry ∈ responseTimes) as Hin by (rewrite Hperm; left).
  apply list_elem_of_split in Hin as (before & after & ->).
  rewrite <- Permutation_middle in Hperm. apply Permutation_cons_inv in Hperm.
  rewrite forallb_forall in Hstrict.
  assert (forall e, e ∈ before ++ after -> (latency entry <? latency e)%float = true)
    as Hall.
  { intros e He. rewrite Hperm in He. by apply Hstrict, list_elem_of_In. }
  assert (first_least before entry after = true) as Hfl.
  { unfold first_least. apply andb_true_intro.
    split; apply forallb_forall; intros e He%list_elem_of_In.
    - apply Hall, elem_of_app. by left.
    - apply negb_true_iff.
      destruct (latency e <? latency entry)%float eqn:Hlt; [|done].
      assert ((latency entry <? latency e)%float = true) as Hgt
        by (apply Hall, elem_of_app; by right).
      by rewrite <- (ltb_trans _ _ _ Hgt Hlt), ltb_irrefl. }
  unfold NextBackend.
  destruct (backends lb) as [|b0 bs] eqn:Hbs; [by apply elem_of_nil in Hb|].
  cbn [length Nat.eqb]. rewrite (fold_scan_first_least _ _ _ Hfl).
  apply String.eqb_neq in Hne. rewrite Hne, <- Hurl.
  by rewrite (lookup_backend_hit _ _ Hb).
Qed.

(** X9: when the keys of the snapshot are not empty, the error "no backend
    selected" means that the latency store is empty. *)
Theorem NextBackend_no_backend_selected (lb : LoadBalancer)
  (responseTimes : list (string * string)) :
  backends lb <> [] ->
  Forall (fun entry => fst entry <> ""%string) responseTimes ->
  NextBackend lb (responseTimes, None)
    = (None, Some (errors_New "no backend selected"))
  <-> responseTimes = [].
Proof.
  intros Hbs Hkeys. unfold NextBackend.
  destruct (backends lb) as [|b0 bs] eqn:Hb; [done|]. cbn [length Nat.eqb].
  split; [|by intros ->].
  destruct responseTimes as [|e0 l]; [done|]. intros Hres. exfalso.
  destruct (fold_scan_key (e0 :: l)) as [s Hin]; [done|].
  destruct (fold_left scan (e0 :: l) (maxResponseTime, ""%string)) as [m sel].
  cbn [snd] in Hin. rewrite Forall_forall in Hkeys.
  specialize (Hkeys _ Hin). cbn [fst] in Hkeys.
  apply String.eqb_neq in Hkeys. rewrite Hkeys in Hres.
  by destruct (lookup_backend (b0 :: bs) sel).
Qed.

(** X10: a store whose fields are the endpoint strings of registered backends
    always yields a backend, and that backend has an entry in the store. *)
Theorem NextBackend_succeeds (lb : LoadBalancer)
  (responseTimes : list (string * string)) :
  responseTimes <> [] ->
  Forall (fun entry => fst entry <> ""%string
                       /\ exists b, b ∈ backends lb
                                    /\ url.URL_String (URL b) = fst entry)
    responseTimes ->
  exists b s, NextBackend lb (responseTimes, None) = (Some b, None)
              /\ b ∈ backends lb
              /\ (url.URL_String (URL b), s) ∈ responseTimes.
Proof.
  intros Hl Hkeys.
  destruct (first_least_exists responseTimes Hl)
    as (before & [u s] & after & -> & Hfl).
  rewrite Forall_forall in Hkeys.
  assert ((u, s) ∈ before ++ (u, s) :: after) as Hin.
  { apply elem_of_app. right. by left. }
  destruct (Hkeys _ Hin) as (Hne & b & Hb & Hurl). cbn [fst] in Hne, Hurl.
  exists b, s. split; [|by rewrite Hurl].
  unfold NextBackend.
  destruct (backends lb) as [|b0 bs] eqn:Hbs; [by apply elem_of_nil in Hb|].
  cbn [length Nat.eqb]. rewrite (fold_scan_first_least _ _ _ Hfl). cbn [fst].
  apply String.eqb_neq in Hne. rewrite Hne, <- Hurl.
  by rewrite (lookup_backend_hit _ _ Hb).
Qed.

(** X11: when no registered backend has a field of the store as its
    endpoint string, every selection fails with "backend not found". *)
Theorem NextBackend_not_found (lb : LoadBalancer)
  (responseTimes : list (string * string)) :
  backends lb <> [] -> responseTimes <> [] ->
  Forall (fun entry => fst entry <> ""%string
                       /\ forall b, b ∈ backends lb ->
                                    url.URL_String (URL b) <> fst entry)
    responseTimes ->
  NextBackend lb (responseTimes, None) = (None, Some (errors_New "backend not found")).
Proof.
  intros Hbs Hl Hkeys. unfold NextBackend.
  destruct (backends lb) as [|b0 bs] eqn:Hb; [done|]. cbn [length Nat.eqb].
  destruct (fold_scan_key responseTimes Hl) as [s Hin].
  destruct (fold_left scan responseTimes (maxResponseTime, ""%string)) as [m sel].
  cbn [snd] in Hin. rewrite Forall_forall in Hkeys.
  destruct (Hkeys _ Hin) as [Hne Hnone]. cbn [fst] in Hne, Hnone.
  apply String.eqb_neq in Hne. rewrite Hne.
  destruct (lookup_backend (b0 :: bs) sel) as [b|] eqn:Hlook; [|done].
  apply lookup_backend_elem in Hlook as [Hb' Hurl]. by destruct (Hnone b Hb').
Qed.

End least_latency.

(** ** Dispatch *)
Section ServeHTTP_facts.
Import backend balancer.
Context `{time.Formatter}.
Variable proxy : url.URL -> ratelimiter.Request -> list Z.

Lemma NextBackend_some_or_error (lb : LoadBalancer)
  (hgetall : list (string * string) * option error) :
  (exists b, NextBackend lb hgetall = (Some b, None))
  \/ (exists err, NextBackend lb hgetall = (None, Some err)).
Proof.
  unfold NextBackend.
  destruct (length (backends lb) =? 0)%nat; [right; by eexists|].
  destruct hgetall as [responseTimes [e|]]; [right; by eexists|].
  destruct (fold_left scan responseTimes (maxResponseTime, ""%string)) as [m sel].
  destruct (String.eqb sel ""); [right; by eexists|].
  destruct (lookup_backend (backends lb) sel) as [b|];
    [left | right]; by eexists.
Qed.

Lemma fold_WriteHeader (codes : list Z) (rww : responseWriterWrapper) :
  fold_left WriteHeader codes rww
  = {| ResponseWriter := ResponseWriter rww ++ codes;
       statusCode := default (statusCode rww) (last codes) |}.
Proof.
  revert rww. induction codes as [|c codes IH]; intros rww; cbn [fold_left].
  - rewrite app_nil_r. by destruct rww.
  - rewrite IH. cbn [WriteHeader ResponseWriter statusCode].
    f_equal; [by rewrite <- app_assoc|].
    rewrite last_cons. by destruct (last codes).
Qed.

(** X12: when no backend is returned, whatever the cause, the client gets
    one status 503 from the balancer, the request is not proxied, the
    latency store is left as it was and the error is logged. *)
Theorem ServeHTTP_unavailable (lb : LoadBalancer) (h : gmap string string)
  (hgetall : list (string * string) * option error) (w : list Z)
  (r : ratelimiter.Request) (duration : time.Duration) (fail : option error) :
  fst (NextBackend lb hgetall) = None ->
  exists err,
    snd (NextBackend lb hgetall) = Some err
    /\ ServeHTTP proxy lb h hgetall w r duration fail
       = (h, w ++ [StatusServiceUnavailable], [logRequest; logError err]).
Proof.
  intros Hnone. unfold ServeHTTP.
  destruct (NextBackend_some_or_error lb hgetall) as [[b Hb]|[err Herr]].
  - by rewrite Hb in Hnone.
  - exists err. by rewrite Herr.
Qed.

(** X13: a request for which a backend is returned is proxied to it: the
    status codes the proxy writes all reach the client, in order, the last
    of them (200 if there is none) is logged, and the time taken is
    recorded under the endpoint string of the backend, every other field of
    the store being left as it was; a failure of that write is ignored. *)
Theorem ServeHTTP_proxied (lb : LoadBalancer) (h : gmap string string)
  (hgetall : list (string * string) * option error) (w : list Z)
  (r : ratelimiter.Request) (duration : time.Duration) (fail : option error)
  (b : Backend) (err : option error) :
  NextBackend lb hgetall = (Some b, err) ->
  let '(h', w', log) := ServeHTTP proxy lb h hgetall w r duration fail in
  w' = w ++ proxy (URL b) r
  /\ log = [logRequest;
            logCompletedRequest (default StatusOK (last (proxy (URL b) r)))
              duration (URL b)]
  /\ (fail = None ->
      h' !! url.URL_String (URL b) = Some (time.Duration_String duration))
  /\ (is_Some fail -> h' = h)
  /\ (forall field, field <> url.URL_String (URL b) -> h' !! field = h !! field).
Proof.
  intros Hb. unfold ServeHTTP.
  destruct (NextBackend_some_or_error lb hgetall) as [[b' Hb']|[e He]];
    rewrite Hb in *; [|discriminate]. injection Hb' as <- ->.
  rewrite fold_WriteHeader. cbn [ResponseWriter statusCode].
  destruct fail as [e|]; cbn [redis.HSet];
    repeat split; try done; try (by intros [? [=]]); intros.
  - by rewrite lookup_insert_eq.
  - by rewrite lookup_insert_ne.
Qed.

End ServeHTTP_facts.

(** ** The start of the program *)
Section startup.
Import backend balancer main.
Context `{url.Parser}.

Lemma AddBackends_app (lb : LoadBalancer) (h : gmap string string)
  (l1 l2 : list (string * option error)) :
  AddBackends lb h (l1 ++ l2)
  = AddBackends (fst (AddBackends lb h l1)) (snd (AddBackends lb h l1)) l2.
Proof.
  revert lb h. induction l1 as [|[u fail] l1 IH]; intros lb h; [reflexivity|].
  cbn [app AddBackends]. destruct (AddBackend lb h fail u) as [[lb1 h1] e].
  apply IH.
Qed.

Lemma AddBackends_registry (lb : LoadBalancer) (h : gmap string string)
  (l : list (string * option error)) :
  backends (fst (AddBackends lb h l)) = backends lb ++ omap registered l.
Proof.
  revert lb h. induction l as [|[u fail] l IH]; intros lb h.
  - cbn. by rewrite app_nil_r.
  - change (omap registered ((u, fail) :: l))
      with (match registered (u, fail) with
            | Some b => b :: omap registered l
            | None => omap registered l
            end).
    cbn [AddBackends]. unfold AddBackend, registered at 1. cbn [fst snd].
    destruct (url.Parse u) as [pu [e|]]; cbn [fst snd].
    + apply IH.
    + destruct (redis.HSet h fail u "0") as [h1 [e|]];
        rewrite IH; cbn [backends]; by rewrite <- app_assoc.
Qed.

Lemma AddBackends_store (lb : LoadBalancer) (h : gmap string string)
  (l : list (string * option error)) (field : string) :
  snd (AddBackends lb h l) !! field = h !! field
  \/ (snd (AddBackends lb h l) !! field = Some "0"%string
      /\ (field, None) ∈ l /\ snd (url.Parse field) = None).
Proof.
  revert lb h. induction l as [|[u fail] l IH]; intros lb h; [by left|].
  cbn [AddBackends]. unfold AddBackend.
  destruct (url.Parse u) as [pu [e|]] eqn:Hp.
  - destruct (IH lb h) as [->|(-> & Hin & Hpf)]; [by left|].
    right. split; [done|]. split; [by right | done].
  - assert (forall lb1 h1,
              (h1 = h \/ (h1 = <[u := "0"%string]> h /\ fail = None)) ->
              snd (AddBackends lb1 h1 l) !! field = h !! field
              \/ (snd (AddBackends lb1 h1 l) !! field = Some "0"%string
                  /\ (field, None) ∈ (u, fail) :: l
                  /\ snd (url.Parse field) = None)) as Hstep.
    { intros lb1 h1 Hh1.
      destruct (IH lb1 h1) as [->|(-> & Hin & Hpf)].
      - destruct Hh1 as [->|[-> ->]]; [by left|].
        destruct (decide (field = u)) as [->|Hne].
        + right. rewrite lookup_insert_eq. split; [done|]. split; [by left|].
          by rewrite Hp.
        + left. by rewrite lookup_insert_ne.
      - right. split; [done|]. split; [by right | done]. }
    destruct fail as [e|]; cbn [redis.HSet]; apply Hstep; [by left | by right].
Qed.

Lemma AddBackends_recorded (lb : LoadBalancer) (h : gmap string string)
  (l : list (string * option error)) (u : string) :
  (u, None) ∈ l -> snd (url.Parse u) = None ->
  snd (AddBackends lb h l) !! u = Some "0"%string.
Proof.
  intros Hin Hp. apply list_elem_of_split in Hin as (l1 & l2 & ->).
  rewrite AddBackends_app. cbn [AddBackends]. unfold AddBackend at 1.
  destruct (url.Parse u) as [pu e]. cbn [snd] in Hp. subst e. cbn [redis.HSet].
  match goal with
  | |- snd (AddBackends ?lb1 ?h1 l2) !! u = _ =>
      destruct (AddBackends_store lb1 h1 l2 u) as [->|[-> _]];
        [by rewrite lookup_insert_eq | done]
  end.
Qed.

(** X14: the loop of [main] over the backends goes on after a failure: at
    its end the registry holds, after the backends it had, one backend for
    each endpoint that parses, in order and whether or not the store could
    be written; the store holds the latency [0] for each endpoint that
    parses and whose write succeeded, and its other fields are as before. *)
Theorem AddBackends_outcome (lb : LoadBalancer) (h : gmap string string)
  (l : list (string * option error)) :
  let '(lb', h') := AddBackends lb h l in
  backends lb' = backends lb ++ omap registered l
  /\ (forall u, (u, None) ∈ l -> snd (url.Parse u) = None ->
                h' !! u = Some "0"%string)
  /\ (forall field, h' !! field = h !! field
                    \/ (h' !! field = Some "0"%string /\ (field, None) ∈ l
                        /\ snd (url.Parse field) = None)).
Proof.
  pose proof (AddBackends_registry lb h l) as Hreg.
  pose proof (fun u => AddBackends_recorded lb h l u) as Hrec.
  pose proof (AddBackends_store lb h l) as Hst.
  by destruct (AddBackends lb h l) as [lb' h'].
Qed.

Lemma latency_zero (u s : string) :
  s = "0"%string -> latency (u, s) = time.Seconds 0.
Proof. by intros ->. Qed.

(** X15: after a start in which the store answers and every backend is a
    non-empty endpoint in canonical form, the first selection returns the
    backend of the entry of the store that is visited first: all latencies
    are zero, and no later entry is below it. *)
Theorem first_selection (ping : option error) (lb0 : LoadBalancer)
  (urls : list string) (snapshot : list (string * string))
  (u s : string) (rest : list (string * string)) :
  fst (NewLoadBalancer ping) = Some lb0 ->
  Forall (fun u => u <> ""%string /\ canonical u) urls ->
  let started := AddBackends lb0 ∅ ((fun u => (u, None)) <$> urls) in
  snapshot ≡ₚ map_to_list (snd started) -> snapshot = (u, s) :: rest ->
  NextBackend (fst started) (snapshot, None)
  = (Some (NewBackend {| url.URL_String := u |}), None).
Proof.
  intros Hnew Hurls started. subst started.
  assert (backends lb0 = []) as Hlb0.
  { unfold NewLoadBalancer in Hnew. destruct ping; [discriminate|].
    by injection Hnew as <-. }
  pose proof (AddBackends_registry lb0 ∅ ((fun u => (u, None)) <$> urls)) as Hreg.
  pose proof (AddBackends_store lb0 ∅ ((fun u => (u, None)) <$> urls)) as Hst.
  destruct (AddBackends lb0 ∅ ((fun u => (u, None)) <$> urls)) as [lb h].
  cbn [fst snd] in Hreg, Hst |- *. intros Hperm ->.
  rewrite Forall_forall in Hurls.
  assert (forall k v, (k, v) ∈ (u, s) :: rest ->
            v = "0"%string /\ k ∈ urls) as Hentries.
  { intros k v Hin. rewrite Hperm in Hin. apply elem_of_map_to_list in Hin.
    destruct (Hst k) as [Hk|(Hk & Hin' & _)]; rewrite Hin in Hk.
    - by rewrite lookup_empty in Hk.
    - split; [congruence|]. apply list_elem_of_fmap in Hin' as (u' & [= ->] & Hu').
      exact Hu'. }
  destruct (Hentries u s) as [-> Hu]; [by left|].
  destruct (Hurls u Hu) as [Hne Hcan].
  assert (NewBackend {| url.URL_String := u |} ∈ backends lb) as Hb.
  { rewrite Hreg, Hlb0. cbn [app]. apply list_elem_of_omap.
    exists (u, None). split; [by apply list_elem_of_fmap; exists u|].
    unfold registered. cbn [fst]. unfold canonical in Hcan. rewrite Hcan.
    reflexivity. }
  assert (first_least [] (u, "0"%string) rest = true) as Hfl.
  { unfold first_least. cbn [forallb andb]. apply forallb_forall.
    intros [k v] Hin%list_elem_of_In.
    destruct (Hentries k v) as [-> _]; [by right|].
    rewrite (latency_zero k "0"), (latency_zero u "0") by done.
    by rewrite ltb_irrefl. }
  unfold NextBackend.
  destruct (backends lb) as [|b0 bs] eqn:Hbs; [by apply elem_of_nil in Hb|].
  cbn [length Nat.eqb].
  pose proof (fold_scan_first_least [] (u, "0"%string) rest Hfl) as Hsel.
  cbn [app] in Hsel. rewrite Hsel. cbn [fst].
  apply String.eqb_neq in Hne. rewrite Hne.
  pose proof (lookup_backend_hit _ _ Hb) as Hhit.
  cbn [URL NewBackend url.URL_String] in Hhit. by rewrite Hhit.
Qed.

(** X16: the store is keyed by the endpoint as it is given, the registry is
    searched by the endpoint as [URL.String] prints it.  When no backend
    prints as any of the endpoints given at the start, no request is ever
    served: each selection on the fresh store fails with "backend not
    found". *)
Theorem unprintable_endpoints (urls : list string)
  (snapshot : list (string * string)) :
  urls <> [] ->
  Forall (fun u => u <> ""%string /\ snd (url.Parse u) = None
                   /\ forall u', u' ∈ urls ->
                        url.URL_String (fst (url.Parse u')) <> u) urls ->
  let started :=
    AddBackends {| backends := [] |} ∅ ((fun u => (u, None)) <$> urls) in
  snapshot ≡ₚ map_to_list (snd started) ->
  NextBackend (fst started) (snapshot, None)
  = (None, Some (errors_New "backend not found")).
Proof.
  intros Hne Hurls started. subst started.
  pose proof (AddBackends_registry {| backends := [] |} ∅
                ((fun u => (u, None)) <$> urls)) as Hreg.
  pose proof (AddBackends_store {| backends := [] |} ∅
                ((fun u => (u, None)) <$> urls)) as Hst.
  pose proof (fun u => AddBackends_recorded {| backends := [] |} ∅
                ((fun u => (u, None)) <$> urls) u) as Hrec.
  destruct (AddBackends {| backends := [] |} ∅ ((fun u => (u, None)) <$> urls))
    as [lb h].
  cbn [fst snd backends app] in Hreg, Hst, Hrec |- *. intros Hperm.
  rewrite Forall_forall in Hurls.
  destruct urls as [|u0 urls']; [done|].
  assert (snapshot <> []) as Hsnap.
  { intros ->. symmetry in Hperm. apply Permutation_nil_r in Hperm.
    apply map_to_list_empty_iff in Hperm. subst h.
    destruct (Hurls u0) as (_ & Hp & _); [by left|].
    specialize (Hrec u0). rewrite lookup_empty in Hrec.
    discriminate Hrec; [|done]. apply list_elem_of_fmap. exists u0.
    split; [done | by left]. }
  destruct (fold_scan_key snapshot Hsnap) as [s Hin].
  unfold NextBackend. rewrite Hreg.
  assert (omap registered ((fun u => (u, @None error)) <$> u0 :: urls') <> [])
    as Hbs.
  { rewrite fmap_cons.
    change (omap registered ((u0, None) :: ((fun u => (u, None)) <$> urls')))
      with (match registered (u0, @None error) with
            | Some b => b :: omap registered ((fun u => (u, None)) <$> urls')
            | None => omap registered ((fun u => (u, None)) <$> urls')
            end).
    unfold registered at 1. cbn [fst].
    destruct (Hurls u0) as (_ & -> & _); [by left | done]. }
  destruct (omap registered ((fun u => (u, @None error)) <$> u0 :: urls'))
    as [|b0 bs] eqn:Hom; [done|].
  cbn [length Nat.eqb].
  destruct (fold_left scan snapshot (maxResponseTime, ""%string)) as [m sel].
  cbn [snd] in Hin. rewrite Hperm in Hin. apply elem_of_map_to_list in Hin.
  destruct (Hst sel) as [Hk|(_ & Hin' & _)]; [by rewrite Hin, lookup_empty in Hk|].
  apply list_elem_of_fmap in Hin' as (u & [= <-] & Hu).
  destruct (Hurls sel Hu) as (Hsel & _ & Hnone).
  apply String.eqb_neq in Hsel. rewrite Hsel.
  destruct (lookup_backend (b0 :: bs) sel) as [b|] eqn:Hlook; [|done].
  apply lookup_backend_elem in Hlook as [Hb Hurl]. rewrite <- Hom in Hb.
  apply list_elem_of_omap in Hb as ([u' f] & Hin' & Hregd).
  apply list_elem_of_fmap in Hin' as (u'' & [= -> ->] & Hu').
  unfold registered in Hregd. cbn [fst] in Hregd.
  destruct (snd (url.Parse u'')); [discriminate|]. injection Hregd as <-.
  cbn [URL NewBackend] in Hurl. by destruct (Hnone u'' Hu').
Qed.

End startup.

(** ** One bucket for each client and method *)
Section bucket_keys.
Import ratelimiter.

Lemma no_hyphen_app (a b : string) :
  no_hyphen (a ++ String "-" b) = false.
Proof.
  induction a as [|c a IH]; [reflexivity|].
  change (no_hyphen (String c a ++ String "-" b))
    with (negb (Ascii.eqb c "-") && no_hyphen (a ++ String "-" b)).
  rewrite IH. apply andb_false_r.
Qed.

Lemma rateLimitKey_split (n1 m1 n2 m2 : string) :
  no_hyphen m1 = true -> no_hyphen m2 = true ->
  rateLimitKey n1 m1 = rateLimitKey n2 m2 -> n1 = n2 /\ m1 = m2.
Proof.
  unfold rateLimitKey. intros H1 H2.
  change ("-" ++ m1)%string with (String "-" m1).
  change ("-" ++ m2)%string with (String "-" m2).
  revert n2. induction n1 as [|c n1 IH]; intros [|c2 n2]; cbn [String.append].
  - by intros [= ->].
  - intros [= <- ->]. by rewrite no_hyphen_app in H1.
  - intros [= -> <-]. by rewrite no_hyphen_app in H2.
  - intros [= <- Heq]. by destruct (IH _ Heq) as [-> ->].
Qed.

Lemma limited_no_hyphen (rate : float) (burst : Z) (m : string) :
  methods_index (NewMethodRateLimiter rate burst) m = true -> no_hyphen m = true.
Proof.
  unfold methods_index, NewMethodRateLimiter. cbn [methods].
  rewrite !lookup_insert, lookup_empty.
  repeat case_decide; subst; try reflexivity. discriminate.
Qed.

(** X17: two requests for limited methods that differ in the client or in
    the method never share a bucket, whatever characters the client
    identities contain. *)
Theorem rateLimitKey_injective (rate : float) (burst : Z) (n1 m1 n2 m2 : string) :
  methods_index (NewMethodRateLimiter rate burst) m1 = true ->
  methods_index (NewMethodRateLimiter rate burst) m2 = true ->
  (n1, m1) <> (n2, m2) -> rateLimitKey n1 m1 <> rateLimitKey n2 m2.
Proof.
  intros H1 H2 Hne Hkey. apply Hne.
  apply rateLimitKey_split in Hkey as [-> ->]; [done| |]; by eapply limited_no_hyphen.
Qed.

End bucket_keys.

Section isolation.
Import ratelimiter.
Context `{Decoder}.

Lemma same_bucket_refl (key : string) (mrl : MethodRateLimiter) :
  same_bucket key mrl mrl.
Proof. by repeat split. Qed.

Lemma Allow_same_bucket (key : string) (mrl mrl' : MethodRateLimiter)
  (r : Request) (now : time.Time) :
  same_bucket key mrl mrl' -> request_key r = key ->
  snd (Allow mrl r now) = snd (Allow mrl' r now)
  /\ same_bucket key (fst (fst (Allow mrl r now))) (fst (fst (Allow mrl' r now))).
Proof.
  intros (Hrate & Hburst & Hmethods & Htokens & Hlast) Hkey.
  assert (same_bucket key mrl mrl') as Hsame by done.
  unfold Allow, request_key in *.
  destruct (String.eqb (URL_Query_Id r) ""); [done|].
  unfold ioutil_ReadAll. destruct (read_error (Body r)) as [e|]; [done|].
  destruct (json_Unmarshal (content (Body r))) as [reqBody [e|]]; [done|].
  cbn [fst] in Hkey. unfold methods_index. rewrite <- Hmethods.
  destruct (negb (default false (methods mrl !! Method reqBody))); [done|].
  rewrite Hkey, <- Htokens, <- Hlast, <- Hrate, <- Hburst.
  assert (forall t, same_bucket key (set_bucket mrl key t now)
                      (set_bucket mrl' key t now)) as Hset.
  { intros t. unfold same_bucket. cbn [set_bucket rate burst methods tokens last].
    by rewrite !lookup_insert_eq. }
  destruct (tokens mrl !! key) as [t|]; [|split; [done | apply Hset]].
  destruct (last mrl !! key) as [l|]; [|split; [done | apply Hset]].
  match goal with |- context [if ?b then _ else _] => destruct b end;
    [done | split; [done | apply Hset]].
Qed.

Lemma Allow_other_bucket (key : string) (mrl : MethodRateLimiter)
  (r : Request) (now : time.Time) :
  request_key r <> key -> same_bucket key (fst (fst (Allow mrl r now))) mrl.
Proof.
  intros Hkey.
  destruct (Allow_writes_request_key mrl r now) as [->|[t ->]];
    [apply same_bucket_refl|].
  unfold same_bucket. cbn [set_bucket rate burst methods tokens last].
  by rewrite !lookup_insert_ne.
Qed.

Lemma same_bucket_trans (key : string) (a b c : MethodRateLimiter) :
  same_bucket key a b -> same_bucket key b c -> same_bucket key a c.
Proof.
  intros (? & ? & ? & ? & ?) (? & ? & ? & ? & ?).
  repeat split; congruence.
Qed.

Lemma Allow_all_same_bucket (key : string) (calls : list (Request * time.Time))
  (mrl mrl' : MethodRateLimiter) :
  same_bucket key mrl mrl' ->
  same_bucket key (fst (Allow_all mrl calls))
    (fst (Allow_all mrl' (List.filter (for_key key) calls)))
  /\ map snd (List.filter (fun p => for_key key (fst p))
                (combine calls (snd (Allow_all mrl calls))))
     = snd (Allow_all mrl' (List.filter (for_key key) calls)).
Proof.
  revert mrl mrl'. induction calls as [|[r now] calls IH]; intros mrl mrl' Hsame.
  { by split. }
  set (own := fun p : Request * time.Time * (bool * option error) =>
                for_key key (fst p)).
  assert (forall res l, List.filter own ((r, now, res) :: l)
            = if for_key key (r, now) then (r, now, res) :: List.filter own l
              else List.filter own l) as Hown by reflexivity.
  change (List.filter (for_key key) ((r, now) :: calls))
    with (if for_key key (r, now) then (r, now) :: List.filter (for_key key) calls
          else List.filter (for_key key) calls).
  destruct (for_key key (r, now)) eqn:Hk; unfold for_key in Hk; cbn [fst] in Hk.
  - apply String.eqb_eq in Hk. cbn [Allow_all].
    destruct (Allow_same_bucket key mrl mrl' r now Hsame Hk) as [Hres Hnext].
    destruct (Allow mrl r now) as [[m1 r1] res1].
    destruct (Allow mrl' r now) as [[m1' r1'] res1']. cbn [fst snd] in Hres, Hnext.
    subst res1'. destruct (IH m1 m1' Hnext) as [IH1 IH2]. fold own in IH2.
    destruct (Allow_all m1 calls) as [m2 rest].
    destruct (Allow_all m1' (List.filter (for_key key) calls)) as [m2' rest'].
    cbn [fst snd combine] in *. rewrite Hown. cbn [map snd].
    split; [exact IH1 | by f_equal].
  - apply String.eqb_neq in Hk. cbn [Allow_all].
    pose proof (Allow_other_bucket key mrl r now Hk) as Hnext.
    destruct (Allow mrl r now) as [[m1 r1] res1]. cbn [fst] in Hnext.
    destruct (IH m1 mrl' (same_bucket_trans _ _ _ _ Hnext Hsame)) as [IH1 IH2].
    fold own in IH2.
    destruct (Allow_all m1 calls) as [m2 rest].
    cbn [fst snd combine] in *. rewrite Hown.
    split; [exact IH1 | exact IH2].
Qed.

(** X18: each bucket lives on its own: in any traffic, the answers to the
    requests for one bucket key, and the state of that bucket at the end,
    are what they would be had the other requests never been made. *)
Theorem Allow_all_isolated (key : string) (mrl : MethodRateLimiter)
  (calls : list (Request * time.Time)) :
  let own := List.filter (for_key key) calls in
  map snd (List.filter (fun p => for_key key (fst p))
             (combine calls (snd (Allow_all mrl calls))))
  = snd (Allow_all mrl own)
  /\ tokens (fst (Allow_all mrl calls)) !! key = tokens (fst (Allow_all mrl own)) !! key
  /\ last (fst (Allow_all mrl calls)) !! key = last (fst (Allow_all mrl own)) !! key.
Proof.
  intros own.
  destruct (Allow_all_same_bucket key calls mrl mrl (same_bucket_refl key mrl))
    as [(_ & _ & _ & Ht & Hl) Hres].
  done.
Qed.

End isolation.

(** ** Rounding from below *)
Section rounding_below.

Lemma Zdigits2_ge (mx : positive) (m k : Z) :
  0 <= k -> Zpos mx * 2 ^ k <= m -> Zpos (digits2_pos mx) + k <= Zdigits2 m.
Proof.
  intros Hk Hle. pose proof (pow2_pos k Hk) as Hpk.
  destruct m as [|p|p]; try lia. cbn [Zdigits2].
  pose proof (digits2_pos_bounds mx) as [Hx _].
  pose proof (digits2_pos_bounds p) as [_ Hp].
  assert (2 ^ (Zpos (digits2_pos mx) - 1 + k) < 2 ^ Zpos (digits2_pos p)) as Hlt.
  { rewrite pow2_split by lia. eapply Z.le_lt_trans; [|exact Hp].
    etrans; [|exact Hle]. apply Z.mul_le_mono_nonneg_r; lia. }
  apply Z.pow_lt_mono_r_iff in Hlt; lia.
Qed.

Lemma scale_le (a b ea eb k k' : Z) :
  k' <= k -> k <= ea -> k <= eb ->
  a * 2 ^ (ea - k) <= b * 2 ^ (eb - k) -> a * 2 ^ (ea - k') <= b * 2 ^ (eb - k').
Proof.
  intros Hk Ha Hb Hle.
  replace (ea - k') with ((ea - k) + (k - k')) by lia.
  replace (eb - k') with ((eb - k) + (k - k')) by lia.
  rewrite !pow2_split, !Z.mul_assoc by lia.
  apply Z.mul_le_mono_nonneg_r; [apply Z.lt_le_incl, pow2_pos; lia | exact Hle].
Qed.

Lemma unscale_le (a b ea eb k k' : Z) :
  k' <= k -> k <= ea -> k <= eb ->
  a * 2 ^ (ea - k') <= b * 2 ^ (eb - k') -> a * 2 ^ (ea - k) <= b * 2 ^ (eb - k).
Proof.
  intros Hk Ha Hb.
  replace (ea - k') with ((ea - k) + (k - k')) by lia.
  replace (eb - k') with ((eb - k) + (k - k')) by lia.
  rewrite !pow2_split, !Z.mul_assoc by lia.
  apply Z.mul_le_mono_pos_r. apply pow2_pos. lia.
Qed.

(** Rounding a value above a representable number does not fall below it,
    whatever the exponents the two are given with. *)
Lemma binary_round_aux_at_least (mx ex : Z) (lx : location) (mxx : positive)
  (exx k : Z) :
  bounded prec emax mxx exx = true -> k <= ex -> k <= exx ->
  Zpos mxx * 2 ^ (exx - k) <= mx * 2 ^ (ex - k) ->
  at_least (binary_round_aux prec emax false mx ex lx) mxx exx.
Proof.
  intros Hb Hkx Hkxx Hle. apply bounded_spec in Hb as [Hcan Hmax].
  assert (emin <= exx) as Hemin.
  { rewrite <- Hcan. unfold fexp. lia. }
  destruct (Z_le_gt_dec exx ex) as [Hex|Hex].
  { apply binary_round_aux_lower; [exact Hemin | exact Hex |].
    apply (unscale_le _ _ _ _ exx k) in Hle; try lia.
    by rewrite Z.sub_diag, Z.mul_1_r in Hle. }
  apply (unscale_le _ _ _ _ ex k) in Hle; try lia.
  rewrite Z.sub_diag, Z.mul_1_r in Hle.
  assert (0 < mx) as Hmx.
  { pose proof (pow2_pos (exx - ex) ltac:(lia)). nia. }
  unfold binary_round_aux.
  pose proof (shr_fexp_spec mx ex lx ltac:(lia)) as [Hm1 He1].
  destruct (shr_fexp prec emax mx ex lx) as [mrs1 e1]. cbn [fst snd] in Hm1, He1.
  pose proof (Zdigits2_ge mxx mx (exx - ex) ltac:(lia) Hle) as Hd.
  pose proof (fexp_mono (Zpos (digits2_pos mxx) + exx) (Zdigits2 mx + ex)
                ltac:(lia)) as Hf.
  rewrite Hcan in Hf.
  set (f := fexp prec emax (Zdigits2 mx + ex)) in *.
  rewrite Z.max_r in Hm1, He1 by lia.
  assert (0 < shr_m mrs1 /\ (e1 = exx -> Zpos mxx <= shr_m mrs1)) as [Hp1 Hx1].
  { rewrite Hm1. split.
    - destruct (Z.eq_dec f exx) as [Heq|Hne].
      + assert (Zpos mxx <= mx / 2 ^ (f - ex)); [|lia].
        apply Z.div_le_lower_bound; [apply pow2_pos; lia|].
        rewrite Heq, Z.mul_comm. exact Hle.
      + destruct mx as [|p|p]; try lia. cbn [Zdigits2] in f.
        pose proof (digits2_pos_bounds p) as [Hp _].
        set (d := Zpos (digits2_pos p)) in *.
        assert (f = d + ex - prec) as Hfd by (unfold f, fexp in *; lia).
        assert (2 ^ 52 <= Zpos p / 2 ^ (f - ex)); [|lia].
        apply Z.div_le_lower_bound; [apply pow2_pos; lia|].
        rewrite Hfd. unfold prec in *. rewrite <- pow2_split by lia.
        replace (d + ex - 53 - ex + 52) with (d - 1) by lia. exact Hp.
    - intros Heq. apply Z.div_le_lower_bound; [apply pow2_pos; lia|].
      replace (f - ex) with (exx - ex) by lia. rewrite Z.mul_comm. exact Hle. }
  pose proof (round_nearest_even_bounds (shr_m mrs1) (loc_of_shr_record mrs1)) as Hr.
  set (m1 := round_nearest_even (shr_m mrs1) (loc_of_shr_record mrs1)) in *.
  pose proof (shr_fexp_spec m1 e1 loc_Exact ltac:(lia)) as [Hm2 He2].
  pose proof (shift_positive m1 e1 ltac:(lia) ltac:(lia)) as Hp2.
  destruct (shr_fexp prec emax m1 e1 loc_Exact) as [mrs2 e2]. cbn [fst snd] in Hm2, He2.
  set (n2 := Z.max 0 (fexp prec emax (Zdigits2 m1 + e1) - e1)) in *.
  rewrite <- Hm2 in Hp2.
  destruct (shr_m mrs2) as [|m2|m2] eqn:Em2; try lia.
  destruct (e2 <=? emax - prec); [|exact I].
  cbn [at_least]. destruct (Z.eq_dec e2 exx) as [Heq|Hne]; [right|left; lia].
  split; [exact Heq|].
  assert (n2 = 0 /\ e1 = exx) as (Hn2 & He1x) by lia.
  rewrite Hn2, Z.div_1_r in Hm2. specialize (Hx1 He1x). lia.
Qed.

Lemma binary_normalize_at_least (m e : Z) (mxx : positive) (exx k : Z)
  (szero : bool) :
  bounded prec emax mxx exx = true -> k <= e -> k <= exx ->
  Zpos mxx * 2 ^ (exx - k) <= m * 2 ^ (e - k) ->
  at_least (binary_normalize prec emax m e szero) mxx exx.
Proof.
  intros Hb Hke Hkx Hle.
  pose proof (pow2_pos (exx - k) ltac:(lia)) as H1.
  pose proof (pow2_pos (e - k) ltac:(lia)) as H2.
  destruct m as [|p|p]; [lia| |nia].
  cbn [binary_normalize]. unfold binary_round.
  pose proof (shl_align_spec p e (fexp prec emax (Zpos (digits2_pos p) + e)))
    as [Hez Hmz].
  destruct (shl_align p e (fexp prec emax (Zpos (digits2_pos p) + e))) as [mz ez].
  cbn [fst snd] in Hez, Hmz.
  apply (binary_round_aux_at_least _ _ _ _ _ (Z.min k ez)); [exact Hb | lia | lia |].
  rewrite Hmz, <- Hez, <- Z.mul_assoc, <- pow2_split by lia.
  replace (e - ez + (ez - Z.min k ez)) with (e - Z.min k ez) by lia.
  apply (scale_le _ _ _ _ k); first [exact Hle | lia].
Qed.

(** A valid number that is at least a power of two, by its mantissa. *)
Lemma at_least_power (mx : positive) (ex E k : Z) :
  bounded prec emax mx ex = true -> emin <= E ->
  at_least (S754_finite false mx ex) 4503599627370496 E ->
  k <= E -> E <= ex /\ 2 ^ 52 * 2 ^ (E - k) <= Zpos mx * 2 ^ (ex - k).
Proof.
  intros Hb HE Hat Hk. apply bounded_spec in Hb as [Hcan _].
  cbn [at_least] in Hat.
  assert (E <= ex /\ 2 ^ 52 <= Zpos mx) as [Hex Hmx].
  { destruct Hat as [Hlt|[-> Hle]]; [|split; [lia | exact Hle]].
    split; [lia|]. pose proof (digits2_pos_bounds mx) as [Hd _].
    assert (Zpos (digits2_pos mx) = 53) as Hdig by (unfold fexp, prec in *; lia).
    rewrite Hdig in Hd. exact Hd. }
  split; [exact Hex|].
  apply Z.mul_le_mono_nonneg; [lia | exact Hmx | |].
  - apply Z.lt_le_incl, pow2_pos. lia.
  - apply Z.pow_le_mono_r; lia.
Qed.

Lemma SF64add_at_least (x y : spec_float) (E : Z) :
  valid_binary x = true -> valid_binary y = true ->
  emin <= E <= emax - prec ->
  at_least x 4503599627370496 E -> nonneg_finite y ->
  at_least (SF64add x y) 4503599627370496 E
  /\ at_least (SF64add y x) 4503599627370496 E.
Proof.
  intros Hvx Hvy HE Hx Hy.
  destruct x as [sx|[]| |[] mx ex]; try done;
    destruct y as [sy|sy| |[] my ey]; try done.
  cbn [valid_binary] in Hvx, Hvy.
  unfold SF64add, SFadd. cbn [cond_Zopp].
  pose proof (shl_align_spec mx ex (Z.min ex ey)) as [Hex Hmx].
  pose proof (shl_align_spec my ey (Z.min ey ex)) as [Hey Hmy].
  pose proof (shl_align_spec mx ex (Z.min ey ex)) as [Hex' Hmx'].
  pose proof (shl_align_spec my ey (Z.min ex ey)) as [Hey' Hmy'].
  set (k := Z.min E (Z.min ex ey)).
  assert (k <= E /\ k <= ex /\ k <= ey) as (Hk1 & Hk2 & Hk3) by (unfold k; lia).
  clearbody k.
  destruct (at_least_power mx ex E k Hvx ltac:(lia) Hx Hk1) as [HEx Hle].
  assert (forall a b ez, ez = Z.min ex ey ->
            Zpos a = Zpos mx * 2 ^ (ex - ez) ->
            2 ^ 52 * 2 ^ (E - k) <= (Zpos a + Zpos b) * 2 ^ (ez - k)) as Hsum.
  { intros a b ez -> Ha. etrans; [exact Hle|].
    rewrite Z.mul_add_distr_r, Ha, <- Z.mul_assoc, <- pow2_split by lia.
    replace (ex - Z.min ex ey + (Z.min ex ey - k)) with (ex - k) by lia.
    pose proof (pow2_pos (Z.min ex ey - k) ltac:(lia)). nia. }
  split; apply (binary_normalize_at_least _ _ _ _ k);
    try (apply bounded_power; exact HE); try lia.
  - apply Hsum; [reflexivity|]. rewrite Hmx.
    by replace (Z.min ex (Z.min ex ey)) with (Z.min ex ey) by lia.
  - rewrite Z.add_comm. rewrite (Z.min_comm ey ex).
    apply Hsum; [reflexivity|]. rewrite Hmx.
    by replace (Z.min ex (Z.min ex ey)) with (Z.min ex ey) by lia.
Qed.

Lemma SF64mul_at_least_one (x y : spec_float) :
  valid_binary x = true -> valid_binary y = true ->
  at_least x 4503599627370496 (-52) -> at_least y 4503599627370496 (-52) ->
  y <> S754_infinity false ->
  at_least (SF64mul x y) 4503599627370496 (-52).
Proof.
  intros Hvx Hvy Hx Hy Hfin.
  destruct x as [sx|[]| |[] mx ex]; try done;
    destruct y as [sy|[]| |[] my ey]; try done.
  cbn [valid_binary] in Hvx, Hvy.
  assert (emin <= -52) as Hemin by (unfold SpecFloat.emin, emax, prec; lia).
  destruct (at_least_power mx ex (-52) (-52) Hvx Hemin Hx ltac:(lia)) as [Hex Hmx].
  destruct (at_least_power my ey (-52) (-52) Hvy Hemin Hy ltac:(lia)) as [Hey Hmy].
  rewrite Z.sub_diag, Z.mul_1_r in Hmx, Hmy.
  unfold SF64mul, SFmul. cbn [xorb].
  apply (binary_round_aux_at_least _ _ _ _ _ (-104)); [|lia|lia|].
  - apply bounded_power. unfold SpecFloat.emin, emax, prec. lia.
  - rewrite Pos2Z.inj_mul.
    pose proof (pow2_pos (ex - -52) ltac:(lia)) as Hpx.
    pose proof (pow2_pos (ey - -52) ltac:(lia)) as Hpy.
    replace (ex + ey - -104) with ((ex - -52) + (ey - -52)) by lia.
    rewrite pow2_split by lia.
    change (2 ^ (-52 - -104)) with (2 ^ 52).
    transitivity ((Zpos mx * 2 ^ (ex - -52)) * (Zpos my * 2 ^ (ey - -52))); [|lia].
    apply Z.mul_le_mono_nonneg; lia.
Qed.

End rounding_below.

(** ** A bucket refills *)
Section refill_facts.
Import ratelimiter.
Context `{Decoder}.

Lemma at_least_of_not_below (x : float) :
  finite x -> (x <? 1)%float = false ->
  at_least (Prim2SF x) 4503599627370496 (-52).
Proof.
  unfold finite. rewrite ltb_spec, Prim2SF_one. intros Hfin Hlt.
  destruct (Prim2SF x) as [s|s| |[] m e]; try done.
  apply not_below_one in Hlt. exact Hlt.
Qed.

Lemma binary_normalize_nonneg (m e : Z) :
  0 <= m -> exponent_at_most (binary_normalize prec emax m e false) 11 ->
  nonneg_finite (binary_normalize prec emax m e false).
Proof.
  intros Hm Hfin. destruct m as [|p|p]; [exact I| |lia].
  cbn [binary_normalize] in *. unfold binary_round in *.
  destruct (shl_align p e (fexp prec emax (Zpos (digits2_pos p) + e))) as [mz ez].
  pose proof (binary_round_aux_sign false (Zpos mz) ez loc_Exact) as Hs.
  destruct (binary_round_aux prec emax false (Zpos mz) ez loc_Exact); try done.
  by subst.
Qed.

Lemma float64_of_int_nonneg (z : Z) :
  0 <= z -> nonneg_finite (Prim2SF (float64_of_int z)).
Proof.
  intros Hz. unfold float64_of_int.
  destruct (Z.eqb_spec z (- 2 ^ 63)) as [->|_]; [lia|].
  destruct (Z.ltb_spec z 0); [lia|].
  pose proof (of_uint63_exponent (Uint63.of_Z z)) as Hfin.
  rewrite of_uint63_spec in *.
  apply binary_normalize_nonneg; [|exact Hfin].
  pose proof (Uint63.to_Z_bounded (Uint63.of_Z z)). lia.
Qed.

Lemma SF64div_nonneg (x : spec_float) (my : positive) (ey : Z) :
  nonneg_finite x -> finite_SF (SF64div x (S754_finite false my ey)) ->
  nonneg_finite (SF64div x (S754_finite false my ey)).
Proof.
  destruct x as [sx|sx| |[] mx ex]; try done.
  unfold SF64div, SFdiv. cbn [xorb].
  destruct (SFdiv_core_binary prec emax (Zpos mx) ex (Zpos my) ey) as [[mz ez] lz].
  pose proof (binary_round_aux_sign false mz ez lz) as Hs. intros _.
  destruct (binary_round_aux prec emax false mz ez lz); try done. by subst.
Qed.

Lemma Sub_range (t u : time.Time) : - 2 ^ 63 <= time.Sub t u < 2 ^ 63.
Proof.
  unfold time.Sub, time.subMono, time.maxDuration, time.minDuration.
  assert (- 2 ^ 63 <= time.int64 (time.ext t - time.ext u) < 2 ^ 63) as Hr.
  { unfold time.int64.
    pose proof (Z.mod_pos_bound (time.ext t - time.ext u + 2 ^ 63) (2 ^ 64)
                  ltac:(lia)). lia. }
  repeat match goal with |- context [if ?b then _ else _] => destruct b end; lia.
Qed.

(** A duration of a second or more is at least one, in seconds. *)
Lemma Seconds_at_least_one (d : time.Duration) :
  time.Second <= d < 2 ^ 63 ->
  at_least (Prim2SF (time.Seconds d)) 4503599627370496 (-52).
Proof.
  intros Hd. unfold time.Seconds. change time.Second with 1000000000 in *.
  set (a := float64_of_int (Z.quot d 1000000000)).
  set (b := float64_of_int (Z.rem d 1000000000)).
  pose proof (Z.quot_rem' d 1000000000) as Hqr.
  pose proof (Z.rem_bound_pos d 1000000000 ltac:(lia) ltac:(lia)) as Hr.
  assert (1 <= Z.quot d 1000000000 < 2 ^ 63) as Hq.
  { change (2 ^ 63) with 9223372036854775808 in *. lia. }
  assert (at_least (Prim2SF a) 4503599627370496 (-52)) as Ha.
  { apply at_least_of_not_below; [apply float64_of_int_finite|].
    by apply float64_of_int_not_below_one. }
  assert (nonneg_finite (Prim2SF (b / 1e9))) as Hb.
  { pose proof (Prim2SF_valid b) as Hvb. rewrite div_spec.
    change (Prim2SF 1e9) with (S754_finite false 8388608000000000 (-23)).
    apply SF64div_nonneg; [apply float64_of_int_nonneg; lia|].
    eapply exponent_at_most_finite.
    apply (SF64div_exponent _ _ _ _ 11); [exact Hvb | apply float64_of_int_exponent | |].
    - change (2 ^ 52) with 4503599627370496. lia.
    - unfold SpecFloat.emin, emax, prec. lia. }
  rewrite add_spec.
  apply (SF64add_at_least _ _ (-52) (Prim2SF_valid a) (Prim2SF_valid (b / 1e9))
           ltac:(unfold SpecFloat.emin, emax, prec; lia) Ha Hb).
Qed.

Lemma in_range_nonneg (burst : Z) (t : float) :
  in_range burst t -> nonneg_finite (Prim2SF t).
Proof.
  unfold in_range. rewrite !leb_spec, Prim2SF_zero. intros [H0 Hb].
  pose proof (float64_of_int_finite burst) as Hfin. unfold finite in Hfin.
  destruct (Prim2SF t) as [s|[]| |[] m e]; try done.
  by destruct (Prim2SF (float64_of_int burst)) as [?|[]| |[] ? ?].
Qed.

Lemma at_least_of_not_below_number (r : spec_float) :
  r <> S754_nan -> SFltb r SF_one = false ->
  at_least r 4503599627370496 (-52).
Proof.
  intros Hnan Hlt. destruct r as [s|[]| |[] m e]; try done.
  apply not_below_one in Hlt. exact Hlt.
Qed.

(** When the tokens earned since the last refill are one or more, the
    refilled count is. *)
Lemma refill_earned (rate : float) (burst : Z) (t : float) (d : time.Duration) :
  1 <= burst < 2 ^ 63 -> is_finite rate = true -> in_range burst t ->
  (time.Seconds d * rate <? 1)%float = false ->
  (refill rate burst t (time.Seconds d) <? 1)%float = false.
Proof.
  intros Hburst Hfin Ht Hearned. unfold refill.
  destruct (float64_of_int burst <? t + time.Seconds d * rate)%float.
  { by apply float64_of_int_not_below_one. }
  rewrite ltb_spec, Prim2SF_one in *. apply at_least_one.
  rewrite add_spec.
  assert (emin <= -52 <= emax - prec) as HE
    by (unfold SpecFloat.emin, emax, prec; lia).
  refine (proj2 (SF64add_at_least _ (Prim2SF t) (-52)
                   (Prim2SF_valid (time.Seconds d * rate)) (Prim2SF_valid t) HE _
                   (in_range_nonneg burst t Ht))).
  apply at_least_of_not_below_number; [|exact Hearned].
  rewrite mul_spec. apply SF64mul_number; [apply Seconds_finite|].
  by apply is_finite_finite.
Qed.

Lemma earned_after_one_second (rate : float) (d : time.Duration) :
  is_finite rate = true -> (rate <? 1)%float = false ->
  time.Second <= d < 2 ^ 63 ->
  (time.Seconds d * rate <? 1)%float = false.
Proof.
  intros Hfin Hrate Hd.
  rewrite ltb_spec, Prim2SF_one, mul_spec. apply at_least_one.
  apply SF64mul_at_least_one; try apply Prim2SF_valid.
  - by apply Seconds_at_least_one.
  - apply at_least_of_not_below; [by apply is_finite_finite | exact Hrate].
  - apply is_finite_finite in Hfin. unfold finite in Hfin. intros Heq.
    by rewrite Heq in Hfin.
Qed.

(** X19: a request for a limited method is admitted as soon as the tokens
    earned since the last refill of its bucket, the seconds elapsed times
    the rate, are one or more: the count left in the bucket is never
    negative, and adding to it does not fall below what is added. *)
Theorem Allow_earned_token (rate : float) (burst : Z)
  (calls : list (Request * time.Time)) (r : Request) (now : time.Time)
  (t : float) (l : time.Time) :
  1 <= burst < 2 ^ 63 -> is_finite rate = true ->
  let mrl := fst (Allow_all (NewMethodRateLimiter rate burst) calls) in
  limited mrl r ->
  tokens mrl !! request_key r = Some t -> last mrl !! request_key r = Some l ->
  (time.Seconds (time.Sub now l) * rate <? 1)%float = false ->
  snd (Allow mrl r now) = (true, None).
Proof.
  intros Hburst Hfin mrl Hr Ht Hl Hearned.
  destruct (Allow_all_stored_ok calls (NewMethodRateLimiter rate burst) Hburst)
    as (Hrate' & Hburst' & Hok).
  { intros key t0. cbn [NewMethodRateLimiter tokens]. by rewrite lookup_empty. }
  fold mrl in Hrate', Hburst', Hok.
  cbn [NewMethodRateLimiter ratelimiter.rate ratelimiter.burst] in Hrate', Hburst', Hok.
  destruct (Hok _ _ Ht) as [_ Hin]. specialize (Hin Hfin).
  unfold limited in Hr. unfold request_key in Ht, Hl.
  rewrite (Allow_limited mrl _ _ r now Hr). cbn zeta. rewrite Ht, Hl.
  unfold refilled. rewrite Hrate', Hburst'.
  by rewrite refill_earned.
Qed.

(** X20: no client is shut out for long: with a finite rate of one token a
    second or more, a request for a limited method that comes a second or
    more after the last refill of its bucket is admitted, however many
    requests were denied in between. *)
Theorem Allow_after_one_second (rate : float) (burst : Z)
  (calls : list (Request * time.Time)) (r : Request) (now : time.Time)
  (t : float) (l : time.Time) :
  1 <= burst < 2 ^ 63 -> is_finite rate = true -> (rate <? 1)%float = false ->
  let mrl := fst (Allow_all (NewMethodRateLimiter rate burst) calls) in
  limited mrl r ->
  tokens mrl !! request_key r = Some t -> last mrl !! request_key r = Some l ->
  time.Second <= time.Sub now l ->
  snd (Allow mrl r now) = (true, None).
Proof.
  intros Hburst Hfin Hrate mrl Hr Ht Hl Hd.
  destruct (Allow_all_stored_ok calls (NewMethodRateLimiter rate burst) Hburst)
    as (Hrate' & Hburst' & Hok).
  { intros key t0. cbn [NewMethodRateLimiter tokens]. by rewrite lookup_empty. }
  fold mrl in Hrate', Hburst', Hok.
  cbn [NewMethodRateLimiter ratelimiter.rate ratelimiter.burst] in Hrate', Hburst', Hok.
  destruct (Hok _ _ Ht) as [_ Hin]. specialize (Hin Hfin).
  unfold limited in Hr. unfold request_key in Ht, Hl.
  rewrite (Allow_limited mrl _ _ r now Hr). cbn zeta. rewrite Ht, Hl.
  unfold refilled. rewrite Hrate', Hburst'.
  rewrite refill_earned; try done.
  apply earned_after_one_second; try done.
  split; [exact Hd | apply Sub_range].
Qed.

End refill_facts.

(** ** The handler *)
Section handler_facts.
Import ratelimiter main.
Context `{Decoder}.

(** X21: a request that is not admitted never reaches a backend and leaves
    no trace in the limiter: the handler answers 500 when [Allow] returns an
    error and 429 when it denies, whatever the dispatch would do, and the
    limiter after the call is the limiter before it. *)
Theorem handler_rejects (ServeHTTP : Request -> Response)
  (mrl : MethodRateLimiter) (r : Request) (now : time.Time) :
  snd (Allow mrl r now) <> (true, None) ->
  (forall ServeHTTP', handler ServeHTTP' mrl r now = handler ServeHTTP mrl r now)
  /\ fst (handler ServeHTTP mrl r now) = mrl
  /\ ((exists e, snd (Allow mrl r now) = (false, Some e)
       /\ snd (handler ServeHTTP mrl r now)
          = http_Error "Error checking rate limit" StatusInternalServerError)
      \/ (snd (Allow mrl r now) = (false, None)
          /\ snd (handler ServeHTTP mrl r now)
             = http_Error "Rate limit exceeded or request body too large"
                 StatusTooManyRequests)).
Proof.
  intros Hrej.
  assert ((exists r', Allow mrl r now = (mrl, r', (false, None)))
          \/ (exists r' e, Allow mrl r now = (mrl, r', (false, Some e)))) as Hcases.
  { revert Hrej. unfold Allow, ioutil_ReadAll.
    repeat match goal with
    | |- context [if ?b then _ else _] => destruct b
    | |- context [match ?x with _ => _ end] => destruct x
    end; cbn [snd]; intros Hrej; try done; eauto. }
  unfold handler.
  destruct Hcases as [[r' ->]|(r' & e & ->)]; cbn [negb fst snd].
  - split; [done|]. split; [done|]. by right.
  - split; [done|]. split; [done|]. left. by exists e.
Qed.

End handler_facts.

(** ** Entries of the store without a backend *)
Section stale_entries.
Import backend balancer.

(** X22: the scan takes no account of the registry: when the first entry of
    least latency has a key that no registered backend prints, a field left
    in the store by an earlier run for example, the selection fails, with
    "backend not found" (or "no backend selected" for an empty key), even
    though other entries of the snapshot belong to registered backends. *)
Theorem NextBackend_stale_entry (lb : LoadBalancer)
  (before : list (string * string)) (entry : string * string)
  (after : list (string * string)) :
  first_least before entry after = true ->
  backends lb <> [] ->
  (forall b, b ∈ backends lb -> url.URL_String (URL b) <> fst entry) ->
  NextBackend lb (before ++ entry :: after, None)
  = (None, Some (errors_New (if String.eqb (fst entry) ""
                             then "no backend selected"
                             else "backend not found"))).
Proof.
  intros Hfl Hbs Hnone. unfold NextBackend.
  destruct (backends lb) as [|b0 bs] eqn:Hb; [done|]. cbn [length Nat.eqb].
  rewrite (fold_scan_first_least _ _ _ Hfl).
  destruct (String.eqb (fst entry) ""); [reflexivity|].
  destruct (lookup_backend (b0 :: bs) (fst entry)) as [b|] eqn:Hlook; [|reflexivity].
  apply lookup_backend_elem in Hlook as [Hin Hurl]. by destruct (Hnone b Hin).
Qed.

End stale_entries.

(** ** Whole numbers of tokens *)
Section exact_counts.

Lemma shr_1_even (m : Z) :
  0 <= m ->
  shr_1 {| shr_m := 2 * m; shr_r := false; shr_s := false |}
  = {| shr_m := m; shr_r := false; shr_s := false |}.
Proof. intros Hm. destruct m as [|p|p]; [reflexivity | reflexivity | lia]. Qed.

(** Shifting out zeros is exact. *)
Lemma iter_shr_1_exact (p : positive) (m : Z) :
  0 <= m ->
  SpecFloat.iter_pos shr_1 p
    {| shr_m := m * 2 ^ Zpos p; shr_r := false; shr_s := false |}
  = {| shr_m := m; shr_r := false; shr_s := false |}.
Proof.
  revert m. induction p as [p IH|p IH|]; intros m Hm; cbn [SpecFloat.iter_pos].
  - assert (0 < 2 ^ Zpos p) by (apply pow2_pos; lia).
    rewrite pow2_xI.
    replace (m * (2 * (2 ^ Zpos p * 2 ^ Zpos p)))
      with (2 * (m * 2 ^ Zpos p * 2 ^ Zpos p)) by lia.
    rewrite shr_1_even by nia. rewrite IH by nia. by rewrite IH.
  - assert (0 < 2 ^ Zpos p) by (apply pow2_pos; lia).
    rewrite pow2_xO, Z.mul_assoc. rewrite IH by nia. by rewrite IH.
  - change (2 ^ 1) with 2. rewrite Z.mul_comm. by apply shr_1_even.
Qed.

Lemma digits2_pos_shift (m : positive) (d : positive) :
  Zpos (digits2_pos (Pos.iter xO m d)) = Zpos (digits2_pos m) + Zpos d.
Proof.
  induction d as [|d IH] using Pos.peano_ind.
  - cbn [Pos.iter digits2_pos]. lia.
  - rewrite Pos.iter_succ. cbn [digits2_pos]. lia.
Qed.

Lemma Zdigits2_shift (m : positive) (n : Z) :
  0 <= n -> Zdigits2 (Zpos m * 2 ^ n) = Zpos (digits2_pos m) + n.
Proof.
  intros Hn. destruct n as [|d|d]; [|clear Hn|lia].
  - rewrite Z.mul_1_r, Z.add_0_r. reflexivity.
  - rewrite <- iter_xO. cbn [Zdigits2]. apply digits2_pos_shift.
Qed.

(** A representable number is its own rounding, whatever the exponent it is
    given with. *)
Lemma binary_round_aux_exact (s : bool) (m : positive) (e n : Z) :
  bounded prec emax m e = true -> 0 <= n ->
  binary_round_aux prec emax s (Zpos m * 2 ^ n) (e - n) loc_Exact
  = S754_finite s m e.
Proof.
  intros Hb Hn. apply bounded_spec in Hb as [Hcan Hmax].
  unfold binary_round_aux.
  assert (shr_fexp prec emax (Zpos m * 2 ^ n) (e - n) loc_Exact
          = ({| shr_m := Zpos m; shr_r := false; shr_s := false |}, e)) as ->.
  { unfold shr_fexp. rewrite Zdigits2_shift by exact Hn.
    replace (Zpos (digits2_pos m) + n + (e - n)) with (Zpos (digits2_pos m) + e) by lia.
    rewrite Hcan. replace (e - (e - n)) with n by lia.
    cbn [shr_record_of_loc]. destruct n as [|d|d]; [| |lia]; cbn [shr].
    - rewrite Z.mul_1_r, Z.sub_0_r. reflexivity.
    - rewrite iter_shr_1_exact by lia. f_equal. lia. }
  cbn [shr_m loc_of_shr_record round_nearest_even].
  assert (shr_fexp prec emax (Zpos m) e loc_Exact
          = ({| shr_m := Zpos m; shr_r := false; shr_s := false |}, e)) as ->.
  { unfold shr_fexp. cbn [Zdigits2]. rewrite Hcan, Z.sub_diag. reflexivity. }
  cbn [shr_m]. apply Z.leb_le in Hmax. by rewrite Hmax.
Qed.

Lemma binary_round_exact (s : bool) (p : positive) (e : Z) (m : positive) (e0 : Z) :
  bounded prec emax m e0 = true ->
  (e0 <= e /\ Zpos m = Zpos p * 2 ^ (e - e0))
  \/ (e <= e0 /\ Zpos p = Zpos m * 2 ^ (e0 - e)) ->
  binary_round prec emax s p e = S754_finite s m e0.
Proof.
  intros Hb Hval. pose proof (bounded_spec m e0 Hb) as [Hcan Hmax].
  unfold binary_round.
  pose proof (shl_align_spec p e (fexp prec emax (Zpos (digits2_pos p) + e)))
    as [Hez Hmz].
  destruct (shl_align p e (fexp prec emax (Zpos (digits2_pos p) + e))) as [mz ez].
  cbn [fst snd] in Hez, Hmz.
  assert (Zpos (digits2_pos p) + e = Zpos (digits2_pos m) + e0) as Hd.
  { destruct Hval as [[He Hv]|[He Hv]].
    - pose proof (Zdigits2_shift p (e - e0) ltac:(lia)) as Hs.
      rewrite <- Hv in Hs. cbn [Zdigits2] in Hs. lia.
    - pose proof (Zdigits2_shift m (e0 - e) ltac:(lia)) as Hs.
      rewrite <- Hv in Hs. cbn [Zdigits2] in Hs. lia. }
  rewrite Hd, Hcan in Hez, Hmz.
  destruct Hval as [[He Hv]|[He Hv]].
  - rewrite Z.min_r in Hez, Hmz by lia. subst ez.
    assert (mz = m) as -> by lia.
    pose proof (binary_round_aux_exact s m e0 0 Hb ltac:(lia)) as Hr.
    by rewrite Z.mul_1_r, Z.sub_0_r in Hr.
  - rewrite Z.min_l in Hez, Hmz by lia. subst ez.
    rewrite Z.sub_diag, Z.mul_1_r in Hmz.
    pose proof (binary_round_aux_exact s m e0 (e0 - e) Hb ltac:(lia)) as Hr.
    replace (e0 - (e0 - e)) with e in Hr by lia.
    rewrite <- Hv, <- Hmz in Hr. exact Hr.
Qed.

(** A positive integer below [2^53], as a binary64 number. *)
Lemma whole_number (k : Z) :
  1 <= k < 2 ^ 53 ->
  exists (m : positive) (e : Z),
    bounded prec emax m e = true /\ -52 <= e <= 0 /\ Zpos m = k * 2 ^ (- e)
    /\ binary_normalize prec emax k 0 false = S754_finite false m e.
Proof.
  intros Hk. destruct k as [|p|p]; try lia.
  pose proof (digits2_pos_bounds p) as [Hlo Hhi].
  set (d := Zpos (digits2_pos p)) in *.
  assert (1 <= d <= 53) as Hd.
  { split; [unfold d; lia|].
    assert (2 ^ (d - 1) < 2 ^ 53) as Hlt by lia.
    apply Z.pow_lt_mono_r_iff in Hlt; lia. }
  assert (0 < Zpos p * 2 ^ (53 - d)) as Hpos.
  { pose proof (pow2_pos (53 - d) ltac:(lia)). nia. }
  destruct (Zpos p * 2 ^ (53 - d)) as [|m|m] eqn:Hm; try lia.
  exists m, (d - 53).
  assert (bounded prec emax m (d - 53) = true) as Hb.
  { unfold bounded, canonical_mantissa.
    pose proof (Zdigits2_shift p (53 - d) ltac:(lia)) as Hs.
    rewrite Hm in Hs. cbn [Zdigits2] in Hs. fold d in Hs. rewrite Hs.
    apply andb_true_intro.
    split; [apply Z.eqb_eq | apply Z.leb_le]; unfold fexp, emin, emax, prec; lia. }
  split; [exact Hb|]. split; [lia|].
  replace (- (d - 53)) with (53 - d) by lia. split; [by rewrite Hm|].
  cbn [binary_normalize]. apply binary_round_exact; [exact Hb|].
  left. split; [lia|].
  replace (0 - (d - 53)) with (53 - d) by lia. by rewrite Hm.
Qed.

Lemma float64_of_int_whole (k : Z) :
  0 <= k < 2 ^ 53 ->
  Prim2SF (float64_of_int k) = binary_normalize prec emax k 0 false.
Proof.
  intros Hk. unfold float64_of_int.
  destruct (Z.eqb_spec k (- 2 ^ 63)) as [->|_]; [lia|].
  destruct (Z.ltb_spec k 0); [lia|].
  rewrite of_uint63_spec, Uint63.of_Z_spec.
  change Uint63.wB with (2 ^ 63). by rewrite Z.mod_small by lia.
Qed.

(** Taking a token from a whole count leaves the whole count below it. *)
Lemma sub_one_whole (k : Z) :
  1 <= k < 2 ^ 53 ->
  (float64_of_int k - 1)%float = float64_of_int (k - 1).
Proof.
  intros Hk.
  rewrite <- (SF2Prim_Prim2SF (float64_of_int k - 1)),
          <- (SF2Prim_Prim2SF (float64_of_int (k - 1))).
  f_equal. rewrite sub_spec, Prim2SF_one, !float64_of_int_whole by lia.
  destruct (whole_number k Hk) as (m & e & Hb & He & Hm & ->).
  unfold SF_one, SF64sub, SFsub. cbn [cond_Zopp].
  pose proof (shl_align_spec m e (Z.min e (-52))) as [_ Hm1].
  pose proof (shl_align_spec 4503599627370496 (-52) (Z.min e (-52))) as [_ Hm2].
  rewrite Hm1, Hm2.
  replace (Z.min e (Z.min e (-52))) with (-52) by lia.
  replace (Z.min (-52) (Z.min e (-52))) with (-52) by lia.
  replace (Z.min e (-52)) with (-52) by lia.
  rewrite Hm, <- Z.mul_assoc, <- pow2_split by lia.
  replace (- e + (e - -52)) with 52 by lia.
  change (-52 - -52) with 0. rewrite Z.mul_1_r.
  change (Zpos 4503599627370496) with (2 ^ 52).
  replace (k * 2 ^ 52 - 2 ^ 52) with ((k - 1) * 2 ^ 52) by lia.
  destruct (Z.eq_dec k 1) as [->|Hne]; [reflexivity|].
  destruct (whole_number (k - 1) ltac:(lia)) as (m' & e' & Hb' & He' & Hm' & ->).
  assert (0 < (k - 1) * 2 ^ 52) as Hpos by lia.
  destruct ((k - 1) * 2 ^ 52) as [|p|p] eqn:Hp; try lia.
  cbn [binary_normalize]. apply binary_round_exact; [exact Hb'|].
  right. split; [lia|]. rewrite <- Hp, Hm', <- Z.mul_assoc, <- pow2_split by lia.
  f_equal. f_equal. lia.
Qed.

End exact_counts.

Section burst_capacity.
Import ratelimiter.
Context `{Decoder}.

Lemma float_eq (x y : float) : Prim2SF x = Prim2SF y -> x = y.
Proof.
  intros Heq. rewrite <- (SF2Prim_Prim2SF x), <- (SF2Prim_Prim2SF y).
  by rewrite Heq.
Qed.

Lemma Seconds_zero : time.Seconds 0 = 0%float.
Proof. vm_compute. reflexivity. Qed.

(** With no time elapsed a whole count is refilled to itself. *)
Lemma refill_whole (rate : float) (burst j : Z) :
  is_finite rate = true -> 0 <= j < 2 ^ 53 ->
  (float64_of_int burst <? float64_of_int j)%float = false ->
  refill rate burst (float64_of_int j) (time.Seconds 0) = float64_of_int j.
Proof.
  intros Hfin Hj Hle. unfold refill.
  assert ((float64_of_int j + time.Seconds 0%Z * rate)%float = float64_of_int j) as ->;
    [|by rewrite Hle].
  apply float_eq. rewrite add_spec, mul_spec, Seconds_zero, Prim2SF_zero.
  apply is_finite_finite in Hfin. unfold finite in Hfin.
  rewrite float64_of_int_whole by exact Hj.
  destruct (Z.eq_dec j 0) as [->|Hne].
  - cbn [binary_normalize]. by destruct (Prim2SF rate) as [[]|?| |[] ? ?].
  - destruct (whole_number j ltac:(lia)) as (m & e & _ & _ & _ & ->).
    by destruct (Prim2SF rate) as [[]|?| |[] ? ?].
Qed.

Lemma same_elapsed_whole (rate : float) (burst : Z) (n : nat) (j : Z) :
  is_finite rate = true -> 0 <= j < 2 ^ 53 ->
  (float64_of_int burst <? float64_of_int j)%float = false ->
  same_elapsed rate burst (time.Seconds 0) (float64_of_int j) n
  = repeat (true, None) (Nat.min n (Z.to_nat j))
    ++ repeat (false, None) (n - Z.to_nat j).
Proof.
  intros Hfin. revert j. induction n as [|n IH]; intros j Hj Hle; [reflexivity|].
  cbn [same_elapsed]. rewrite refill_whole by done.
  destruct (Z.eq_dec j 0) as [->|Hne].
  - change (float64_of_int 0 <? 1)%float with true. cbv iota.
    rewrite IH by done. change (Z.to_nat 0) with 0%nat.
    replace (Nat.min n 0) with 0%nat by lia.
    replace (n - 0)%nat with n by lia. reflexivity.
  - pose proof (float64_of_int_not_below_one j ltac:(lia)) as Hone.
    rewrite Hone.
    pose proof (sub_one_not_above _ _ Hone Hle) as Hle'.
    rewrite sub_one_whole in * by lia. rewrite IH by (done || lia).
    replace (Z.to_nat j) with (S (Z.to_nat (j - 1))) by lia. reflexivity.
Qed.

(** X23: a bucket holds [burst] tokens: of the requests a client makes at
    one instant for a limited method for which it has no bucket yet, the
    first [burst] are admitted and all the others are denied, for every
    burst from 1 to below [2^53] and every finite rate. *)
Theorem Allow_burst_capacity (mrl : MethodRateLimiter) (nodeId m : string)
  (now : time.Time) (rs : list Request) :
  is_finite (rate mrl) = true -> 1 <= burst mrl < 2 ^ 53 ->
  tokens mrl !! rateLimitKey nodeId m = None
  \/ last mrl !! rateLimitKey nodeId m = None ->
  Forall (limited_call mrl nodeId m) rs ->
  snd (Allow_all mrl (map (fun r => (r, now)) rs))
  = repeat (true, None) (Nat.min (length rs) (Z.to_nat (burst mrl)))
    ++ repeat (false, None) (length rs - Z.to_nat (burst mrl)).
Proof.
  intros Hfin Hburst Hfresh Hrs.
  destruct rs as [|r rs]; [reflexivity|].
  apply Forall_cons in Hrs as [Hr Hrs]. cbn [map Allow_all].
  rewrite (Allow_limited mrl nodeId m r now Hr). cbn zeta.
  set (mrl1 := set_bucket mrl (rateLimitKey nodeId m)
                 (float64_of_int (burst mrl) - 1)%float now).
  assert (snd (Allow_all mrl1 (map (fun r => (r, now)) rs))
          = repeat (true, None) (Nat.min (length rs) (Z.to_nat (burst mrl - 1)))
            ++ repeat (false, None) (length rs - Z.to_nat (burst mrl - 1))) as Hrest.
  { rewrite (Allow_all_same_instant nodeId m now rs mrl1
               (float64_of_int (burst mrl) - 1)%float).
    - change (rate mrl1) with (rate mrl). change (burst mrl1) with (burst mrl).
      pose proof (first_within_bounds (burst mrl) ltac:(lia)) as [Hle _].
      rewrite sub_one_whole in * by lia.
      apply same_elapsed_whole; [exact Hfin | lia | exact Hle].
    - apply lookup_insert_eq.
    - apply lookup_insert_eq.
    - eapply Forall_impl; [exact Hrs|]. intros r0. apply limited_call_set_bucket. }
  assert (match tokens mrl !! rateLimitKey nodeId m,
                last mrl !! rateLimitKey nodeId m with
          | Some _, Some _ => False
          | _, _ => True
          end) as Hnew.
  { destruct Hfresh as [-> | ->]; [done|]. by destruct (tokens mrl !! _). }
  replace (Z.to_nat (burst mrl)) with (S (Z.to_nat (burst mrl - 1))) by lia.
  destruct (tokens mrl !! rateLimitKey nodeId m) as [t|];
    [destruct (last mrl !! rateLimitKey nodeId m) as [l|]; [done|]|];
    fold mrl1; destruct (Allow_all mrl1 (map (fun r => (r, now)) rs)) as [mrl' rest];
    cbn [snd] in Hrest; subst rest; reflexivity.
Qed.

End burst_capacity.

Section bucket_bounds_exact.
Import ratelimiter.
Context `{Decoder}.

(** Up to [2^53] the burst is a binary64 number, and what is not above it
    as the code compares is not above it as a number. *)
Lemma not_above_int (burst : Z) (t : float) :
  1 <= burst < 2 ^ 53 ->
  (float64_of_int burst <? t)%float = false -> above_int t burst = false.
Proof.
  intros Hb. rewrite ltb_spec, float64_of_int_whole by lia.
  destruct (whole_number burst Hb) as (m & e & Hbd & He & Hm & ->).
  unfold above_int. pose proof (Prim2SF_valid t) as Hv.
  pose proof (bounded_spec m e Hbd) as [Hcan _].
  assert (2 ^ 52 <= Zpos m) as Hm52.
  { pose proof (digits2_pos_bounds m) as [Hd _].
    assert (Zpos (digits2_pos m) = 53) as Hdig
      by (unfold fexp, SpecFloat.emin, emax, prec in *; lia).
    by rewrite Hdig in Hd. }
  destruct (Prim2SF t) as [s|s| |s mt et]; cbn [valid_binary] in Hv.
  - intros _. apply Z.ltb_ge. lia.
  - by destruct s.
  - done.
  - pose proof (mantissa_bound mt et Hv) as Hmt.
    unfold SFltb, SFcompare. destruct s; cbn [cond_Zopp].
    + intros _. destruct (0 <=? et) eqn:Het; apply Z.ltb_ge.
      * apply Z.leb_le in Het. pose proof (pow2_pos et Het). nia.
      * apply Z.leb_gt in Het. pose proof (pow2_pos (- et) ltac:(lia)). nia.
    + rewrite compare_cont_Eq. intros Hcmp.
      assert (et < e \/ (et = e /\ Zpos mt <= Zpos m)) as Hle.
      { destruct (Z.compare_spec e et); [|done|left; lia].
        destruct (Z.compare_spec (Zpos m) (Zpos mt)); [right; lia|done|right; lia]. }
      destruct (0 <=? et) eqn:Het; apply Z.ltb_ge.
      * apply Z.leb_le in Het.
        assert (et = 0 /\ e = 0) as [-> ->] by lia.
        change (- 0) with 0 in Hm. change (2 ^ 0) with 1 in *. lia.
      * apply Z.leb_gt in Het.
        replace (- et) with (- e + (e - et)) by lia.
        rewrite pow2_split, Z.mul_assoc, <- Hm by lia.
        destruct Hle as [Hlt|[-> Hle]].
        -- assert (2 <= 2 ^ (e - et)).
           { change 2 with (2 ^ 1) at 1. apply Z.pow_le_mono_r; lia. }
           change (2 ^ 53) with (2 ^ 52 * 2) in Hmt. nia.
        -- rewrite Z.sub_diag. change (2 ^ 0) with 1. lia.
Qed.

(** C3 (for a burst of at least one): after every sequence of calls on a
    new limiter,
    - no stored token count is above [float64(burst)] and none is negative:
      as the comparisons of the code, which a NaN passes, and, where the
      rate is finite, as inequalities [0 <= t <= float64(burst)] that hold;
      for a burst below [2^53], which the conversion leaves as it is, no
      stored count is above the burst as a number;
    - the first call for a key (a client identity and a limited method with
      no bucket yet) is admitted without a test and stores
      [float64(burst) - 1], which is [burst - 1] for a burst below [2^53];
    - a call for an existing bucket is admitted only if the refilled count
      is not below one ([1 <= tokens] where the rate is finite), and the
      count then stored is that count less one. *)
Theorem bucket_within_bounds (rate : float) (burst : Z)
  (calls : list (Request * time.Time)) :
  1 <= burst < 2 ^ 63 ->
  let mrl := fst (Allow_all (NewMethodRateLimiter rate burst) calls) in
  (forall key t, tokens mrl !! key = Some t ->
     within_bounds burst t
     /\ (is_finite rate = true -> in_range burst t)
     /\ (burst < 2 ^ 53 -> above_int t burst = false))
  /\ (forall nodeId m r now,
        limited_call mrl nodeId m r ->
        tokens mrl !! rateLimitKey nodeId m = None
        \/ last mrl !! rateLimitKey nodeId m = None ->
        snd (Allow mrl r now) = (true, None)
        /\ tokens (fst (fst (Allow mrl r now))) !! rateLimitKey nodeId m
           = Some (float64_of_int burst - 1)%float
        /\ (burst < 2 ^ 53 ->
            (float64_of_int burst - 1)%float = float64_of_int (burst - 1)))
  /\ (forall nodeId m r now t l,
        limited_call mrl nodeId m r ->
        tokens mrl !! rateLimitKey nodeId m = Some t ->
        last mrl !! rateLimitKey nodeId m = Some l ->
        snd (Allow mrl r now) = (true, None) ->
        (refilled mrl t l now <? 1)%float = false
        /\ (is_finite rate = true -> (1 <=? refilled mrl t l now)%float = true)
        /\ tokens (fst (fst (Allow mrl r now))) !! rateLimitKey nodeId m
           = Some (refilled mrl t l now - 1)%float).
Proof.
  intros Hb mrl.
  destruct (Allow_all_stored_ok calls (NewMethodRateLimiter rate burst) Hb)
    as (Hrate & Hburst & Hinv).
  { intros key t. cbn [NewMethodRateLimiter tokens]. by rewrite lookup_empty. }
  fold mrl in Hrate, Hburst, Hinv.
  cbn [NewMethodRateLimiter ratelimiter.rate ratelimiter.burst] in Hrate, Hburst, Hinv.
  split; [|split].
  - intros key t Ht. destruct (Hinv key t Ht) as [Hw Hr].
    split; [exact Hw|]. split; [exact Hr|].
    intros H53. apply not_above_int; [lia | exact (proj1 Hw)].
  - intros nodeId m r now Hr Hfresh.
    rewrite (Allow_limited mrl nodeId m r now Hr). cbn zeta. rewrite Hburst.
    assert (match tokens mrl !! rateLimitKey nodeId m,
                  last mrl !! rateLimitKey nodeId m with
            | Some _, Some _ => False
            | _, _ => True
            end) as Hnew.
    { destruct Hfresh as [-> | ->]; [done|]. by destruct (tokens mrl !! _). }
    assert (burst < 2 ^ 53 ->
            (float64_of_int burst - 1)%float = float64_of_int (burst - 1)) as Hexact.
    { intros H53. apply sub_one_whole. lia. }
    destruct (tokens mrl !! rateLimitKey nodeId m) as [t|];
      [destruct (last mrl !! rateLimitKey nodeId m) as [l|]; [done|]|];
      cbn [fst snd set_bucket tokens]; by rewrite lookup_insert_eq.
  - intros nodeId m r now t l Hr Ht Hl.
    rewrite (Allow_limited mrl nodeId m r now Hr). cbn zeta. rewrite Ht, Hl.
    destruct (refilled mrl t l now <? 1)%float eqn:Hge; [discriminate|].
    intros _. split; [reflexivity|]. split.
    + unfold refilled in *. rewrite Hrate, Hburst in *.
      exact (proj2 (consumed_ok rate burst t _ (Hinv _ _ Ht) Hge)).
    + cbn [fst set_bucket tokens]. apply lookup_insert_eq.
Qed.

End bucket_bounds_exact.

(** ** The properties on concrete inputs *)
Section examples.
Import ratelimiter backend balancer main Example.

Example ParseDuration_examples :
  map time.ParseDuration
    ["10ms"; "1.5s"; "1h2m3.25s"; "0"; "-3us"; "123.456789ms"]%string
  = [(10000000, None); (1500000000, None); (3723250000000, None); (0, None);
     (-3000, None); (123456789, None)].
Proof. vm_compute. reflexivity. Qed.

Example ParseDuration_failures :
  map (fun s => fst (time.ParseDuration s)) [""; "abc"; "5"; "3 ms"; "."]%string
  = [0; 0; 0; 0; 0].
Proof. vm_compute. reflexivity. Qed.

Example flat_Unmarshal_examples :
  map flat_Unmarshal [body_of "eth_getChainId"; "method=eth_getChainId"]%string
  = [({| Method := "eth_getChainId" |}, None); syntax_error].
Proof. vm_compute. reflexivity. Qed.

Lemma limited_request_limited :
  limited_call methodRateLimiter "node-7" "eth_getChainId" limited_request.
Proof.
  unfold limited_call. repeat split; try (vm_compute; reflexivity). discriminate.
Defined.

Lemma NextBackend_empty_registry_witness :
  backends {| backends := [] |} = []
  /\ NextBackend {| backends := [] |} ([("http://a", "5ms")]%string, None)
     = (None, Some (errors_New "no backends available")).
Proof.
  split; [reflexivity|]. apply NextBackend_empty_registry. reflexivity.
Defined.

Lemma NextBackend_in_registry_witness :
  let lb := {| backends := [backend_of "http://a"; backend_of "http://b"] |} in
  let hgetall := ([("http://a", "10ms"); ("http://b", "5ms")]%string, None) in
  NextBackend lb hgetall = (Some (backend_of "http://b"), None)
  /\ backend_of "http://b" ∈ backends lb.
Proof.
  intros lb hgetall.
  assert (NextBackend lb hgetall = (Some (backend_of "http://b"), None)) as Hn
    by (vm_compute; reflexivity).
  split; [exact Hn|]. exact (NextBackend_in_registry lb hgetall _ _ Hn).
Defined.

Lemma Allow_all_anonymous_witness :
  let calls := [(anonymous_request, noon); (request "" "no json", noon)] in
  Forall (fun call => URL_Query_Id (fst call) = ""%string) calls
  /\ Allow_all methodRateLimiter calls
     = (methodRateLimiter, [(true, None); (true, None)]).
Proof.
  intros calls.
  assert (Forall (fun call => URL_Query_Id (fst call) = ""%string) calls) as Hc
    by (repeat constructor).
  split; [exact Hc|]. exact (Allow_all_anonymous methodRateLimiter calls Hc).
Defined.

(** A limiter whose bucket for [limited_request] is empty at [noon]. *)
Lemma Allow_denied_unchanged_witness :
  let mrl := set_bucket methodRateLimiter
               (rateLimitKey "node-7" "eth_getChainId") 0%float noon in
  let after := fst (fst (Allow mrl limited_request noon)) in
  snd (Allow mrl limited_request noon) = (false, None)
  /\ after = mrl /\ tokens after = tokens mrl /\ last after = last mrl.
Proof.
  intros mrl after.
  assert (snd (Allow mrl limited_request noon) = (false, None)) as Hd
    by (vm_compute; reflexivity).
  split; [exact Hd|].
  apply (Allow_denied_unchanged mrl after limited_request
           (snd (fst (Allow mrl limited_request noon))) noon None).
  unfold after. rewrite <- Hd.
  by destruct (Allow mrl limited_request noon) as [[? ?] ?].
Defined.

Lemma Allow_malformed_body_witness :
  let ServeHTTP := fun _ : Request => {| StatusCode := 200; message := "" |} in
  URL_Query_Id garbled_request <> ""%string
  /\ is_Some (snd (json_Unmarshal (content (Body garbled_request))))
  /\ (exists e, snd (Allow methodRateLimiter garbled_request noon) = (false, Some e))
  /\ StatusCode (snd (handler ServeHTTP methodRateLimiter garbled_request noon)) = 500.
Proof.
  intros ServeHTTP.
  assert (URL_Query_Id garbled_request <> ""%string) as Hid by discriminate.
  assert (is_Some (snd (json_Unmarshal (content (Body garbled_request))))) as Hbad
    by (vm_compute; eauto).
  destruct (Allow_malformed_body ServeHTTP methodRateLimiter garbled_request noon
              Hid (or_intror Hbad)) as (He & Hs & _).
  repeat split; assumption.
Defined.

Lemma AddBackend_store_error_witness :
  let lb := {| backends := [backend_of "http://a"] |} in
  let refused := errors_New "connection refused" in
  snd (url.Parse "http://b") = None
  /\ AddBackend lb ∅ (Some refused) "http://b"
     = ({| backends := [backend_of "http://a"; backend_of "http://b"] |},
        ∅, Some refused)
  /\ backend_of "http://b"
     ∈ backends (fst (fst (AddBackend lb ∅ (Some refused) "http://b"))).
Proof.
  intros lb refused.
  assert (AddBackend lb ∅ (Some refused) "http://b"
          = ({| backends := [backend_of "http://a"; backend_of "http://b"] |},
             ∅, Some refused)) as Ha by reflexivity.
  assert (snd (url.Parse "http://b") = None) as Hp by reflexivity.
  split; [exact Hp|]. split; [exact Ha|].
  destruct (AddBackend_store_error lb _ ∅ ∅ (Some refused) "http://b" refused
              Hp Ha) as (_ & _ & Hin & _).
  rewrite Ha. exact Hin.
Defined.

Lemma NextBackend_three_backends_witness :
  let responseTimes :=
    [("http://c", "20ms"); ("http://a", "10ms"); ("http://b", "5ms")]%string in
  let lb := {| backends := [backend_of "http://b"; backend_of "http://c";
                            backend_of "http://a"] |} in
  responseTimes ≡ₚ [("http://a", "10ms"); ("http://b", "5ms"); ("http://c", "20ms")]%string
  /\ backends lb ≡ₚ [backend_of "http://a"; backend_of "http://b"; backend_of "http://c"]
  /\ NextBackend lb (responseTimes, None) = (Some (backend_of "http://b"), None).
Proof.
  intros responseTimes lb.
  assert (backends lb
          ≡ₚ [backend_of "http://a"; backend_of "http://b"; backend_of "http://c"])
    as Hreg.
  { symmetry.
    apply (Permutation_cons_append [backend_of "http://b"; backend_of "http://c"]). }
  assert (responseTimes
          ≡ₚ [("http://a", "10ms"); ("http://b", "5ms"); ("http://c", "20ms")]%string)
    as Hp.
  { unfold responseTimes.
    apply (Permutation_cons_append [("http://a", "10ms"); ("http://b", "5ms")]%string). }
  split; [exact Hp|]. split; [exact Hreg|].
  apply (NextBackend_three_backends (backend_of "http://a") (backend_of "http://b")
           (backend_of "http://c") "10ms" "5ms" "20ms" lb responseTimes);
    [vm_compute; reflexivity | vm_compute; reflexivity | vm_compute; reflexivity
    | discriminate | exact Hreg | exact Hp].
Defined.

Lemma Allow_burst_then_deny_witness :
  let rs := repeat limited_request 61 in
  Forall (limited_call methodRateLimiter "node-7" "eth_getChainId") rs
  /\ snd (Allow_all methodRateLimiter (map (fun r => (r, noon)) rs))
     = repeat (true, None) 60 ++ [(false, None)].
Proof.
  intros rs.
  assert (Forall (limited_call methodRateLimiter "node-7" "eth_getChainId") rs) as Hrs
    by (repeat (constructor; [exact limited_request_limited|]); constructor).
  split; [exact Hrs|].
  apply (Allow_burst_then_deny methodRateLimiter "node-7" "eth_getChainId" noon rs);
    [reflexivity | reflexivity | left; reflexivity | exact Hrs | reflexivity].
Defined.

Lemma bucket_within_bounds_witness :
  let calls := [(limited_request, noon); (limited_request, noon)] in
  1 <= 60 < 2 ^ 63
  /\ forall key t,
       tokens (fst (Allow_all (NewMethodRateLimiter 10 60) calls)) !! key = Some t ->
       within_bounds 60 t /\ in_range 60 t /\ above_int t 60 = false.
Proof.
  intros calls.
  assert (1 <= 60 < 2 ^ 63) as Hb by (split; [discriminate | reflexivity]).
  split; [exact Hb|]. intros key t Ht.
  destruct (proj1 (bucket_within_bounds 10 60 calls Hb) key t Ht) as (Hw & Hr & Ha).
  split; [exact Hw|]. split; [exact (Hr eq_refl) | exact (Ha eq_refl)].
Defined.

(** Beyond [2^53] the conversion of the burst can round up: with the
    greatest burst the first call for a key stores [2^63], which is above
    the burst. *)
Example stored_count_above_burst :
  let burst := 2 ^ 63 - 1 in
  let mrl := NewMethodRateLimiter 10 burst in
  exists t,
    tokens (fst (fst (Allow mrl limited_request noon)))
      !! rateLimitKey "node-7" "eth_getChainId" = Some t
    /\ uint64_of_float64 t = 2 ^ 63
    /\ above_int t burst = true.
Proof. eexists. vm_compute. auto. Qed.

(** C3 fails without a bound on the burst: with burst 0 the first call for
    a key is admitted and leaves the negative count -1 in the bucket. *)
Lemma first_call_negative_count :
  let mrl := NewMethodRateLimiter 10 0 in
  limited_call mrl "node-7" "eth_getChainId" limited_request
  /\ snd (Allow mrl limited_request noon) = (true, None)
  /\ tokens (fst (fst (Allow mrl limited_request noon)))
       !! rateLimitKey "node-7" "eth_getChainId" = Some (-1)%float
  /\ (-1 <? 0)%float = true.
Proof.
  split; [exact limited_request_limited|]. vm_compute. auto.
Qed.

(** The rate has to be finite for the counts to be numbers: with a NaN rate
    the second call for a key finds a NaN count, which fails both tests
    [tokens > burst] and [tokens < 1], and is admitted. *)
Example nan_rate_passes :
  let mrl := fst (Allow_all (NewMethodRateLimiter nan 60) [(limited_request, noon)]) in
  snd (Allow mrl limited_request noon) = (true, None)
  /\ (Prim2SF <$> tokens (fst (fst (Allow mrl limited_request noon)))
                 !! rateLimitKey "node-7" "eth_getChainId") = Some S754_nan.
Proof. vm_compute. auto. Qed.

(** A tenth of a second after the bucket is drained, one more request of
    the key is admitted. *)
Example refill_after_100ms :
  let later := {| time.ext := time.ext noon + 100 * time.Millisecond |} in
  snd (Allow_all methodRateLimiter
         (map (fun r => (r, noon)) (repeat limited_request 61)
          ++ [(limited_request, later); (limited_request, later)]))
  = repeat (true, None) 60 ++ [(false, None); (true, None); (false, None)].
Proof. vm_compute. reflexivity. Qed.

(** A read that fails consumes the body, and the limiter does not replace
    it: the request comes back with what is left of the reader. *)
Example Allow_read_error_body :
  let e := errors_New "unexpected EOF" in
  let r := {| URL_Query_Id := "node-7"; Body := fails "{" e (ends "") |} in
  Allow methodRateLimiter r noon
  = (methodRateLimiter, set_Body r (ends ""), (false, Some e)).
Proof. reflexivity. Qed.

(** A read that succeeds consumes the body as well; the limiter puts a
    fresh reader over the bytes in its place. *)
Example Allow_replaces_body :
  let r' := snd (fst (Allow methodRateLimiter limited_request noon)) in
  snd (ioutil_ReadAll (Body limited_request)) = ends ""
  /\ fst (ioutil_ReadAll (Body r')) = (body_of "eth_getChainId", None).
Proof. split; reflexivity. Qed.

Lemma Allow_all_unlimited_witness :
  let calls := [(request "node-7" (body_of "eth_call"), noon);
                (request "node-8" (body_of "net_version"), noon)]%string in
  Forall (fun call => unlimited_call methodRateLimiter (fst call)) calls
  /\ Allow_all methodRateLimiter calls
     = (methodRateLimiter, [(true, None); (true, None)]).
Proof.
  intros calls.
  assert (Forall (fun call => unlimited_call methodRateLimiter (fst call)) calls) as Hc.
  { repeat constructor; try discriminate; vm_compute; reflexivity. }
  split; [exact Hc|]. exact (Allow_all_unlimited methodRateLimiter calls Hc).
Defined.

Lemma Allow_other_buckets_witness :
  let key := rateLimitKey "node-8" "eth_getChainId" in
  let mrl := fst (Allow_all methodRateLimiter [(request "node-8" (body_of "eth_getChainId"), noon)]) in
  key <> request_key limited_request
  /\ tokens (fst (fst (Allow mrl limited_request noon))) !! key = tokens mrl !! key.
Proof.
  intros key mrl.
  assert (key <> request_key limited_request) as Hk by (vm_compute; discriminate).
  split; [exact Hk|].
  exact (proj1 (Allow_other_buckets mrl limited_request noon key Hk)).
Defined.

Lemma NextBackend_first_least_witness :
  let lb := {| backends := [backend_of "http://a"; backend_of "http://b";
                            backend_of "http://c"] |} in
  first_least [("http://a", "10ms")] ("http://b", "5ms") [("http://c", "5ms")]%string
  = true
  /\ NextBackend lb ([("http://a", "10ms"); ("http://b", "5ms"); ("http://c", "5ms")]%string,
                     None)
     = (Some (backend_of "http://b"), None).
Proof.
  intros lb.
  assert (first_least [("http://a", "10ms")] ("http://b", "5ms")
            [("http://c", "5ms")]%string = true) as Hfl by (vm_compute; reflexivity).
  split; [exact Hfl|].
  apply (NextBackend_first_least lb [("http://a", "10ms")]%string
           ("http://b", "5ms")%string [("http://c", "5ms")]%string
           (backend_of "http://b") Hfl);
    [repeat constructor | reflexivity | discriminate].
Defined.

Lemma NextBackend_least_witness :
  let lb := {| backends := [backend_of "http://a"; backend_of "http://b"] |} in
  let hgetall := ([("http://a", "10ms"); ("http://b", "5ms")]%string, None) in
  NextBackend lb hgetall = (Some (backend_of "http://b"), None)
  /\ exists before s after,
       fst hgetall = before ++ ("http://b"%string, s) :: after
       /\ first_least before ("http://b"%string, s) after = true.
Proof.
  intros lb hgetall.
  assert (NextBackend lb hgetall = (Some (backend_of "http://b"), None)) as Hn
    by (vm_compute; reflexivity).
  split; [exact Hn|].
  exact (proj2 (proj2 (NextBackend_least lb hgetall _ _ Hn))).
Defined.

Lemma NextBackend_strictly_least_witness :
  let lb := {| backends := [backend_of "http://a"; backend_of "http://b";
                            backend_of "http://c"] |} in
  let others := [("http://a", "10ms"); ("http://c", "20ms")]%string in
  let responseTimes := others ++ [("http://b", "5ms")%string] in
  responseTimes ≡ₚ ("http://b", "5ms")%string :: others
  /\ NextBackend lb (responseTimes, None) = (Some (backend_of "http://b"), None).
Proof.
  intros lb others responseTimes.
  assert (responseTimes ≡ₚ ("http://b", "5ms")%string :: others) as Hp.
  { symmetry. apply Permutation_cons_append. }
  split; [exact Hp|].
  apply (NextBackend_strictly_least lb ("http://b", "5ms")%string others
           responseTimes (backend_of "http://b") Hp);
    [vm_compute; reflexivity | repeat constructor | reflexivity | discriminate].
Defined.

Lemma NextBackend_no_backend_selected_witness :
  let lb := {| backends := [backend_of "http://a"] |} in
  backends lb <> []
  /\ NextBackend lb ([], None) = (None, Some (errors_New "no backend selected")).
Proof.
  intros lb.
  assert (backends lb <> []) as Hb by discriminate.
  split; [exact Hb|].
  exact (proj2 (NextBackend_no_backend_selected lb [] Hb (Forall_nil_2 _)) eq_refl).
Defined.

Lemma NextBackend_succeeds_witness :
  let lb := {| backends := [backend_of "http://a"; backend_of "http://b"] |} in
  let responseTimes := [("http://a", "10ms"); ("http://b", "1.5s")]%string in
  responseTimes <> []
  /\ exists b s, NextBackend lb (responseTimes, None) = (Some b, None)
                 /\ b ∈ backends lb
                 /\ (url.URL_String (URL b), s) ∈ responseTimes.
Proof.
  intros lb responseTimes.
  assert (responseTimes <> []) as Hne by discriminate.
  split; [exact Hne|].
  apply (NextBackend_succeeds lb responseTimes Hne).
  repeat constructor; try discriminate.
  - exists (backend_of "http://a"). split; [repeat constructor | reflexivity].
  - exists (backend_of "http://b"). split; [repeat constructor | reflexivity].
Defined.

Lemma NextBackend_not_found_witness :
  let lb := {| backends := [backend_of "http://a"] |} in
  let responseTimes := [("HTTP://a", "0")]%string in
  backends lb <> [] /\ responseTimes <> []
  /\ NextBackend lb (responseTimes, None)
     = (None, Some (errors_New "backend not found")).
Proof.
  intros lb responseTimes.
  assert (backends lb <> []) as Hb by discriminate.
  assert (responseTimes <> []) as Hne by discriminate.
  split; [exact Hb|]. split; [exact Hne|].
  apply (NextBackend_not_found lb responseTimes Hb Hne).
  repeat constructor; try discriminate.
  intros b Hin. apply list_elem_of_singleton in Hin. subst b. discriminate.
Defined.

Lemma ServeHTTP_unavailable_witness :
  let lb := {| backends := [] |} in
  fst (NextBackend lb ([("http://a", "5ms")]%string, None)) = None
  /\ exists err,
       ServeHTTP proxy lb ∅ ([("http://a", "5ms")]%string, None) [] limited_request
         750 None
       = (∅, [StatusServiceUnavailable], [logRequest; logError err]).
Proof.
  intros lb.
  assert (fst (NextBackend lb ([("http://a", "5ms")]%string, None)) = None) as Hn
    by reflexivity.
  split; [exact Hn|].
  destruct (ServeHTTP_unavailable proxy lb ∅ ([("http://a", "5ms")]%string, None) []
              limited_request 750 None Hn) as (err & _ & Hs).
  exists err. exact Hs.
Defined.

Lemma ServeHTTP_proxied_witness :
  let lb := {| backends := [backend_of "http://a"; backend_of "http://down"] |} in
  let hgetall := ([("http://a", "10ms"); ("http://down", "5ms")]%string, None) in
  let h : gmap string string := <["http://down" := "5ms"]> (<["http://a" := "10ms"]> ∅) in
  NextBackend lb hgetall = (Some (backend_of "http://down"), None)
  /\ let '(h', w', log) := ServeHTTP proxy lb h hgetall [] limited_request 750 None in
     w' = [502]
     /\ log = [logRequest;
               logCompletedRequest 502 750 {| url.URL_String := "http://down" |}]
     /\ h' !! "http://down"%string = Some "750ns"%string
     /\ h' !! "http://a"%string = Some "10ms"%string.
Proof.
  intros lb hgetall h.
  assert (NextBackend lb hgetall = (Some (backend_of "http://down"), None)) as Hn
    by (vm_compute; reflexivity).
  split; [exact Hn|].
  pose proof (ServeHTTP_proxied proxy lb h hgetall [] limited_request 750 None
                _ _ Hn) as Hs.
  destruct (ServeHTTP proxy lb h hgetall [] limited_request 750 None) as [[h' w'] log].
  destruct Hs as (Hw & Hlog & Hrec & _ & Hother).
  split; [exact Hw|]. split; [exact Hlog|]. split; [exact (Hrec eq_refl)|].
  rewrite Hother; [reflexivity | discriminate].
Defined.

Lemma first_selection_witness :
  let started :=
    AddBackends {| backends := [] |} ∅ ((fun u => (u, None)) <$> backend_urls) in
  let snapshot := reverse (map_to_list (snd started)) in
  Forall (fun u => u <> ""%string /\ canonical u) backend_urls
  /\ snapshot ≡ₚ map_to_list (snd started)
  /\ NextBackend (fst started) (snapshot, None)
     = (Some (backend_of "http://ms-backend2:5002"), None).
Proof.
  intros started snapshot.
  assert (Forall (fun u => u <> ""%string /\ canonical u) backend_urls) as Hurls.
  { repeat constructor; discriminate. }
  assert (snapshot ≡ₚ map_to_list (snd started)) as Hperm
    by apply reverse_Permutation.
  split; [exact Hurls|]. split; [exact Hperm|].
  apply (first_selection None {| backends := [] |} backend_urls snapshot
           "http://ms-backend2:5002" "0"
           [("http://ms-backend:5001", "0"); ("http://ms-backend1:5000", "0");
            ("http://ms-backend3:5003", "0")]%string eq_refl Hurls Hperm).
  vm_compute. reflexivity.
Defined.

Lemma unprintable_endpoints_witness :
  let urls := ["HTTP://ms-backend:5001"]%string in
  let started :=
    @AddBackends scheme_Parser {| backends := [] |} ∅ ((fun u => (u, None)) <$> urls) in
  backends (fst started) = [backend_of "http://ms-backend:5001"]
  /\ NextBackend (fst started) (map_to_list (snd started), None)
     = (None, Some (errors_New "backend not found")).
Proof.
  intros urls started. split; [reflexivity|].
  apply (@unprintable_endpoints scheme_Parser urls (map_to_list (snd started)));
    [discriminate | | reflexivity].
  repeat constructor; try discriminate.
  intros u' Hin. apply list_elem_of_singleton in Hin. subst u'. discriminate.
Defined.

Lemma rateLimitKey_injective_witness :
  methods_index (NewMethodRateLimiter 10 60) "eth_getChainId" = true
  /\ methods_index (NewMethodRateLimiter 10 60) "eth_getBlockNumber" = true
  /\ rateLimitKey "node-7" "eth_getChainId" <> rateLimitKey "node" "eth_getBlockNumber".
Proof.
  assert (methods_index (NewMethodRateLimiter 10 60) "eth_getChainId" = true) as H1
    by (vm_compute; reflexivity).
  assert (methods_index (NewMethodRateLimiter 10 60) "eth_getBlockNumber" = true) as H2
    by (vm_compute; reflexivity).
  split; [exact H1|]. split; [exact H2|].
  apply (rateLimitKey_injective 10 60 _ _ _ _ H1 H2). discriminate.
Defined.

Lemma Allow_earned_token_witness :
  let calls := map (fun r => (r, noon)) (repeat limited_request 61) in
  let mrl := fst (Allow_all (NewMethodRateLimiter 10 60) calls) in
  let later := {| time.ext := time.ext noon + 100 * time.Millisecond |} in
  tokens mrl !! request_key limited_request = Some 0%float
  /\ snd (Allow mrl limited_request noon) = (false, None)
  /\ (time.Seconds (time.Sub later noon) * 10 <? 1)%float = false
  /\ snd (Allow mrl limited_request later) = (true, None).
Proof.
  intros calls mrl later.
  assert (1 <= 60 < 2 ^ 63) as Hb by (split; [discriminate | reflexivity]).
  assert (limited mrl limited_request) as Hr.
  { unfold limited, limited_call. repeat split; try (vm_compute; reflexivity).
    discriminate. }
  assert (tokens mrl !! request_key limited_request = Some 0%float) as Ht
    by (vm_compute; reflexivity).
  assert (last mrl !! request_key limited_request = Some noon) as Hl
    by (vm_compute; reflexivity).
  assert ((time.Seconds (time.Sub later noon) * 10 <? 1)%float = false) as He
    by (vm_compute; reflexivity).
  split; [exact Ht|]. split; [vm_compute; reflexivity|]. split; [exact He|].
  exact (Allow_earned_token 10 60 calls limited_request later 0%float noon
           Hb eq_refl Hr Ht Hl He).
Defined.

Lemma Allow_after_one_second_witness :
  let calls := map (fun r => (r, noon)) (repeat limited_request 61) in
  let mrl := fst (Allow_all (NewMethodRateLimiter 10 60) calls) in
  let later := {| time.ext := time.ext noon + time.Second |} in
  time.Second <= time.Sub later noon
  /\ snd (Allow mrl limited_request later) = (true, None).
Proof.
  intros calls mrl later.
  assert (1 <= 60 < 2 ^ 63) as Hb by (split; [discriminate | reflexivity]).
  assert (limited mrl limited_request) as Hr.
  { unfold limited, limited_call. repeat split; try (vm_compute; reflexivity).
    discriminate. }
  assert (tokens mrl !! request_key limited_request = Some 0%float) as Ht
    by (vm_compute; reflexivity).
  assert (last mrl !! request_key limited_request = Some noon) as Hl
    by (vm_compute; reflexivity).
  assert (time.Second <= time.Sub later noon) as Hd by (vm_compute; discriminate).
  split; [exact Hd|].
  exact (Allow_after_one_second 10 60 calls limited_request later 0%float noon
           Hb eq_refl eq_refl Hr Ht Hl Hd).
Defined.

Lemma handler_rejects_witness :
  let ServeHTTP := fun _ : Request => {| StatusCode := 200; message := "" |} in
  let mrl := fst (Allow_all methodRateLimiter
                    (map (fun r => (r, noon)) (repeat limited_request 60))) in
  snd (Allow mrl limited_request noon) <> (true, None)
  /\ handler ServeHTTP mrl limited_request noon
     = (mrl, http_Error "Rate limit exceeded or request body too large" 429).
Proof.
  intros ServeHTTP mrl.
  assert (snd (Allow mrl limited_request noon) <> (true, None)) as Hrej
    by (vm_compute; discriminate).
  split; [exact Hrej|].
  destruct (handler_rejects ServeHTTP mrl limited_request noon Hrej)
    as (_ & Hm & [(e & He & _)|[_ Hs]]).
  - exfalso. revert He. vm_compute. discriminate.
  - destruct (handler ServeHTTP mrl limited_request noon) as [m resp].
    cbn [fst snd] in Hm, Hs. by subst.
Defined.

Lemma NextBackend_stale_entry_witness :
  let lb := {| backends := [backend_of "http://a"] |} in
  first_least [("http://a", "10ms")] ("http://old", "1ms") []%string = true
  /\ NextBackend lb ([("http://a", "10ms"); ("http://old", "1ms")]%string, None)
     = (None, Some (errors_New "backend not found")).
Proof.
  intros lb.
  assert (first_least [("http://a", "10ms")] ("http://old", "1ms") []%string = true)
    as Hfl by (vm_compute; reflexivity).
  split; [exact Hfl|].
  apply (NextBackend_stale_entry lb [("http://a", "10ms")]%string
           ("http://old", "1ms")%string [] Hfl); [discriminate|].
  intros b Hin. apply list_elem_of_singleton in Hin. subst b. discriminate.
Defined.

Lemma Allow_burst_capacity_witness :
  let mrl := NewMethodRateLimiter 0.5 3 in
  let rs := repeat limited_request 5 in
  Forall (limited_call mrl "node-7" "eth_getChainId") rs
  /\ snd (Allow_all mrl (map (fun r => (r, noon)) rs))
     = [(true, None); (true, None); (true, None); (false, None); (false, None)].
Proof.
  intros mrl rs.
  assert (limited_call mrl "node-7" "eth_getChainId" limited_request) as Hr.
  { unfold limited_call. repeat split; try (vm_compute; reflexivity). discriminate. }
  assert (Forall (limited_call mrl "node-7" "eth_getChainId") rs) as Hrs
    by (repeat (constructor; [exact Hr|]); constructor).
  split; [exact Hrs|].
  apply (Allow_burst_capacity mrl "node-7" "eth_getChainId" noon rs);
    [reflexivity | split; [discriminate | reflexivity] | left; reflexivity | exact Hrs].
Defined.

End examples.
